(** * Relational core of the family-tree application (app.js)

    Shallow embedding of the in-memory model and graph algorithms of
    [app.js]: [buildLookups], [getFamilySet], [getAncestors],
    [findRelationship], [getAncestorPath], [getDescendantPath],
    [interpretHinduRelation], the birth-date helpers and
    [getUpcomingBirthdays]. [getFamilySet] is given twice: on values, and
    on a heap of objects where copies and shared arrays are visible.

    Conventions.
    - JavaScript strings are [string]; an id is a string.
    - A property that may hold [null]/[undefined] is an [option]; the
      JavaScript truthiness test [if (x)] on such a property is [js_ref].
    - [Map] objects that are only looked up by key are [gmap]s; maps and
      plain objects whose iteration order is observable are association
      lists kept in creation order.
    - [while] loops take a fuel argument and return [None] when it runs
      out; the theorems show that the fuel computed from the store is
      always enough. *)

From stdpp Require Import base gmap sets list strings sorting relations pretty.
From Stdlib Require Import Ascii ZArith Lia.


(** ** Data model *)

(** Values stored in [genderMap]: the only writes are ['M'] and ['F']
    (lines 301, 304, 321, 322, 1483); [getGender] adds ['U']. All three
    are truthy strings. *)
Inductive Gender := M | F | U.

Global Instance Gender_eq_dec : EqDecision Gender.
Proof. solve_decision. Defined.

(** A person object. [pids] holds an array: its elements where the
    identity of the array does not matter ([Person]), a reference where it
    does (the heap model of [getFamilySet] below). [other] stands for the
    own properties that no modelled function reads ([Death], [Address],
    [email], [note]). *)
Record PersonOf (R : Type) := mkPerson {
  id : string;
  name : string;
  fid : option string;
  mid : option string;
  pids : option R;
  Birth : string;
  phone : string;
  image_url : string;
  other : list (string * string)
}.

Arguments mkPerson {R} _ _ _ _ _ _ _ _ _.
Arguments id {R} _.
Arguments name {R} _.
Arguments fid {R} _.
Arguments mid {R} _.
Arguments pids {R} _.
Arguments Birth {R} _.
Arguments phone {R} _.
Arguments image_url {R} _.
Arguments other {R} _.

Global Instance PersonOf_eq_dec {R} `{EqDecision R} : EqDecision (PersonOf R).
Proof. solve_decision. Defined.

(** A person object of the [PEOPLE] array. *)
Abbreviation Person := (PersonOf (list string)).

(** The free-standing state of the page: [PEOPLE], [peopleMap],
    [childrenMap], [genderMap]. *)
Record Store := mkStore {
  PEOPLE : list Person;
  peopleMap : gmap string Person;
  childrenMap : gmap string (list string);
  genderMap : gmap string Gender
}.

(** [if (x)] for a property holding a string, [null] or [undefined]:
    the string when it is non-empty. *)
Definition js_ref (x : option string) : option string :=
  match x with
  | Some s => if decide (s = "") then None else Some s
  | None => None
  end.

(** ** Plain objects with number values ([ancestors] in [getAncestors]) *)

Module JsObject.

(** Own properties in creation order. *)
Abbreviation t := (list (string * nat)).

(** Property names found on [Object.prototype]; reading one of them
    from an object without such an own property does not give
    [undefined]. *)
Definition object_prototype_names : list string :=
  [ "constructor"; "__defineGetter__"; "__defineSetter__";
    "hasOwnProperty"; "__lookupGetter__"; "__lookupSetter__";
    "isPrototypeOf"; "propertyIsEnumerable"; "toString"; "valueOf";
    "__proto__"; "toLocaleString" ].

Inductive value := Own (v : nat) | Inherited | Undefined.

Definition own (o : t) (k : string) : option nat :=
  match list_find (λ kv : string * nat, kv.1 = k) o with
  | Some (_, (_, v)) => Some v
  | None => None
  end.

Definition has_own (o : t) (k : string) : bool :=
  bool_decide (is_Some (own o k)).

(** [o[k]] *)
Definition get (o : t) (k : string) : value :=
  match own o k with
  | Some v => Own v
  | None => if decide (k ∈ object_prototype_names) then Inherited else Undefined
  end.

(** [o[k] = v] for a number [v]. Assigning a number to ["__proto__"]
    goes to the inherited setter, which ignores it. *)
Definition set (o : t) (k : string) (v : nat) : t :=
  if decide (k = "__proto__") then o
  else if has_own o k
       then (λ kv : string * nat, if decide (kv.1 = k) then (k, v) else kv) <$> o
       else o ++ [(k, v)].

Definition digit_value (c : ascii) : option N :=
  let n := N_of_ascii c in
  if decide (48 ≤ n ∧ n ≤ 57)%N then Some (n - 48)%N else None.

Fixpoint digits_value (acc : N) (s : string) : option N :=
  match s with
  | EmptyString => Some acc
  | String c s' =>
      match digit_value c with
      | Some d => digits_value (10 * acc + d)%N s'
      | None => None
      end
  end.

(** An array index is the canonical decimal form of an integer below
    [2^32 - 1]. *)
Definition array_index (k : string) : option N :=
  match k with
  | EmptyString => None
  | String c rest =>
      if decide (c = "0"%char ∧ rest ≠ EmptyString) then None
      else match digits_value 0 k with
           | Some n => if decide (n < 4294967295)%N then Some n else None
           | None => None
           end
  end.

Definition index_le (a b : N * string) : Prop := (a.1 ≤ b.1)%N.

Global Instance index_le_dec : RelDecision index_le.
Proof. intros a b. unfold index_le. apply _. Defined.

(** [for (k in o)]: array-index keys in ascending numeric order, then
    the other keys in creation order. *)
Definition for_in_keys (o : t) : list string :=
  let indexed := omap (λ kv : string * nat, (λ n, (n, kv.1)) <$> array_index kv.1) o in
  let named := filter (λ k, array_index k = None) (fst <$> o) in
  (snd <$> merge_sort index_le indexed) ++ named.

End JsObject.

(** ** Section 2 of app.js: [buildLookups] *)

(** [Array.prototype.sort()] without comparator on an array of strings:
    ascending by code units. *)
Definition js_sort (l : list string) : list string := merge_sort String.le l.

(** The [addChild] helper (lines 277-282). *)
Definition addChild (parentKey childId : string)
    (cm : gmap string (list string)) : gmap string (list string) :=
  let cm1 := if decide (is_Some (cm !! parentKey)) then cm
             else <[parentKey := []]> cm in
  alter (λ children, children ++ [childId]) parentKey cm1.

(** Body of the first [PEOPLE.forEach] (lines 272-287). *)
Definition index_person (maps : gmap string Person * gmap string (list string))
    (person : Person) : gmap string Person * gmap string (list string) :=
  let pm := <[id person := person]> maps.1 in
  let cm1 := match js_ref (fid person) with
             | Some f => addChild f (id person) maps.2
             | None => maps.2
             end in
  let cm2 := match js_ref (mid person) with
             | Some m => addChild m (id person) cm1
             | None => cm1
             end in
  (pm, cm2).

(** Body of the parenthood pass (lines 299-306). *)
Definition infer_from_parents (gm : gmap string Gender) (person : Person)
    : gmap string Gender :=
  let gm1 := match js_ref (fid person) with
             | Some f => if decide (is_Some (gm !! f)) then gm else <[f := M]> gm
             | None => gm
             end in
  match js_ref (mid person) with
  | Some m => if decide (is_Some (gm1 !! m)) then gm1 else <[m := F]> gm1
  | None => gm1
  end.

(** [g === 'M' ? 'F' : 'M'] *)
Definition opposite (g : Gender) : Gender :=
  match g with M => F | _ => M end.

(** Body of [person.pids.forEach] in the partnership pass (lines 315-323).
    Both genders are read before either assignment. *)
Definition infer_from_partner (pm : gmap string Person) (p1_id : string)
    (gm : gmap string Gender) (p2_id : string) : gmap string Gender :=
  if decide (is_Some (pm !! p2_id)) then
    let p1_gender := gm !! p1_id in
    let p2_gender := gm !! p2_id in
    let gm1 := match p1_gender, p2_gender with
               | Some g, None => <[p2_id := opposite g]> gm
               | _, _ => gm
               end in
    match p1_gender, p2_gender with
    | None, Some g => <[p1_id := opposite g]> gm1
    | _, _ => gm1
    end
  else gm.

(** One [PEOPLE.forEach] of the partnership pass (lines 311-325). *)
Definition partner_pass (pm : gmap string Person) (people : list Person)
    (gm : gmap string Gender) : gmap string Gender :=
  foldl (λ gm person,
           match pids person with
           | Some (p :: ps) => foldl (infer_from_partner pm (id person)) gm (p :: ps)
           | _ => gm
           end) gm people.

(** [for (let i = 0; i < 5; i++)] around the pass: [count] is the number
    of iterations still to run, [i] the loop variable. *)
Fixpoint partner_passes (count i : nat) (pm : gmap string Person)
    (people : list Person) (gm : gmap string Gender) : gmap string Gender * nat :=
  match count with
  | 0 => (gm, i)
  | S count' => partner_passes count' (S i) pm people (partner_pass pm people gm)
  end.

(** Pass 1 (lines 299-306) and pass 2 (lines 310-326) of the inference. *)
Definition parenthood_phase (people : list Person) (gm : gmap string Gender)
    : gmap string Gender :=
  foldl infer_from_parents gm people.

Definition partnership_phase (pm : gmap string Person) (people : list Person)
    (gm : gmap string Gender) : gmap string Gender :=
  (partner_passes 5 0 pm people gm).1.

Definition buildLookups (s : Store) : Store :=
  let maps := foldl index_person (peopleMap s, childrenMap s) (PEOPLE s) in
  let cm := js_sort <$> maps.2 in
  let gm := partnership_phase maps.1 (PEOPLE s)
              (parenthood_phase (PEOPLE s) (genderMap s)) in
  mkStore (PEOPLE s) maps.1 cm gm.

(** The state in which [buildLookups] is called (line 1544): both lookup
    maps are the empty maps of lines 44-45 and [genderMap] holds the
    explicit [sex] values of the loader (line 1483). *)
Definition loaded (people : list Person) (explicit : gmap string Gender) : Store :=
  mkStore people ∅ ∅ explicit.

Definition Build (people : list Person) (explicit : gmap string Gender) : Store :=
  buildLookups (loaded people explicit).

(** [getGender] (lines 500-502). *)
Definition getGender (s : Store) (personId : string) : Gender :=
  match genderMap s !! personId with
  | Some g => g
  | None => U
  end.

(** The child ids that the first pass appends under parent [p], in order:
    for each record its id once when [fid] is [p] and once when [mid] is. *)
Definition pushes_under (p : string) (person : Person) : list string :=
  (if decide (js_ref (fid person) = Some p) then [id person] else []) ++
  (if decide (js_ref (mid person) = Some p) then [id person] else []).

Definition appended_children (p : string) (people : list Person) : list string :=
  people ≫= pushes_under p.

(** ** Section 3 of app.js: ancestor and descendant walks *)

(** Iterations granted to the upward walks: every person of [peopleMap]
    is expanded at most once and pushes at most two queue entries. *)
Definition ancestors_fuel (s : Store) : nat := 2 * size (peopleMap s) + 2.

(** Iterations granted to the downward walk: every key of [childrenMap]
    is expanded at most once and pushes its children. *)
Definition descendants_fuel (s : Store) : nat :=
  sum_list_with (λ kv : string * list string, length kv.2) (map_to_list (childrenMap s)) + 2.

Section Walks.

Variable s : Store.

(** The [while] loop of [getAncestors] (lines 481-496). Returns the
    [ancestors] object together with the final [visited] set (in
    insertion order). *)
Fixpoint getAncestors_loop (fuel : nat) (queue : list (string * nat))
    (visited : list string) (ancestors : JsObject.t)
    : option (JsObject.t * list string) :=
  match fuel with
  | 0 => None
  | S fuel' =>
      match queue with
      | [] => Some (ancestors, visited)
      | current :: queue' =>
          if decide (current.1 ∈ visited)
          then getAncestors_loop fuel' queue' visited ancestors
          else
            let visited' := visited ++ [current.1] in
            match peopleMap s !! current.1 with
            | None => getAncestors_loop fuel' queue' visited' ancestors
            | Some person =>
                let ancestors' := JsObject.set ancestors current.1 current.2 in
                let queue1 :=
                  match js_ref (fid person) with
                  | Some f => queue' ++ [(f, current.2 + 1)]
                  | None => queue'
                  end in
                let queue2 :=
                  match js_ref (mid person) with
                  | Some m => queue1 ++ [(m, current.2 + 1)]
                  | None => queue1
                  end in
                getAncestors_loop fuel' queue2 visited' ancestors'
            end
      end
  end.

Definition getAncestors (startId : string) : option JsObject.t :=
  fst <$> getAncestors_loop (ancestors_fuel s) [(startId, 0)] [] [].

(** The [while] loop of [getAncestorPath] (lines 544-557); the result
    is [Some path] or [None] for [null], with the final [visited]. *)
Fixpoint getAncestorPath_loop (targetAncestor : string) (fuel : nat)
    (queue : list (string * list string)) (visited : list string)
    : option (option (list string) * list string) :=
  match fuel with
  | 0 => None
  | S fuel' =>
      match queue with
      | [] => Some (None, visited)
      | current :: queue' =>
          if decide (current.1 ∈ visited)
          then getAncestorPath_loop targetAncestor fuel' queue' visited
          else
            let visited' := visited ++ [current.1] in
            if decide (current.1 = targetAncestor)
            then Some (Some current.2, visited')
            else
              match peopleMap s !! current.1 with
              | None => getAncestorPath_loop targetAncestor fuel' queue' visited'
              | Some p =>
                  let queue1 :=
                    match js_ref (fid p) with
                    | Some f => queue' ++ [(f, current.2 ++ [f])]
                    | None => queue'
                    end in
                  let queue2 :=
                    match js_ref (mid p) with
                    | Some m => queue1 ++ [(m, current.2 ++ [m])]
                    | None => queue1
                    end in
                  getAncestorPath_loop targetAncestor fuel' queue2 visited'
              end
      end
  end.

Definition getAncestorPath (startId targetAncestor : string)
    : option (option (list string)) :=
  fst <$> getAncestorPath_loop targetAncestor (ancestors_fuel s)
            [(startId, [startId])] [].

(** The [while] loop of [getDescendantPath] (lines 565-577). *)
Fixpoint getDescendantPath_loop (targetId : string) (fuel : nat)
    (queue : list (string * list string)) (visited : list string)
    : option (option (list string) * list string) :=
  match fuel with
  | 0 => None
  | S fuel' =>
      match queue with
      | [] => Some (None, visited)
      | current :: queue' =>
          if decide (current.1 ∈ visited)
          then getDescendantPath_loop targetId fuel' queue' visited
          else
            let visited' := visited ++ [current.1] in
            if decide (current.1 = targetId)
            then Some (Some current.2, visited')
            else
              let children := default [] (childrenMap s !! current.1) in
              let queue1 :=
                queue' ++ ((λ child, (child, current.2 ++ [child])) <$> children) in
              getDescendantPath_loop targetId fuel' queue1 visited'
      end
  end.

Definition getDescendantPath (ancestorId targetId : string)
    : option (option (list string)) :=
  fst <$> getDescendantPath_loop targetId (descendants_fuel s)
            [(ancestorId, [ancestorId])] [].

End Walks.

(** ** Kinship: [findRelationship] and [interpretHinduRelation] *)

(** Body of [for (let anc in a1)] (lines 523-529); the state is
    [(bestAncestor, bestDistance)] with [None] for [null] and for
    [Infinity]. When [a2[anc]] is an inherited property the sum is not a
    number and [dist < bestDistance] is false. *)
Definition closer (a1 a2 : JsObject.t) (best : option string * option nat)
    (anc : string) : option string * option nat :=
  match JsObject.get a2 anc with
  | JsObject.Undefined => best
  | JsObject.Inherited => best
  | JsObject.Own d2 =>
      match JsObject.get a1 anc with
      | JsObject.Own d1 =>
          let dist := d1 + d2 in
          match best.2 with
          | None => (Some anc, Some dist)
          | Some bestDistance =>
              if decide (dist < bestDistance) then (Some anc, Some dist) else best
          end
      | _ => best
      end
  end.

Definition bestAncestor (a1 a2 : JsObject.t) : option string :=
  (foldl (closer a1 a2) (None, None) (JsObject.for_in_keys a1)).1.

(** [u] and [d] of lines 584-585; an empty array gives [-1]. *)
Definition distances (up down : list string) : Z * Z :=
  (Z.of_nat (length up) - 1, Z.of_nat (length down) - 1)%Z.

Definition interpretHinduRelation (s : Store) (homeId targetId : string)
    (up down : option (list string)) : string :=
  match up, down with
  | Some up, Some down =>
      let u := (distances up down).1 in
      let d := (distances up down).2 in
      match peopleMap s !! homeId, peopleMap s !! targetId with
      | Some homePerson, Some targetPerson =>
          let targetGender := getGender s targetId in
          if decide (d = 0)%Z then
            if decide (u = 1)%Z then
              if decide (fid homePerson = Some targetId) then "Tandri (Father)"
              else if decide (mid homePerson = Some targetId) then "Talli (Mother)"
              else "Parent"
            else if decide (u = 2)%Z then
              let parentId := up !! 1 in
              if decide (parentId = fid homePerson) then
                if decide (targetGender = M) then "Tata (Paternal Grandfather)"
                else "Nayanamma (Paternal Grandmother)"
              else
                if decide (targetGender = M) then "Tata (Maternal Grandfather)"
                else "Ammamma (Maternal Grandmother)"
            else if decide (u = 3)%Z then "Great Grandparent"
            else "Ancestor"
          else if decide (u = 0)%Z then
            if decide (d = 1)%Z then
              match targetGender with
              | M => "Koduku (Son)" | F => "Kumarthe (Daughter)" | U => "Child"
              end
            else if decide (d = 2)%Z then
              match targetGender with
              | M => "Manavadu (Grandson)" | F => "Manavaralu (Granddaughter)"
              | U => "Grandchild"
              end
            else if decide (d = 3)%Z then
              match targetGender with
              | M => "Muni Manavadu (Great Grandson)"
              | F => "Muni Manavaralu (Great Granddaughter)"
              | U => "Great Grandchild"
              end
            else "Descendant"
          else if decide (u = 1 ∧ d = 1)%Z then
            if decide (targetGender = M) then "Sodharudu (Brother)" else "Sodari (Sister)"
          else if decide (u = 2 ∧ d = 1)%Z then
            let parentId := up !! 1 in
            if decide (parentId = fid homePerson) then
              match targetGender with
              | M => "Pedananna / Chinnananna (Paternal Uncle)"
              | F => "Atta (Paternal Aunt)"
              | U => "Uncle / Aunt"
              end
            else if decide (parentId = mid homePerson) then
              match targetGender with
              | M => "Mama (Maternal Uncle)"
              | F => "Peddamma / Pinnamma (Maternal Aunt)"
              | U => "Uncle / Aunt"
              end
            else "Uncle / Aunt"
          else if decide (u = 1 ∧ d = 2)%Z then
            if decide (targetGender = M) then "Menalludu (Nephew)" else "Menakodalu (Niece)"
          else if decide (u = 2 ∧ d = 2)%Z then "Cousin"
          else "Bandhuvu (Relative)"
      | _, _ => "Unknown"
      end
  | _, _ => "Bandhuvu (Relative)"
  end.

(** What [findRelationship] has when it reaches its last line: a label
    returned earlier, or the two paths handed to
    [interpretHinduRelation]. *)
Inductive resolution :=
  | Label (l : string)
  | Paths (anc : string) (pathUp pathDown : option (list string)).

(** [person1 && person1.pids && person1.pids.includes(id2)] (line 509). *)
Definition listsPartner (s : Store) (id1 id2 : string) : bool :=
  match peopleMap s !! id1 with
  | Some person1 =>
      match pids person1 with
      | Some ps => bool_decide (id2 ∈ ps)
      | None => false
      end
  | None => false
  end.

(** Lines 505-535 of [findRelationship]. *)
Definition findRelationship_paths (s : Store) (id1 id2 : string) : option resolution :=
  if decide (id1 = "" ∨ id2 = "") then Some (Label "Unknown")
  else if decide (id1 = id2) then Some (Label "Self")
  else
    if listsPartner s id1 id2 then
      Some (Label (match getGender s id2 with
                   | M => "Bhartha (Husband)"
                   | F => "Bharya (Wife)"
                   | U => "Spouse"
                   end))
    else
      a1 ← getAncestors s id1;
      a2 ← getAncestors s id2;
      match js_ref (bestAncestor a1 a2) with
      | None => Some (Label "No direct blood relation")
      | Some anc =>
          pathUp ← getAncestorPath s id1 anc;
          pathDown ← getDescendantPath s anc id2;
          Some (Paths anc pathUp pathDown)
      end.

Definition findRelationship (s : Store) (id1 id2 : string) : option string :=
  r ← findRelationship_paths s id1 id2;
  match r with
  | Label l => Some l
  | Paths _ pathUp pathDown => Some (interpretHinduRelation s id1 id2 pathUp pathDown)
  end.

(** ** Reference breadth-first walk

    The three walks above are the same queue discipline over two edge
    relations. [bfs] is that discipline over an arbitrary successor
    function, with a payload [A] carried by every queue entry (a depth
    or a path); the theorems relate each loop of the program to it. *)

Section Bfs.

Context {A : Type}.
Variables (succ : string → list string) (ext : A → string → A).
Variable target : option string.

Fixpoint bfs (fuel : nat) (queue visited : list (string * A))
    : option (option A * list (string * A)) :=
  match fuel with
  | 0 => None
  | S fuel' =>
      match queue with
      | [] => Some (None, visited)
      | current :: queue' =>
          if decide (current.1 ∈ visited.*1)
          then bfs fuel' queue' visited
          else
            let visited' := visited ++ [current] in
            if decide (target = Some current.1)
            then Some (Some current.2, visited')
            else bfs fuel'
                   (queue' ++ ((λ w, (w, ext current.2 w)) <$> succ current.1))
                   visited'
      end
  end.

(** [edge v w]: the walk goes from [v] to [w] in one step. *)
Definition edge (v w : string) : Prop := w ∈ succ v.

(** What holds of the queue and the visited entries while the walk from
    [x] runs; [m] is the length recorded in a payload and [good] says
    that a payload is well formed. *)
Record bfs_inv (good : A → Prop) (m : A → nat) (x : string)
    (queue visited : list (string * A)) : Prop := {
  inv_good : ∀ v a, (v, a) ∈ queue ++ visited → good a;
  inv_path : ∀ v a, (v, a) ∈ queue ++ visited → nsteps edge (m a) x v;
  inv_sorted : StronglySorted (λ a b : string * A, m a.2 ≤ m b.2) queue;
  inv_span : ∀ a b : string * A, a ∈ queue → b ∈ queue → m b.2 ≤ S (m a.2);
  inv_vis_le : ∀ a b : string * A, a ∈ visited → b ∈ queue → m a.2 ≤ m b.2;
  inv_succ : ∀ v a w, (v, a) ∈ visited → w ∈ succ v →
             w ∈ visited.*1 ∨ ∃ b, (w, b) ∈ queue ∧ m b = S (m a);
  inv_front : ∀ w n, nsteps edge n x w →
             w ∈ visited.*1 ∨
             ∃ u b i, (u, b) ∈ queue ∧ (u ∉ visited.*1) ∧ nsteps edge i u w ∧ m b + i ≤ n;
  inv_min : ∀ v a n, (v, a) ∈ visited → nsteps edge n x v → m a ≤ n;
  inv_nodup : NoDup visited.*1;
  inv_target : ∀ t, target = Some t → t ∉ visited.*1
}.

(** Queue entries still to be pushed by the members of [U] that are not
    visited yet. *)
Definition pending (U visited : list string) : nat :=
  sum_list_with (λ u, if decide (u ∈ visited) then 0 else length (succ u)) U.

End Bfs.

(** The edges followed upwards and downwards. *)
Definition parentsOf (s : Store) (v : string) : list string :=
  match peopleMap s !! v with
  | None => []
  | Some p =>
      (match js_ref (fid p) with Some f => [f] | None => [] end) ++
      (match js_ref (mid p) with Some m => [m] | None => [] end)
  end.

Definition childrenOf (s : Store) (v : string) : list string :=
  default [] (childrenMap s !! v).

(** The [ancestors] object written for a sequence of visited entries. *)
Definition recorded (s : Store) (visited : list (string * nat)) : JsObject.t :=
  foldl (λ o (e : string * nat),
           if decide (is_Some (peopleMap s !! e.1)) then JsObject.set o e.1 e.2 else o)
        [] visited.

(** Payloads of the walks: a path grows by the id pushed, a depth by one. *)
Definition push_path (path : list string) (w : string) : list string := path ++ [w].
Definition push_depth (k : nat) (w : string) : nat := k + 1.

(** Edge count of a path, as in [up.length - 1]. *)
Definition hops (path : list string) : nat := length path - 1.

(** Sum of the two depths of [k] when it is a key of both objects. *)
Definition depth_sum (a1 a2 : JsObject.t) (k : string) : option nat :=
  d1 ← JsObject.own a1 k; d2 ← JsObject.own a2 k; Some (d1 + d2).

(** State of the [for (anc in a1)] loop after the keys [processed]: the
    chosen key has the least sum among them and is the first to reach it. *)
Definition chosen (a1 a2 : JsObject.t) (processed : list string)
    (best : option string * option nat) : Prop :=
  match best with
  | (Some anc, Some d) =>
      ∃ i, processed !! i = Some anc
        ∧ depth_sum a1 a2 anc = Some d
        ∧ (∀ k e, k ∈ processed → depth_sum a1 a2 k = Some e → d ≤ e)
        ∧ (∀ j k e, j < i → processed !! j = Some k → depth_sum a1 a2 k = Some e → d < e)
  | (None, None) => ∀ k, k ∈ processed → depth_sum a1 a2 k = None
  | _ => False
  end.

(** ** String helpers of the display fields

    Strings are sequences of 8-bit code units. [is_space] is the part of
    the JavaScript white-space class that fits in 8 bits; [upper_char]
    maps the letters whose upper case fits in 8 bits and leaves every
    other code unit unchanged. *)

Definition is_space (c : ascii) : bool :=
  let n := N_of_ascii c in
  bool_decide ((9 ≤ n ∧ n ≤ 13) ∨ n = 32 ∨ n = 160)%N.

Fixpoint trim_start (s : string) : string :=
  match s with
  | String c s' => if is_space c then trim_start s' else s
  | EmptyString => EmptyString
  end.

Fixpoint trim_end (s : string) : string :=
  match s with
  | String c s' =>
      match trim_end s' with
      | EmptyString => if is_space c then EmptyString else String c EmptyString
      | rest => String c rest
      end
  | EmptyString => EmptyString
  end.

(** [s.trim()] *)
Definition trim (s : string) : string := trim_end (trim_start s).

(** [s.split(/\s+/)]: [cur] is the piece being read, in reverse;
    [in_gap] tells that the previous code unit was white space. *)
Fixpoint split_spaces_aux (cur : string) (in_gap : bool) (s : string) : list string :=
  match s with
  | EmptyString => [String.rev cur]
  | String c s' =>
      if is_space c
      then if in_gap then split_spaces_aux cur true s'
           else String.rev cur :: split_spaces_aux EmptyString true s'
      else split_spaces_aux (String c cur) false s'
  end.

Definition split_spaces (s : string) : list string :=
  split_spaces_aux EmptyString false s.

(** Upper case of an 8-bit code unit: the letters a-z and the accented
    letters 224-254 except the division sign. The code units 181, 223 and
    255, whose upper case is not one 8-bit code unit, are left as they
    are. *)
Definition upper_char (c : ascii) : ascii :=
  let n := N_of_ascii c in
  if bool_decide ((97 ≤ n ∧ n ≤ 122) ∨ (224 ≤ n ∧ n ≤ 254 ∧ n ≠ 247))%N
  then ascii_of_N (n - 32) else c.

(** [s.charAt(0).toUpperCase()] *)
Definition initial_upper (s : string) : string :=
  match s with
  | String c _ => String (upper_char c) EmptyString
  | EmptyString => EmptyString
  end.

(** [parts.join(" ")] *)
Fixpoint join_spaces (parts : list string) : string :=
  match parts with
  | [] => EmptyString
  | [p] => p
  | p :: rest => String.append p (String " "%char (join_spaces rest))
  end.

(** ** Section 3 of app.js: [getFamilySet] *)

(** Values of [gender_icon_svg]: the empty string, [MALE_ICON_SVG] or
    [FEMALE_ICON_SVG] (lines 55-56). *)
Inductive Icon := NoIcon | MaleIcon | FemaleIcon.

Global Instance Icon_eq_dec : EqDecision Icon.
Proof. solve_decision. Defined.

(** A rendered node: the cloned person with the three display fields. *)
Record Node := mkNode {
  node : Person;
  gender_icon_svg : Icon;
  _initials : string;
  _label : string
}.

Global Instance Node_eq_dec : EqDecision Node.
Proof. solve_decision. Defined.

(** [addNode] (lines 395-399) on the insertion-ordered [familySet]. *)
Definition addNode (pm : gmap string Person) (familySet : list (string * Person))
    (i : string) : list (string * Person) :=
  match pm !! i with
  | Some p => if decide (i ∈ familySet.*1) then familySet else familySet ++ [(i, p)]
  | None => familySet
  end.

(** Lines 401-416: the candidates in insertion order. *)
Definition collect (s : Store) (centerId : string) (centerNode : Person)
    : list (string * Person) :=
  let fs0 := addNode (peopleMap s) [] centerId in
  let fs1 := match js_ref (fid centerNode) with
             | Some f => addNode (peopleMap s) fs0 f
             | None => fs0
             end in
  let fs2 := match js_ref (mid centerNode) with
             | Some m => addNode (peopleMap s) fs1 m
             | None => fs1
             end in
  let fs3 := match pids centerNode with
             | Some ps => foldl (addNode (peopleMap s)) fs2 ps
             | None => fs2
             end in
  match childrenMap s !! centerId with
  | Some children => foldl (addNode (peopleMap s)) fs3 children
  | None => fs3
  end.

(** Steps 1 and 2 of the [nodes.map] callback (lines 428-435). *)
Definition sanitize (nodeIds : list string) (p : Person) : Person :=
  let pids' := match pids p with
               | Some ps => Some (filter (λ pid, pid ∈ nodeIds) ps)
               | None => None
               end in
  let keep (r : option string) :=
    match js_ref r with
    | Some x => if decide (x ∈ nodeIds) then r else None
    | None => r
    end in
  mkPerson (id p) (name p) (keep (fid p)) (keep (mid p)) pids'
           (Birth p) (phone p) (image_url p) (other p).

(** Step 3 of the callback (lines 438-470): [gender_icon_svg],
    [_initials] and [_label] from the name, the image reference and the
    gender. *)
Definition display_fields (gender : Gender) (name image_url : string)
    : Icon * string * string :=
  let fullName := trim name in
  let parts := if decide (fullName = "") then [] else split_spaces fullName in
  let hasImage := bool_decide (image_url ≠ "" ∧ trim image_url ≠ "") in
  let icon := if hasImage then NoIcon
              else match gender with M => MaleIcon | F => FemaleIcon | U => NoIcon end in
  let initials :=
    if hasImage then ""
    else match gender with
         | M | F => ""
         | U =>
             match parts with
             | [] => "?"
             | [p0] => initial_upper p0
             | p0 :: _ => String.append (initial_upper p0)
                            (initial_upper (default "" (last parts)))
             end
         end in
  let label :=
    match parts with
    | [] | [_] => fullName
    | _ => String.append (join_spaces (removelast parts))
             (String "."%char (initial_upper (default "" (last parts))))
    end in
  (icon, initials, label).

Definition display (gender : Gender) (p : Person) : Node :=
  let '(icon, initials, label) := display_fields gender (name p) (image_url p) in
  mkNode p icon initials label.

Definition getFamilySet (s : Store) (centerId : string) : list Node :=
  match peopleMap s !! centerId with
  | None => []
  | Some centerNode =>
      let nodes := (collect s centerId centerNode).*2 in
      let nodeIds := id <$> nodes in
      (λ n, let n' := sanitize nodeIds n in display (getGender s (id n')) n') <$> nodes
  end.

(** ** [getFamilySet] on objects behind references

    [getFamilySet] copies person objects with [{ ...obj }], which shares
    the [pids] array of the original, and then assigns to properties of
    the copies. Here person objects and arrays live in a heap, maps hold
    references, and a call returns the references of its nodes together
    with the heap it leaves. A failed read ([None]) is a [TypeError]. *)

Inductive HObj :=
  | HPerson (o : PersonOf positive) (shown : option (Icon * string * string))
  | HArray (elements : list string).

Record HeapStore := mkHeapStore {
  h_peopleMap : gmap string positive;
  h_childrenMap : gmap string positive;
  h_genderMap : gmap string Gender
}.

(** A new object: its reference is in use nowhere in the heap. *)
Definition alloc (h : gmap positive HObj) (o : HObj) : positive * gmap positive HObj :=
  let l := fresh (dom h) in (l, <[l := o]> h).

Definition read_person (h : gmap positive HObj) (l : positive)
    : option (PersonOf positive * option (Icon * string * string)) :=
  match h !! l with
  | Some (HPerson o shown) => Some (o, shown)
  | _ => None
  end.

Definition read_array (h : gmap positive HObj) (l : positive) : option (list string) :=
  match h !! l with
  | Some (HArray elements) => Some elements
  | _ => None
  end.

Fixpoint foldlM {A B} (f : B → A → option B) (b : B) (l : list A) : option B :=
  match l with
  | [] => Some b
  | a :: l' => b' ← f b a; foldlM f b' l'
  end.

Section HeapExtract.

Variable hs : HeapStore.

(** [addNode]: [familySet] maps an id to the reference of its copy. *)
Definition h_addNode (st : list (string * positive) * gmap positive HObj) (i : string)
  : option (list (string * positive) * gmap positive HObj) :=
match h_peopleMap hs !! i with
| Some l =>
    if decide (i ∈ st.1.*1) then Some st
    else
      '(o, shown) ← read_person st.2 l;
      let '(c, h') := alloc st.2 (HPerson o shown) in
      Some (st.1 ++ [(i, c)], h')
| None => Some st
end.

Definition h_collect (centerId : string) (centerNode : PersonOf positive)
  (h : gmap positive HObj) : option (list (string * positive) * gmap positive HObj) :=
st0 ← h_addNode ([], h) centerId;
st1 ← match js_ref (fid centerNode) with
      | Some f => h_addNode st0 f
      | None => Some st0
      end;
st2 ← match js_ref (mid centerNode) with
      | Some m => h_addNode st1 m
      | None => Some st1
      end;
st3 ← match pids centerNode with
      | Some a => ps ← read_array st2.2 a; foldlM h_addNode st2 ps
      | None => Some st2
      end;
match h_childrenMap hs !! centerId with
| Some a => children ← read_array st3.2 a; foldlM h_addNode st3 children
| None => Some st3
end.

(** The [nodes.map] callback on the copy at [c]: a filtered array is a
  new array, and the properties of the copy are assigned. *)
Definition h_sanitize (nodeIds : list string) (h : gmap positive HObj) (c : positive)
  : option (gmap positive HObj) :=
'(o, _) ← read_person h c;
let '(pids', h1) :=
  match pids o with
  | Some a =>
      match h !! a with
      | Some (HArray ps) =>
          let '(a', h') := alloc h (HArray (filter (λ pid, pid ∈ nodeIds) ps)) in
          (Some a', h')
      | _ => (Some a, h)
      end
  | None => (None, h)
  end in
let keep (r : option string) :=
  match js_ref r with
  | Some x => if decide (x ∈ nodeIds) then r else None
  | None => r
  end in
let gender := match h_genderMap hs !! id o with Some g => g | None => U end in
let o' := mkPerson (id o) (name o) (keep (fid o)) (keep (mid o)) pids'
                   (Birth o) (phone o) (image_url o) (other o) in
Some (<[c := HPerson o' (Some (display_fields gender (name o) (image_url o)))]> h1).

Definition h_getFamilySet (centerId : string) (h : gmap positive HObj)
  : option (list positive * gmap positive HObj) :=
match h_peopleMap hs !! centerId with
| None => Some ([], h)
| Some l =>
    '(centerNode, _) ← read_person h l;
    '(familySet, h1) ← h_collect centerId centerNode h;
    let nodes := familySet.*2 in
    nodeIds ← mapM (λ c, (λ r : PersonOf positive * _, id r.1) <$> read_person h1 c) nodes;
    h2 ← foldlM (h_sanitize nodeIds) h1 nodes;
    Some (nodes, h2)
end.

(** The person object with its [pids] array read from the heap. *)
Definition abs_person (h : gmap positive HObj) (o : PersonOf positive) : option Person :=
match pids o with
| Some a =>
    ps ← read_array h a;
    Some (mkPerson (id o) (name o) (fid o) (mid o) (Some ps)
                   (Birth o) (phone o) (image_url o) (other o))
| None =>
    Some (mkPerson (id o) (name o) (fid o) (mid o) None
                   (Birth o) (phone o) (image_url o) (other o))
end.

(** The store that the references denote in heap [h]. *)
Definition abs_store (h : gmap positive HObj) : Store :=
mkStore []
  (omap (λ l, r ← read_person h l; abs_person h r.1) (h_peopleMap hs))
  (omap (read_array h) (h_childrenMap hs))
  (h_genderMap hs).

(** The node that a returned reference denotes. *)
Definition snapshot (h : gmap positive HObj) (c : positive) : option Node :=
r ← read_person h c;
p ← abs_person h r.1;
shown ← r.2;
Some (mkNode p shown.1.1 shown.1.2 shown.2).

(** Every reference of the two maps leads to an object of the right
  kind, and so does the [pids] of every person of [h_peopleMap]. *)
Definition person_ok (h : gmap positive HObj) (l : positive) : bool :=
match read_person h l with
| Some (o, _) =>
    match pids o with
    | Some a => bool_decide (is_Some (read_array h a))
    | None => true
    end
| None => false
end.

Definition heap_wf (h : gmap positive HObj) : Prop :=
map_Forall (λ _ l, person_ok h l = true) (h_peopleMap hs)
∧ map_Forall (λ _ a, is_Some (read_array h a)) (h_childrenMap hs).

End HeapExtract.

(** ** Section 4 of app.js: birth dates and upcoming birthdays *)

(** [s.split('-')]: the pieces between the dashes, at least one. *)
Fixpoint split_dash (s : string) : list string :=
  match s with
  | EmptyString => [EmptyString]
  | String c s' =>
      if decide (c = "-"%char) then EmptyString :: split_dash s'
      else match split_dash s' with
           | piece :: pieces => String c piece :: pieces
           | [] => [String c EmptyString]
           end
  end.

Definition digit_of (c : ascii) : option Z :=
  let n := Z.of_N (N_of_ascii c) in
  if decide (48 ≤ n ∧ n ≤ 57)%Z then Some (n - 48)%Z else None.

(** Value of the longest prefix of decimal digits; [acc] is [None] until
    a digit has been read. *)
Fixpoint parse_digits (acc : option Z) (s : string) : option Z :=
  match s with
  | String c s' =>
      match digit_of c with
      | Some d => parse_digits (Some (10 * default 0 acc + d)%Z) s'
      | None => acc
      end
  | EmptyString => acc
  end.

(** [parseInt(s, 10)]; [None] is [NaN]. Integers are exact: the rounding
    of numbers from 2^53 on is left out. *)
Definition parseInt (s : string) : option Z :=
  match trim_start s with
  | String "-"%char rest => Z.opp <$> parse_digits None rest
  | String "+"%char rest => parse_digits None rest
  | s1 => parse_digits None s1
  end.

(** [String(n)] for a number that is an integer or [NaN]; every digit is
    written, the exponent form of numbers from 1e21 on is left out. *)
Definition number_to_string (n : option Z) : string :=
  match n with
  | Some z => pretty z
  | None => "NaN"
  end.

(** [s.toUpperCase()] on 8-bit code units. *)
Fixpoint toUpperCase (s : string) : string :=
  match s with
  | String c s' => String (upper_char c) (toUpperCase s')
  | EmptyString => EmptyString
  end.

(** [s.slice(0, 3)] *)
Definition slice3 (s : string) : string :=
  match s with
  | String a (String b (String c _)) => String a (String b (String c EmptyString))
  | _ => s
  end.

Definition MONTH_ABBR : list string :=
  ["JAN"; "FEB"; "MAR"; "APR"; "MAY"; "JUN"; "JUL"; "AUG"; "SEP"; "OCT"; "NOV"; "DEC"].

Definition WEEKDAYS : list string :=
  ["SUNDAY"; "MONDAY"; "TUESDAY"; "WEDNESDAY"; "THURSDAY"; "FRIDAY"; "SATURDAY"].

(** The [months] object literal of lines 687 and 714. *)
Definition months (monthKey : string) : option Z :=
  (λ r : nat * string, Z.of_nat r.1) <$> list_find (λ k, k = monthKey) MONTH_ABBR.

(** A [Date] object read through [getFullYear], [getMonth] (0-11) and
    [getDate], in local time. *)
Record JsDate := mkDate { getFullYear : Z; getMonth : Z; getDate : Z }.

Global Instance JsDate_eq_dec : EqDecision JsDate.
Proof. solve_decision. Defined.

(** Days since 1 January 1970 of the proleptic Gregorian date [y]-[m]-[d]
    with [m] in 1..12, and back. *)
Definition days_from_civil (y m d : Z) : Z :=
  let y' := (if decide (m ≤ 2) then y - 1 else y)%Z in
  let era := (y' `div` 400)%Z in
  let yoe := (y' - era * 400)%Z in
  let doy := ((153 * (if decide (2 < m) then m - 3 else m + 9) + 2) `div` 5 + d - 1)%Z in
  let doe := (yoe * 365 + yoe `div` 4 - yoe `div` 100 + doy)%Z in
  (era * 146097 + doe - 719468)%Z.

Definition civil_from_days (z : Z) : JsDate :=
  let z' := (z + 719468)%Z in
  let era := (z' `div` 146097)%Z in
  let doe := (z' - era * 146097)%Z in
  let yoe := ((doe - doe `div` 1460 + doe `div` 36524 - doe `div` 146096) `div` 365)%Z in
  let doy := (doe - (365 * yoe + yoe `div` 4 - yoe `div` 100))%Z in
  let mp := ((5 * doy + 2) `div` 153)%Z in
  let d := (doy - (153 * mp + 2) `div` 5 + 1)%Z in
  let m := (if decide (mp < 10) then mp + 3 else mp - 9)%Z in
  let y := (yoe + era * 400 + (if decide (m ≤ 2) then 1 else 0))%Z in
  mkDate y (m - 1) d.

(** Day number of year, month (0-based, any integer) and day of month
    (any integer), as the [Date] constructor and [setDate] count it. *)
Definition make_day (year month day : Z) : Z :=
  (days_from_civil (year + month `div` 12) (month `mod` 12 + 1) 1 + day - 1)%Z.

(** [new Date(year, month, day)]: a year from 0 to 99 means 1900 + year;
    [None] is an invalid date ([getTime()] is [NaN]). *)
Definition new_Date (year : option Z) (month day : Z) : option JsDate :=
  match year with
  | None => None
  | Some y =>
      let y' := (if decide (0 ≤ y ∧ y ≤ 99) then 1900 + y else y)%Z in
      let n := make_day y' month day in
      if decide (-100000000 ≤ n ∧ n ≤ 100000000)%Z then Some (civil_from_days n) else None
  end.

(** [d.setDate(d.getDate() + i)] *)
Definition add_days (d : JsDate) (i : Z) : JsDate :=
  civil_from_days (make_day (getFullYear d) (getMonth d) (getDate d + i)).

(** [d.getDay()]: 0 is Sunday. *)
Definition getDay (d : JsDate) : Z :=
  ((make_day (getFullYear d) (getMonth d) (getDate d) + 4) `mod` 7)%Z.

Section Dates.

(** [new Date()]: the current local date. *)
Variable today : JsDate.

(** The pivot step written at lines 670-674, 693-697 and 732-736. *)
Definition formatDate (dateStr : string) : string :=
if decide (dateStr = "") then ""
else
  match split_dash dateStr with
  | [day; month; yearStr] =>
      let year := parseInt yearStr in
      let year :=
        match year with
        | Some y =>
            if decide (y < 100)%Z then
              let currentYear := Z.rem (getFullYear today) 100 in
              let pivot := (currentYear + 10)%Z in
              Some (if decide (pivot < y)%Z then 1900 + y else 2000 + y)%Z
            else Some y
        | None => None
        end in
      String.append day (String "-"%char
        (String.append month (String "-"%char (number_to_string year))))
  | _ => dateStr
  end.

(** Lines 698-704 of [getAgeFromBirth]. *)
Definition age_on (year : option Z) (month day : Z) : option Z :=
match new_Date year month day with
| None => None
| Some birth =>
    let age := (getFullYear today - getFullYear birth)%Z in
    let m := (getMonth today - getMonth birth)%Z in
    let age := if decide (m < 0 ∨ (m = 0 ∧ getDate today < getDate birth))%Z
               then (age - 1)%Z else age in
    if decide (age < 0 ∨ 150 < age)%Z then None else Some age
end.

Definition getAgeFromBirth (birthStr : string) : option Z :=
if decide (trim birthStr = "") then None
else
  match split_dash (trim birthStr) with
  | [dayStr; monthStr; yearStr] =>
      let day := parseInt dayStr in
      let monthKey := slice3 (toUpperCase monthStr) in
      match months monthKey, day with
      | Some month, Some day =>
          let year := parseInt yearStr in
          let year :=
            match year with
            | Some y =>
                if decide (y < 100)%Z then
                  let currentYear := Z.rem (getFullYear today) 100 in
                  let pivot := (currentYear + 10)%Z in
                  Some (if decide (pivot < y)%Z then 1900 + y else 2000 + y)%Z
                else Some y
            | None => None
            end in
          age_on year month day
      | _, _ => None
      end
  | _ => None
  end.

Definition getMonthDayFromBirth (birthStr : string) : option (Z * Z) :=
if decide (trim birthStr = "") then None
else
  match split_dash (trim birthStr) with
  | [dayStr; monthStr; _] =>
      let day := parseInt dayStr in
      let monthKey := slice3 (toUpperCase monthStr) in
      match months monthKey, day with
      | Some month, Some day =>
          if decide (day < 1 ∨ 31 < day)%Z then None else Some (month, day)
      | _, _ => None
      end
  | _ => None
  end.

Definition getBirthYearFromBirth (birthStr : string) : option Z :=
if decide (trim birthStr = "") then None
else
  match split_dash (trim birthStr) with
  | [_; _; yearStr] =>
      match parseInt yearStr with
      | None => None
      | Some y =>
          if decide (y < 100)%Z then
            let currentYear := Z.rem (getFullYear today) 100 in
            let pivot := (currentYear + 10)%Z in
            Some (if decide (pivot < y)%Z then 1900 + y else 2000 + y)%Z
          else Some y
      end
  | _ => None
  end.

(** One element of [persons] (its [id], [name] and [phone] are here
  [bp_id], [bp_name] and [bp_phone]) and one value of [byKey]. *)
Record BirthdayPerson := mkBirthdayPerson {
bp_id : string;
bp_name : string;
bp_phone : string;
ageAtDisplay : option Z
}.

Record BirthdayEntry := mkBirthdayEntry {
date : JsDate;
dateStr : string;
weekday : string;
persons : list BirthdayPerson
}.

(** Body of [PEOPLE.forEach] at lines 769-780: the element pushed for
  [p] on the day [d], if any. *)
Definition birthday_of (d : JsDate) (p : Person) : option BirthdayPerson :=
match getMonthDayFromBirth (Birth p) with
| Some (month, day) =>
    if decide (month = getMonth d ∧ day = getDate d) then
      let birthYear := getBirthYearFromBirth (Birth p) in
      let age := (λ b, getFullYear d - b)%Z <$> birthYear in
      let age := match age with
                 | Some a => if decide (0 ≤ a ∧ a ≤ 150)%Z then Some a else None
                 | None => None
                 end in
      Some (mkBirthdayPerson (id p)
              (if decide (trim (name p) = "") then "Unknown" else trim (name p))
              (trim (phone p)) age)
    else None
| None => None
end.

(** Body of the [for] loop at lines 759-780, on the insertion-ordered
  object [byKey]. The keys contain ["-"], so none is an array index or
  a name of [Object.prototype]. *)
Definition scan_day (people : list Person) (byKey : list (string * BirthdayEntry))
  (i : nat) : list (string * BirthdayEntry) :=
let d := add_days today (Z.of_nat i) in
let day := getDate d in
let month := getMonth d in
let year := getFullYear d in
let dateStr :=
  String.append (pretty day) (String "-"%char
    (String.append (default "undefined" (MONTH_ABBR !! Z.to_nat month))
       (String "-"%char (pretty year)))) in
let weekday := default "" (WEEKDAYS !! Z.to_nat (getDay d)) in
let key := dateStr in
let found := omap (birthday_of d) people in
match list_find (λ kv : string * BirthdayEntry, kv.1 = key) byKey with
| Some _ =>
    (λ kv : string * BirthdayEntry,
       if decide (kv.1 = key)
       then match kv.2 with
            | mkBirthdayEntry date0 dateStr0 weekday0 persons0 =>
                (key, mkBirthdayEntry date0 dateStr0 weekday0 (persons0 ++ found))
            end
       else kv) <$> byKey
| None => byKey ++ [(key, mkBirthdayEntry d dateStr weekday found)]
end.

(** [getUpcomingBirthdays]: the loop runs for [i = 0, 1, ...] while
  [i < daysAhead]; the keys are then sorted as strings. *)
Definition getUpcomingBirthdays (people : list Person) (daysAhead : Z)
  : list BirthdayEntry :=
let byKey := foldl (scan_day people) [] (seq 0 (Z.to_nat daysAhead)) in
let keys := js_sort byKey.*1 in
let entries := omap (λ k, snd <$> (snd <$> list_find (λ kv : string * BirthdayEntry, kv.1 = k) byKey)) keys in
filter (λ entry, persons entry ≠ []) entries.

End Dates.

(** The pivot rule as the specification words it: [pivot] is the current
    year modulo 100 plus 10; a two-digit year above it belongs to the
    1900s, any other to the 2000s. *)
Definition pivot_rule_spec (currentYear y : Z) : Z :=
  let pivot := (currentYear `mod` 100 + 10)%Z in
  if decide (pivot < y)%Z then (1900 + y)%Z else (2000 + y)%Z.

Fixpoint dash_free (s : string) : bool :=
  match s with
  | String c s' => if decide (c = "-"%char) then false else dash_free s'
  | EmptyString => true
  end.

(** The two-digit rendering of a year below 100. *)
Definition two_digits (y : Z) : string :=
  String (ascii_of_N (Z.to_N (48 + y `div` 10)))
    (String (ascii_of_N (Z.to_N (48 + y `mod` 10))) EmptyString).

(** The birth string [d]-[m]-yy of a two-digit year [y]. *)
Definition birth_string (d m : string) (y : Z) : string :=
  String.append d (String "-"%char (String.append m (String "-"%char (two_digits y)))).

(** ** Sample data used by the examples *)

Definition person (i : string) (f m : option string) (ps : list string) : Person :=
  mkPerson i i f m (Some ps) "" "" "" [].

(** Three generations: G1 and G2 are the parents of P and R, P and Q the
    parents of X, R the father of Y; Z is unrelated. *)
Definition three_generations : list Person :=
  [ person "G1" None None ["G2"];
    person "G2" None None ["G1"];
    person "P" (Some "G1") (Some "G2") ["Q"];
    person "Q" (Some "") None ["P"];
    person "R" (Some "G1") (Some "G2") [];
    person "X" (Some "P") (Some "Q") [];
    person "Y" (Some "R") (Some "missing") [];
    person "Z" None None [] ].

Definition family : Store := Build three_generations {[ "G2" := F ]}.

(** A couple without explicit parents and their child. *)
Definition couple : list Person :=
  [ person "A" None None ["B"];
    person "B" None None ["A"];
    person "C" (Some "B") (Some "A") [] ].

(** One record naming the same id as father and as mother. *)
Definition same_parent_twice : list Person :=
  [ person "C" (Some "P") (Some "P") [] ].

(** The family of X on a heap: P lists Q and Q lists P through two
    distinct arrays, X has an empty [pids] array. *)
Definition small_heap : gmap positive HObj :=
  {[ 1%positive := HArray ["Q"];
     2%positive := HArray ["P"; "gone"];
     3%positive := HArray [];
     4%positive := HArray ["X"];
     5%positive := HPerson (mkPerson "P" "P" (Some "G1") None (Some 1%positive) "" "" "" []) None;
     6%positive := HPerson (mkPerson "Q" "Q" None None (Some 2%positive) "" "" "" []) None;
     7%positive := HPerson (mkPerson "X" "X" (Some "P") (Some "Q") (Some 3%positive) "" "" "" []) None ]}.

Definition small_store : HeapStore :=
  mkHeapStore {[ "P" := 5%positive; "Q" := 6%positive; "X" := 7%positive ]}
              {[ "P" := 4%positive; "Q" := 4%positive ]}
              {[ "P" := M ]}.

(** A and B are each other's father and each other's partner. *)
Definition cyclic : list Person :=
  [ person "A" (Some "B") None ["B"];
    person "B" (Some "A") None ["A"] ].

(** Two people born on 9 and 10 January. *)
Definition january_births : list Person :=
  [ mkPerson "a" "Ann" None None None "9-JAN-90" "" "" [];
    mkPerson "b" "Bob" None None None "10-JAN-85" "" "" [] ].

(** x is the child of A and C, y the child of B and D; C is a child of B
    and D a child of A. A and B are both at depth sum 3. *)
Definition crossed : list Person :=
  [ person "A" None None [];
    person "B" None None [];
    person "C" (Some "B") None [];
    person "D" (Some "A") None [];
    person "x" (Some "A") (Some "C") [];
    person "y" (Some "B") (Some "D") [] ].

(** ** Walks along parent and child links *)

(** [path] leads from [x] to [t] and every element is followed by one of
    its successors. *)
Definition is_walk (succ : string → list string) (x t : string)
    (path : list string) : Prop :=
  head path = Some x ∧ last path = Some t
  ∧ ∀ i v w, path !! i = Some v → path !! S i = Some w → w ∈ succ v.

(** ** More sample data *)

(** The id x is recorded twice: first as a child of A, then as a child of
    P, who is a child of A; y is a child of A. *)
Definition recorded_twice : list Person :=
  [ person "A" None None [];
    person "x" (Some "A") None [];
    person "P" (Some "A") None [];
    person "x" (Some "P") None [];
    person "y" (Some "A") None [] ].

(** ** Section 4 of app.js: names and phone numbers *)

(** [s.charAt(0)] *)
Definition charAt0 (s : string) : string :=
  match s with
  | String c _ => String c EmptyString
  | EmptyString => EmptyString
  end.

(** [getInitials] (lines 789-794); [filter(Boolean)] keeps the non-empty
    pieces. *)
Definition getInitials (name : string) : string :=
  let parts := filter (λ p, p ≠ "") (split_spaces (trim name)) in
  match parts with
  | [] => "?"
  | [p0] => toUpperCase (charAt0 p0)
  | p0 :: _ =>
      toUpperCase (String.append (charAt0 p0) (charAt0 (default "" (last parts))))
  end.

(** [formatNameForNode] (lines 796-803). *)
Definition formatNameForNode (name : string) : string :=
  let fullName := trim name in
  let parts := if decide (fullName = "") then [] else split_spaces fullName in
  match parts with
  | [] | [_] => fullName
  | _ =>
      let firstNameFull := join_spaces (removelast parts) in
      let surnameInitial := toUpperCase (charAt0 (default "" (last parts))) in
      String.append firstNameFull (String "."%char surnameInitial)
  end.

(** [/\D/]: any code unit that is not a decimal digit. *)
Definition is_digit (c : ascii) : bool :=
  bool_decide (48 ≤ N_of_ascii c ∧ N_of_ascii c ≤ 57)%N.

(** [s.replace(/\D/g, '')] *)
Fixpoint strip_non_digits (s : string) : string :=
  match s with
  | String c s' => if is_digit c then String c (strip_non_digits s') else strip_non_digits s'
  | EmptyString => EmptyString
  end.

(** [getWhatsAppUrl] (lines 743-747). *)
Definition getWhatsAppUrl (phone : string) : string :=
  if decide (phone = "" ∨ trim phone = "") then ""
  else
    let digits := strip_non_digits phone in
    if decide (String.length digits = 0) then ""
    else String.append "https://wa.me/" digits.

(** ** Keys and entries of the birthday list *)

(** The string built at line 764 for the day [d], used as key of [byKey]
    and as [dateStr]. *)
Definition date_key (d : JsDate) : string :=
  String.append (pretty (getDate d)) (String "-"%char
    (String.append (default "undefined" (MONTH_ABBR !! Z.to_nat (getMonth d)))
       (String "-"%char (pretty (getFullYear d))))).

(** [WEEKDAYS[d.getDay()]] (line 765). *)
Definition weekday_name (d : JsDate) : string :=
  default "" (WEEKDAYS !! Z.to_nat (getDay d)).

(** ** Section 5 of app.js: search and home person *)

(** Lower case of an 8-bit code unit: the letters A-Z and the accented
    capitals 192-222 except the multiplication sign. *)
Definition lower_char (c : ascii) : ascii :=
  let n := N_of_ascii c in
  if bool_decide ((65 ≤ n ∧ n ≤ 90) ∨ (192 ≤ n ∧ n ≤ 222 ∧ n ≠ 215))%N
  then ascii_of_N (n + 32) else c.

(** [s.toLowerCase()] on 8-bit code units. *)
Fixpoint toLowerCase (s : string) : string :=
  match s with
  | String c s' => String (lower_char c) (toLowerCase s')
  | EmptyString => EmptyString
  end.

(** [s.startsWith(q)] *)
Fixpoint startsWith (s q : string) : bool :=
  match q, s with
  | EmptyString, _ => true
  | String a q', String b s' => if decide (a = b) then startsWith s' q' else false
  | String _ _, EmptyString => false
  end.

(** [s.includes(q)]: [q] starts at some position of [s]. *)
Fixpoint includes (s q : string) : bool :=
  startsWith s q ||
  match s with
  | String _ s' => includes s' q
  | EmptyString => false
  end.

(** The [for] loop of [handleSearch] (lines 1173-1179), which stops at
    twenty matches. *)
Fixpoint search_loop (query : string) (people : list Person) (matches : list Person)
    : list Person :=
  match people with
  | [] => matches
  | person :: rest =>
      if includes (toLowerCase (name person)) query then
        let matches := matches ++ [person] in
        if decide (20 ≤ length matches) then matches else search_loop query rest matches
      else search_loop query rest matches
  end.

(** [handleSearch] (lines 1166-1181) on the text of the search box:
    [None] when the suggestions are only cleared, [Some matches] when
    [displaySuggestions(matches)] is called. *)
Definition handleSearch (people : list Person) (value : string) : option (list Person) :=
  let query := trim (toLowerCase value) in
  if decide (String.length query < 2) then None
  else Some (search_loop query people []).

(** [getHomePersonId] (lines 1218-1225); [stored] is what
    [localStorage.getItem('familyTreeHomeId')] returns, [None] for
    [null]. *)
Definition getHomePersonId (s : Store) (stored : option string) : option string :=
  let fallback :=
    match list_find (λ p : Person, name p = "SRIKANTH DHARMAVARAM") (PEOPLE s) with
    | Some (_, homePerson) => Some (id homePerson)
    | None => match PEOPLE s with
              | p0 :: _ => Some (id p0)
              | [] => None
              end
    end in
  match js_ref stored with
  | Some homeId =>
      if decide (is_Some (peopleMap s !! homeId)) then Some homeId else fallback
  | None => fallback
  end.

(** ** Section 5.7 of app.js: [loadNewDatabase]

    The four JSON files after parsing. A property that is absent or
    [null] is [None]; every property that is present holds a string, and
    [children] an array of strings. *)

Module persons_json.
Record row := mkRow {
  person_id : string;
  given_name : option string;
  surname : option string;
  sex : option string;
  birth_date : option string;
  birth_place_id : option string
}.
End persons_json.

Module families_json.
Record row := mkRow {
  husband_id : option string;
  wife_id : option string;
  children : option (list string)
}.
End families_json.

Module contacts_json.
Record row := mkRow {
  person_id : string;
  email : option string;
  phone : option string;
  note : option string
}.
End contacts_json.

(** A [Map] with string keys whose iteration order is read: entries in
    insertion order; [set] on a key that is present keeps its place. *)
Module JsMap.

Definition has {V} (m : list (string * V)) (k : string) : bool :=
  bool_decide (k ∈ m.*1).

Definition set {V} (m : list (string * V)) (k : string) (v : V) : list (string * V) :=
  if has m k
  then (λ kv : string * V, if decide (kv.1 = k) then (k, v) else kv) <$> m
  else m ++ [(k, v)].

(** An assignment to a property of the object stored under [k]. *)
Definition update {V} (m : list (string * V)) (k : string) (f : V → V)
    : list (string * V) :=
  (λ kv : string * V, if decide (kv.1 = k) then (kv.1, f kv.2) else kv) <$> m.

Definition values {V} (m : list (string * V)) : list V := m.*2.

End JsMap.

(** [x || ""] for a property holding a string. *)
Definition or_empty (x : option string) : string := default "" (js_ref x).

(** Line 1488; [places] holds for every own key the [place] property of
    its object. [None] is [undefined]: the object has no [place], as the
    objects inherited from [Object.prototype] do not. *)
Definition birthPlace (places : gmap string (option string))
    (birth_place_id : option string) : option string :=
  match js_ref birth_place_id with
  | None => Some ""
  | Some b =>
      match places !! b with
      | Some place => place
      | None => if decide (b ∈ JsObject.object_prototype_names) then None else Some ""
      end
  end.

(** Body of the loop over [persons] (lines 1473-1504), on [genderMap] and
    [newPeopleMap]. In [other] a property that is [undefined] is left
    out. *)
Definition add_person (contactsMap : gmap string contacts_json.row)
    (places : gmap string (option string))
    (state : gmap string Gender * list (string * Person)) (p : persons_json.row)
    : gmap string Gender * list (string * Person) :=
  let givenName := trim (or_empty (persons_json.given_name p)) in
  let surname := trim (or_empty (persons_json.surname p)) in
  let fullName := trim (String.append givenName (String " "%char surname)) in
  let fullName := if decide (fullName = "") then persons_json.person_id p else fullName in
  let genderMap :=
    match persons_json.sex p with
    | Some "M" => <[persons_json.person_id p := M]> state.1
    | Some "F" => <[persons_json.person_id p := F]> state.1
    | _ => state.1
    end in
  let contactInfo := contactsMap !! persons_json.person_id p in
  let address := birthPlace places (persons_json.birth_place_id p) in
  let person :=
    mkPerson (persons_json.person_id p) fullName (Some "") (Some "") (Some [])
      (or_empty (persons_json.birth_date p))
      (or_empty (contactInfo ≫= contacts_json.phone))
      ""
      ([("Death", "")] ++
       match address with Some a => [("Address", a)] | None => [] end ++
       [("email", or_empty (contactInfo ≫= contacts_json.email));
        ("note", or_empty (contactInfo ≫= contacts_json.note))]) in
  (genderMap, JsMap.set state.2 (persons_json.person_id p) person).

(** [if (!obj.pids.includes(x)) obj.pids.push(x)]; every object of
    [newPeopleMap] has its [pids] array (line 1495). *)
Definition add_pid (x : string) (person : Person) : Person :=
  match pids person with
  | Some ps =>
      if decide (x ∈ ps) then person
      else mkPerson (id person) (name person) (fid person) (mid person) (Some (ps ++ [x]))
             (Birth person) (phone person) (image_url person) (other person)
  | None => person
  end.

(** Lines 1524-1525 on the child object. *)
Definition set_parents (husbandId wifeId : option string) (child : Person) : Person :=
  let fid' := match js_ref husbandId with Some _ => husbandId | None => fid child end in
  let mid' := match js_ref wifeId with Some _ => wifeId | None => mid child end in
  mkPerson (id child) (name child) fid' mid' (pids child)
    (Birth child) (phone child) (image_url child) (other child).

(** Body of the loop over [families] (lines 1507-1529). *)
Definition link_family (newPeopleMap : list (string * Person)) (family : families_json.row)
    : list (string * Person) :=
  let husbandId := families_json.husband_id family in
  let wifeId := families_json.wife_id family in
  let linked :=
    match js_ref husbandId, js_ref wifeId with
    | Some h, Some w =>
        if JsMap.has newPeopleMap h && JsMap.has newPeopleMap w
        then JsMap.update (JsMap.update newPeopleMap h (add_pid w)) w (add_pid h)
        else newPeopleMap
    | _, _ => newPeopleMap
    end in
  match families_json.children family with
  | Some children =>
      foldl (λ m childId,
               if JsMap.has m childId
               then JsMap.update m childId (set_parents husbandId wifeId)
               else m)
            linked children
  | None => linked
  end.

(** The loop body at one key: the object that [link_family] leaves
    under [k] where the map with the keys [keys] held [person]. *)
Definition link_family_at (keys : list string) (family : families_json.row)
    (k : string) (person : Person) : Person :=
  let husbandId := families_json.husband_id family in
  let wifeId := families_json.wife_id family in
  let linked :=
    match js_ref husbandId, js_ref wifeId with
    | Some h, Some w =>
        if bool_decide (h ∈ keys) && bool_decide (w ∈ keys)
        then
          let person' := if decide (k = h) then add_pid w person else person in
          if decide (k = w) then add_pid h person' else person'
        else person
    | _, _ => person
    end in
  match families_json.children family with
  | Some children =>
      if decide (k ∈ children) then set_parents husbandId wifeId linked else linked
  | None => linked
  end.

(** [loadNewDatabase]: the [genderMap] it leaves and the array it
    returns. *)
Definition loadNewDatabase (persons : list persons_json.row)
    (families : list families_json.row) (places : gmap string (option string))
    (contacts : list contacts_json.row) (genderMap : gmap string Gender)
    : gmap string Gender * list Person :=
  let contactsMap :=
    foldl (λ cm contact, <[contacts_json.person_id contact := contact]> cm) ∅ contacts in
  let created := foldl (add_person contactsMap places) (genderMap, []) persons in
  let newPeopleMap := foldl link_family created.2 families in
  (created.1, JsMap.values newPeopleMap).

(** Two couples and their children: a and b are the parents of c, c and
    d the parents of e; the person z of the second family is not in
    [persons]. *)
Definition sample_persons : list persons_json.row :=
  [ persons_json.mkRow "a" (Some "Anand ") (Some "Rao") (Some "M") (Some "10-MAY-50") None;
    persons_json.mkRow "b" (Some "Bala") None (Some "F") None (Some "p1");
    persons_json.mkRow "c" None None None None None;
    persons_json.mkRow "d" (Some "Devi") (Some "Rao") (Some "x") None None;
    persons_json.mkRow "e" (Some "Esha") (Some "Rao") None None None ].

Definition sample_families : list families_json.row :=
  [ families_json.mkRow (Some "a") (Some "b") (Some ["c"; "z"]);
    families_json.mkRow (Some "c") (Some "d") (Some ["e"]);
    families_json.mkRow (Some "a") (Some "b") None ].

(** * Theorems *)

(** ** Gender inference keeps what is already known *)
Section GenderInference.

Variables (k : string) (g : Gender).
Implicit Types (gm : gmap string Gender) (pm : gmap string Person).

Lemma infer_from_parents_keeps gm person :
  gm !! k = Some g → infer_from_parents gm person !! k = Some g.
Proof.
  intros Hk. unfold infer_from_parents.
  assert (Hstep : ∀ (gm' : gmap string Gender) x v, gm' !! k = Some g →
            (if decide (is_Some (gm' !! x)) then gm' else <[x := v]> gm') !! k = Some g).
  { intros gm' x v Hg. case_decide as Hx; [done|].
    rewrite lookup_insert_ne; [done|]. intros ->. apply Hx. eauto. }
  destruct (js_ref (fid person)), (js_ref (mid person)); auto.
Qed.

Lemma infer_from_partner_keeps pm p1 gm p2 :
  gm !! k = Some g → infer_from_partner pm p1 gm p2 !! k = Some g.
Proof.
  intros Hk. unfold infer_from_partner.
  case_decide; [|done].
  destruct (gm !! p1) as [g1|] eqn:H1, (gm !! p2) as [g2|] eqn:H2; try done.
  - rewrite lookup_insert_ne; [done|]. congruence.
  - rewrite lookup_insert_ne; [done|]. congruence.
Qed.

Lemma foldl_keeps {A} (f : gmap string Gender → A → gmap string Gender) (l : list A) gm :
  (∀ gm' a, gm' !! k = Some g → f gm' a !! k = Some g) →
  gm !! k = Some g → foldl f gm l !! k = Some g.
Proof.
  intros Hf. revert gm. induction l as [|a l IH]; intros gm Hk; simpl; [done|].
  apply IH. by apply Hf.
Qed.

Lemma parenthood_phase_keeps people gm :
  gm !! k = Some g → parenthood_phase people gm !! k = Some g.
Proof. apply foldl_keeps. intros; by apply infer_from_parents_keeps. Qed.

Lemma partner_pass_keeps pm people gm :
  gm !! k = Some g → partner_pass pm people gm !! k = Some g.
Proof.
  unfold partner_pass. apply foldl_keeps. intros gm' person Hk.
  destruct (pids person) as [[|p ps]|]; try done.
  apply (foldl_keeps (infer_from_partner pm (id person)) (p :: ps)); [|done].
  intros; by apply infer_from_partner_keeps.
Qed.

Lemma partner_passes_keeps count i pm people gm :
  gm !! k = Some g → (partner_passes count i pm people gm).1 !! k = Some g.
Proof.
  revert i gm. induction count as [|count IH]; intros i gm Hk; simpl; [done|].
  apply IH. by apply partner_pass_keeps.
Qed.

End GenderInference.

(** C5. An id that has a gender before inference has the same gender
    after the parenthood pass, after the five partnership passes run on
    any gender map that holds it, and in the store that [buildLookups]
    leaves; [getGender] returns it. *)
Theorem explicit_gender_preserved (s : Store) (k : string) (g : Gender) :
  genderMap s !! k = Some g →
  parenthood_phase (PEOPLE s) (genderMap s) !! k = Some g
  ∧ (∀ pm people gm, gm !! k = Some g → partnership_phase pm people gm !! k = Some g)
  ∧ genderMap (buildLookups s) !! k = Some g
  ∧ getGender (buildLookups s) k = g.
Proof.
  intros Hk.
  assert (H1 := parenthood_phase_keeps k g (PEOPLE s) _ Hk).
  assert (H2 : ∀ pm people gm, gm !! k = Some g → partnership_phase pm people gm !! k = Some g).
  { intros. by apply partner_passes_keeps. }
  assert (H3 : genderMap (buildLookups s) !! k = Some g).
  { simpl. by apply H2. }
  repeat split; try done.
  unfold getGender. by rewrite H3.
Qed.

Lemma explicit_gender_preserved_witness :
  genderMap (Build couple {[ "A" := M; "B" := M ]}) !! "B" = Some M.
Proof.
  apply (explicit_gender_preserved (loaded couple {[ "A" := M; "B" := M ]}) "B" M).
  vm_compute. reflexivity.
Defined.

(** ** The children index *)
Section ChildrenIndex.

Implicit Types (cm : gmap string (list string)).

Lemma addChild_lookup parentKey childId cm p :
  addChild parentKey childId cm !! p =
    if decide (parentKey = p) then Some (default [] (cm !! p) ++ [childId])
    else cm !! p.
Proof.
  unfold addChild. destruct (decide (parentKey = p)) as [->|Hp].
  - rewrite lookup_alter_eq. case_decide as Hs.
    + destruct Hs as [l Hl]. by rewrite Hl.
    + rewrite lookup_insert_eq. apply eq_None_not_Some in Hs. by rewrite Hs.
  - rewrite lookup_alter_ne; [|done]. case_decide; [done|].
    by rewrite lookup_insert_ne.
Qed.

Lemma index_person_children maps person p :
  (index_person maps person).2 !! p =
    match pushes_under p person with
    | [] => maps.2 !! p
    | l => Some (default [] (maps.2 !! p) ++ l)
    end.
Proof.
  unfold index_person, pushes_under. simpl.
  destruct (js_ref (fid person)) as [f|], (js_ref (mid person)) as [m|]; simpl;
    rewrite ?addChild_lookup; repeat case_decide; simplify_eq; simpl;
    rewrite <- ?app_assoc; done.
Qed.

Lemma index_people_children people maps p :
  (foldl index_person maps people).2 !! p =
    match appended_children p people with
    | [] => maps.2 !! p
    | l => Some (default [] (maps.2 !! p) ++ l)
    end.
Proof.
  revert maps. induction people as [|person people IH]; intros maps; [done|].
  simpl foldl. rewrite IH, index_person_children.
  change (appended_children p (person :: people))
    with (pushes_under p person ++ appended_children p people).
  destruct (pushes_under p person) as [|x xs]; simpl; [done|].
  destruct (appended_children p people) as [|y ys]; simpl.
  - by rewrite app_nil_r.
  - by rewrite <- app_assoc.
Qed.

Lemma Build_children people explicit p :
  childrenMap (Build people explicit) !! p =
    match appended_children p people with
    | [] => None
    | l => Some (js_sort l)
    end.
Proof.
  unfold Build, buildLookups. simpl. rewrite lookup_fmap, index_people_children.
  simpl. rewrite lookup_empty. by destruct (appended_children p people).
Qed.

Lemma pushes_under_elem p person x : x ∈ pushes_under p person → x = id person.
Proof. unfold pushes_under. repeat case_decide; set_solver. Qed.

Lemma appended_children_NoDup p people :
  NoDup (id <$> people) →
  (∀ person, person ∈ people → js_ref (fid person) = Some p → js_ref (mid person) ≠ Some p) →
  NoDup (appended_children p people).
Proof.
  induction people as [|person people IH]; intros Hids Hpar; [constructor|].
  rewrite fmap_cons in Hids. apply NoDup_cons in Hids as [Hnew Hids].
  change (appended_children p (person :: people))
    with (pushes_under p person ++ appended_children p people).
  apply NoDup_app. split_and!.
  - specialize (Hpar person (list_elem_of_here _ _)).
    unfold pushes_under.
    repeat case_decide; simpl; try apply NoDup_nil_2; try apply NoDup_singleton; try done.
    by destruct Hpar.
  - intros x Hx Hx'. apply pushes_under_elem in Hx as ->. apply Hnew.
    unfold appended_children in Hx'.
    apply list_elem_of_bind in Hx' as (q & Hx' & Hq).
    apply pushes_under_elem in Hx'. apply list_elem_of_fmap. by exists q.
  - apply IH; [done|]. intros q Hq. apply Hpar. by apply list_elem_of_further.
Qed.

End ChildrenIndex.

(** C3, as stated: a record that names one id as father and as mother
    leaves its own id twice in the list of that parent. *)
Lemma children_sorted_nodup_counterexample :
  ¬ (∀ people explicit p l,
       childrenMap (Build people explicit) !! p = Some l →
       Sorted String.le l ∧ NoDup l).
Proof.
  intros H.
  destruct (H same_parent_twice ∅ "P" ["C"; "C"]) as [_ Hnd].
  - vm_compute. reflexivity.
  - apply NoDup_cons in Hnd as [Hin _]. apply Hin. left.
Qed.

(** C3 (amended). In a store built from any record sequence every list
    of [childrenMap] is sorted ascending by code units and is a
    permutation of the ids appended for that parent; it has no duplicate
    when the records have pairwise distinct ids and none names the parent
    as both father and mother. *)
Theorem children_sorted (people : list Person) (explicit : gmap string Gender)
    (p : string) (l : list string) :
  childrenMap (Build people explicit) !! p = Some l →
  StronglySorted String.le l
  ∧ l ≡ₚ appended_children p people
  ∧ (NoDup (id <$> people) →
     (∀ person, person ∈ people →
        js_ref (fid person) = Some p → js_ref (mid person) ≠ Some p) →
     NoDup l).
Proof.
  rewrite Build_children. intros Hl.
  assert (l = js_sort (appended_children p people)) as ->.
  { destruct (appended_children p people); [done|]. by inversion Hl. }
  split_and!.
  - apply StronglySorted_merge_sort; apply _.
  - apply merge_sort_Permutation.
  - intros Hids Hpar. unfold js_sort. rewrite merge_sort_Permutation.
    by apply appended_children_NoDup.
Qed.

Lemma children_sorted_witness :
  StronglySorted String.le ["A"; "C"].
Proof.
  apply (children_sorted
    [ person "C" (Some "P") None []; person "A" (Some "P") (Some "Q") [] ]
    ∅ "P" ["A"; "C"]).
  vm_compute. reflexivity.
Defined.

(** ** The reference walk: termination *)
Section BfsTermination.

Context {A : Type}.
Variables (succ : string → list string) (ext : A → string → A).
Variable target : option string.

Lemma bfs_fuel_mono fuel fuel' queue visited r :
  bfs succ ext target fuel queue visited = Some r → fuel ≤ fuel' →
  bfs succ ext target fuel' queue visited = Some r.
Proof.
  revert fuel' queue visited.
  induction fuel as [|fuel IH]; intros fuel' queue visited Hr Hle; [done|].
  destruct fuel' as [|fuel']; [lia|]. simpl in *.
  destruct queue as [|current queue]; [done|].
  repeat case_decide; try done; apply IH; try done; lia.
Qed.

Lemma pending_visit U visited v :
  NoDup U → v ∉ visited →
  pending succ U (visited ++ [v]) + (if decide (v ∈ U) then length (succ v) else 0)
    = pending succ U visited.
Proof.
  intros HU Hv. unfold pending.
  induction U as [|u U IH]; simpl.
  { destruct (decide (v ∈ [])) as [Hin|]; [|done]. by apply not_elem_of_nil in Hin. }
  apply NoDup_cons in HU as [Hu HU]. specialize (IH HU).
  destruct (decide (u = v)) as [->|Hne].
  - rewrite (decide_True (P := v ∈ visited ++ [v])) by set_solver.
    rewrite (decide_False (P := v ∈ visited)) by done.
    rewrite (decide_True (P := v ∈ v :: U)) by set_solver.
    rewrite (decide_False (P := v ∈ U)) in IH by done. lia.
  - assert (Hiff : u ∈ visited ++ [v] ↔ u ∈ visited) by set_solver.
    assert (Hiff' : v ∈ u :: U ↔ v ∈ U) by set_solver.
    destruct (decide (u ∈ visited ++ [v])), (decide (u ∈ visited)),
      (decide (v ∈ u :: U)), (decide (v ∈ U)); try tauto; lia.
Qed.

(** The walk ends within [length queue + pending + 1] iterations when
    only the members of [U] have successors. *)
Lemma bfs_terminates U fuel queue visited :
  NoDup U → (∀ v, v ∉ U → succ v = []) →
  length queue + pending succ U visited.*1 < fuel →
  is_Some (bfs succ ext target fuel queue visited).
Proof.
  intros HU Hsupp. revert queue visited.
  induction fuel as [|fuel IH]; intros queue visited Hlt; [lia|].
  simpl. destruct queue as [|[v a] queue]; [by eexists|]. simpl in *.
  case_decide as Hvis; [apply IH; lia|].
  case_decide; [by eexists|].
  apply IH. rewrite length_app, length_fmap, fmap_app. simpl.
  pose proof (pending_visit U (visited.*1) v HU Hvis) as Hp.
  case_decide as HvU; [lia|]. rewrite (Hsupp v HvU). simpl. lia.
Qed.

End BfsTermination.

(** ** The reference walk: visited entries carry shortest distances *)
Section BfsCorrect.

Context {A : Type}.
Variables (succ : string → list string) (ext : A → string → A).
Variable target : option string.
Variable good : A → Prop.
Variable m : A → nat.
Hypothesis good_ext : ∀ a w, good a → good (ext a w).
Hypothesis m_ext : ∀ a w, good a → m (ext a w) = S (m a).
Variable x : string.

Local Abbreviation inv := (bfs_inv succ target good m x).
Local Abbreviation step := (edge succ).

Lemma bfs_inv_init a0 : good a0 → m a0 = 0 → inv [(x, a0)] [].
Proof.
  intros Hg H0. split; simpl.
  - intros v a Hin. apply list_elem_of_singleton in Hin. by simplify_eq.
  - intros v a Hin. apply list_elem_of_singleton in Hin. simplify_eq.
    rewrite H0. constructor.
  - repeat constructor.
  - intros a b ->%list_elem_of_singleton ->%list_elem_of_singleton. lia.
  - intros a b Hin. by apply not_elem_of_nil in Hin.
  - intros v a w Hin. by apply not_elem_of_nil in Hin.
  - intros w n Hp. right. exists x, a0, n. split_and!; try done.
    + apply list_elem_of_here.
    + apply not_elem_of_nil.
    + lia.
  - intros v a n Hin. by apply not_elem_of_nil in Hin.
  - constructor.
  - intros t _. apply not_elem_of_nil.
Qed.

(** A path that starts inside a set and ends outside leaves it along
    some edge; the rest of the path is shorter. *)
Lemma path_crosses (P : string → Prop) `{∀ v, Decision (P v)} i v w :
  nsteps step i v w → P v → ¬ P w →
  ∃ p q j, P p ∧ ¬ P q ∧ step p q ∧ nsteps step j q w ∧ j < i.
Proof.
  induction 1 as [|n v y w Hvy Hyw IH]; intros Hv Hw; [done|].
  destruct (decide (P y)) as [Hy|Hy].
  - destruct (IH Hy Hw) as (p & q & j & ? & ? & ? & ? & ?).
    exists p, q, j. split_and!; try done. lia.
  - exists v, y, n. split_and!; try done. lia.
Qed.

Lemma head_least v a queue visited b :
  inv ((v, a) :: queue) visited → b ∈ (v, a) :: queue → m a ≤ m b.2.
Proof.
  intros Hinv Hb. pose proof (inv_sorted _ _ _ _ _ _ _ Hinv) as Hs.
  apply StronglySorted_inv in Hs as [_ Hall].
  apply elem_of_cons in Hb as [->|Hb]; [done|].
  rewrite Forall_forall in Hall. by apply (Hall b).
Qed.

(** The entry at the head of the queue, when it is not visited yet,
    carries the length of a shortest path. *)
Lemma head_shortest v a queue visited :
  inv ((v, a) :: queue) visited → v ∉ visited.*1 →
  nsteps step (m a) x v ∧ ∀ n, nsteps step n x v → m a ≤ n.
Proof.
  intros Hinv Hv. split.
  - apply (inv_path _ _ _ _ _ _ _ Hinv). apply list_elem_of_here.
  - intros n Hn.
    destruct (inv_front _ _ _ _ _ _ _ Hinv v n Hn) as [?|(u & b & i & Hub & _ & _ & Hle)];
      [done|].
    pose proof (head_least _ _ _ _ _ Hinv Hub). simpl in *. lia.
Qed.

Lemma bfs_inv_skip v a queue visited :
  inv ((v, a) :: queue) visited → v ∈ visited.*1 → inv queue visited.
Proof.
  intros Hinv Hv. split.
  - intros w b Hin. apply (inv_good _ _ _ _ _ _ _ Hinv w).
    rewrite <- app_comm_cons. by apply list_elem_of_further.
  - intros w b Hin. apply (inv_path _ _ _ _ _ _ _ Hinv).
    rewrite <- app_comm_cons. by apply list_elem_of_further.
  - pose proof (inv_sorted _ _ _ _ _ _ _ Hinv) as Hs.
    by apply StronglySorted_inv in Hs as [? _].
  - intros b c Hb Hc. apply (inv_span _ _ _ _ _ _ _ Hinv); by apply list_elem_of_further.
  - intros b c Hb Hc. apply (inv_vis_le _ _ _ _ _ _ _ Hinv); [done|].
    by apply list_elem_of_further.
  - intros w b w' Hin Hw'.
    destruct (inv_succ _ _ _ _ _ _ _ Hinv w b w' Hin Hw') as [?|(c & Hc & Hm)]; [by left|].
    apply elem_of_cons in Hc as [Hc|Hc]; [left; by simplify_eq|].
    right. by exists c.
  - intros w n Hn.
    destruct (inv_front _ _ _ _ _ _ _ Hinv w n Hn) as [?|(u & b & i & Hub & Hu & Hp & Hle)];
      [by left|].
    apply elem_of_cons in Hub as [Hub|Hub]; [by simplify_eq|].
    right. by exists u, b, i.
  - apply (inv_min _ _ _ _ _ _ _ Hinv).
  - apply (inv_nodup _ _ _ _ _ _ _ Hinv).
  - apply (inv_target _ _ _ _ _ _ _ Hinv).
Qed.

Lemma bfs_inv_visit v a queue visited :
  inv ((v, a) :: queue) visited → v ∉ visited.*1 → target ≠ Some v →
  inv (queue ++ ((λ w, (w, ext a w)) <$> succ v)) (visited ++ [(v, a)]).
Proof.
  intros Hinv Hv Ht.
  destruct (head_shortest _ _ _ _ Hinv Hv) as [Hpath Hmin].
  assert (Hga : good a).
  { apply (inv_good _ _ _ _ _ _ _ Hinv v). rewrite <- app_comm_cons. apply list_elem_of_here. }
  assert (Hnew : ∀ c, c ∈ (λ w, (w, ext a w)) <$> succ v →
                      c.1 ∈ succ v ∧ m c.2 = S (m a)).
  { intros c (w & -> & Hw)%list_elem_of_fmap. simpl. by rewrite m_ext. }
  assert (Hrest : ∀ c, c ∈ queue → m a ≤ m c.2 ∧ m c.2 ≤ S (m a)).
  { intros c Hc. split.
    - apply (head_least _ _ _ _ c Hinv). by apply list_elem_of_further.
    - apply (inv_span _ _ _ _ _ _ _ Hinv (v, a) c);
        [apply list_elem_of_here|by apply list_elem_of_further]. }
  assert (Hsucc : ∀ w b w', (w, b) ∈ visited ++ [(v, a)] → w' ∈ succ w →
            w' ∈ (visited ++ [(v, a)]).*1 ∨
            ∃ c, (w', c) ∈ queue ++ ((λ w, (w, ext a w)) <$> succ v) ∧ m c = S (m b)).
  { intros w b w' Hin Hw'. rewrite fmap_app. simpl.
    apply elem_of_app in Hin as [Hin|Hin].
    - destruct (inv_succ _ _ _ _ _ _ _ Hinv w b w' Hin Hw') as [?|(c & Hc & Hm)].
      + left. apply elem_of_app. by left.
      + apply elem_of_cons in Hc as [Hc|Hc].
        * left. simplify_eq. apply elem_of_app. right. apply list_elem_of_here.
        * right. exists c. split; [|done]. apply elem_of_app. by left.
    - apply list_elem_of_singleton in Hin. simplify_eq.
      right. exists (ext a w'). split; [|by apply m_ext].
      apply elem_of_app. right. apply list_elem_of_fmap. by exists w'. }
  split.
  - intros w b Hin.
    rewrite <- app_assoc in Hin. apply elem_of_app in Hin as [Hin|Hin].
    { apply (inv_good _ _ _ _ _ _ _ Hinv w). rewrite <- app_comm_cons.
      apply list_elem_of_further, elem_of_app. by left. }
    apply elem_of_app in Hin as [Hin|Hin].
    { apply list_elem_of_fmap in Hin as (w' & ? & _). simplify_eq. by apply good_ext. }
    apply elem_of_app in Hin as [Hin|Hin].
    { apply (inv_good _ _ _ _ _ _ _ Hinv w). rewrite <- app_comm_cons.
      apply list_elem_of_further, elem_of_app. by right. }
    apply list_elem_of_singleton in Hin. by simplify_eq.
  - intros w b Hin.
    rewrite <- app_assoc in Hin. apply elem_of_app in Hin as [Hin|Hin].
    { apply (inv_path _ _ _ _ _ _ _ Hinv). rewrite <- app_comm_cons.
      apply list_elem_of_further, elem_of_app. by left. }
    apply elem_of_app in Hin as [Hin|Hin].
    { destruct (Hnew _ Hin) as [Hw Hm]. simpl in *. rewrite Hm.
      by apply nsteps_r with v. }
    apply elem_of_app in Hin as [Hin|Hin].
    { apply (inv_path _ _ _ _ _ _ _ Hinv). rewrite <- app_comm_cons.
      apply list_elem_of_further, elem_of_app. by right. }
    apply list_elem_of_singleton in Hin. by simplify_eq.
  - apply StronglySorted_app. split_and!.
    + intros c1 c2 Hc1 Hc2. destruct (Hrest _ Hc1), (Hnew _ Hc2). lia.
    + pose proof (inv_sorted _ _ _ _ _ _ _ Hinv) as Hs.
      by apply StronglySorted_inv in Hs as [? _].
    + generalize (succ v). intros l.
      induction l as [|w l IHl]; simpl; constructor; [done|].
      apply Forall_forall. intros c (w' & -> & _)%list_elem_of_fmap. simpl.
      rewrite !m_ext by done. lia.
  - intros b c Hb Hc.
    apply elem_of_app in Hb as [Hb|Hb]; apply elem_of_app in Hc as [Hc|Hc].
    + destruct (Hrest _ Hb), (Hrest _ Hc). lia.
    + destruct (Hrest _ Hb), (Hnew _ Hc). lia.
    + destruct (Hnew _ Hb), (Hrest _ Hc). lia.
    + destruct (Hnew _ Hb), (Hnew _ Hc). lia.
  - intros b c Hb Hc.
    assert (m a ≤ m c.2).
    { apply elem_of_app in Hc as [Hc|Hc];
        [destruct (Hrest _ Hc)|destruct (Hnew _ Hc)]; lia. }
    apply elem_of_app in Hb as [Hb|Hb].
    + pose proof (inv_vis_le _ _ _ _ _ _ _ Hinv b (v, a) Hb (list_elem_of_here _ _)).
      simpl in *. lia.
    + apply list_elem_of_singleton in Hb. by subst b.
  - exact Hsucc.
  - intros w n Hn.
    destruct (decide (w ∈ (visited ++ [(v, a)]).*1)) as [Hw|Hw]; [by left|]. right.
    destruct (inv_front _ _ _ _ _ _ _ Hinv w n Hn) as [Hw'|(u & b & i & Hub & Hu & Hp & Hle)].
    { destruct Hw. rewrite fmap_app. apply elem_of_app. by left. }
    destruct (decide (u = v)) as [->|Hne].
    + destruct (path_crosses (λ z, z ∈ (visited ++ [(v, a)]).*1) i v w Hp)
        as (p & q & j & Hp' & Hq & Hpq & Hqw & Hj); [|done|].
      { rewrite fmap_app. apply elem_of_app. right. apply list_elem_of_here. }
      apply list_elem_of_fmap in Hp' as ([p' ap] & -> & Hpin). simpl in *.
      destruct (Hsucc p' ap q Hpin Hpq) as [?|(c & Hc & Hm)]; [done|].
      exists q, c, j. split_and!; try done.
      assert (m ap ≤ m a).
      { apply elem_of_app in Hpin as [Hpin|Hpin].
        - apply (inv_vis_le _ _ _ _ _ _ _ Hinv (p', ap) (v, a) Hpin (list_elem_of_here _ _)).
        - apply list_elem_of_singleton in Hpin. by simplify_eq. }
      pose proof (head_least _ _ _ _ _ Hinv Hub). simpl in *. lia.
    + exists u, b, i. split_and!; try done.
      * apply elem_of_cons in Hub as [Hub|Hub]; [by simplify_eq|].
        apply elem_of_app. by left.
      * rewrite fmap_app. intros [?|Hin%list_elem_of_singleton]%elem_of_app; [done|].
        by simpl in Hin.
  - intros w b n Hin Hn. apply elem_of_app in Hin as [Hin|Hin].
    + by apply (inv_min _ _ _ _ _ _ _ Hinv w b n).
    + apply list_elem_of_singleton in Hin. simplify_eq. by apply Hmin.
  - rewrite fmap_app. apply NoDup_app. split_and!.
    + apply (inv_nodup _ _ _ _ _ _ _ Hinv).
    + intros w Hw Hw'. apply list_elem_of_singleton in Hw'. by simplify_eq.
    + apply NoDup_singleton.
  - intros t Heq. rewrite fmap_app.
    intros [?|Hin%list_elem_of_singleton]%elem_of_app.
    + by apply (inv_target _ _ _ _ _ _ _ Hinv t).
    + simpl in Hin. by subst.
Qed.

(** What a finished walk has established. *)
Theorem bfs_result fuel queue visited r visited' :
  inv queue visited →
  bfs succ ext target fuel queue visited = Some (r, visited') →
  NoDup visited'.*1
  ∧ (∃ more, visited' = visited ++ more)
  ∧ (∀ v a, (v, a) ∈ visited' →
       good a ∧ nsteps step (m a) x v ∧ ∀ n, nsteps step n x v → m a ≤ n)
  ∧ match r with
    | Some a => ∃ t, target = Some t ∧ (t, a) ∈ visited'
    | None => (∀ w n, nsteps step n x w → w ∈ visited'.*1)
              ∧ (∀ t, target = Some t → t ∉ visited'.*1)
              ∧ (∀ v a w, (v, a) ∈ visited' → w ∈ succ v → w ∈ visited'.*1)
    end.
Proof.
  revert queue visited.
  induction fuel as [|fuel IH]; intros queue visited Hinv Hrun; [done|].
  simpl in Hrun. destruct queue as [|[v a] queue].
  - simplify_eq. split_and!.
    + apply (inv_nodup _ _ _ _ _ _ _ Hinv).
    + exists []. by rewrite app_nil_r.
    + intros v a Hin. split_and!.
      * apply (inv_good _ _ _ _ _ _ _ Hinv v). by rewrite app_nil_l.
      * apply (inv_path _ _ _ _ _ _ _ Hinv). by rewrite app_nil_l.
      * intros n. by apply (inv_min _ _ _ _ _ _ _ Hinv).
    + intros w n Hn.
      destruct (inv_front _ _ _ _ _ _ _ Hinv w n Hn) as [?|(u & b & i & Hub & _)]; [done|].
      by apply not_elem_of_nil in Hub.
    + apply (inv_target _ _ _ _ _ _ _ Hinv).
    + intros v a w Hin Hw.
      destruct (inv_succ _ _ _ _ _ _ _ Hinv v a w Hin Hw) as [?|(b & Hb & _)]; [done|].
      by apply not_elem_of_nil in Hb.
  - simpl in Hrun. case_decide as Hv.
    { apply (IH _ _ (bfs_inv_skip _ _ _ _ Hinv Hv) Hrun). }
    destruct (head_shortest _ _ _ _ Hinv Hv) as [Hpath Hmin].
    case_decide as Ht.
    + simplify_eq. split_and!.
      * rewrite fmap_app. apply NoDup_app. split_and!.
        -- apply (inv_nodup _ _ _ _ _ _ _ Hinv).
        -- intros w Hw Hw'. apply list_elem_of_singleton in Hw'. by simplify_eq.
        -- apply NoDup_singleton.
      * by eexists.
      * intros w b Hin. apply elem_of_app in Hin as [Hin|Hin].
        -- split_and!.
           ++ apply (inv_good _ _ _ _ _ _ _ Hinv w). rewrite <- app_comm_cons.
              apply list_elem_of_further, elem_of_app. by right.
           ++ apply (inv_path _ _ _ _ _ _ _ Hinv). rewrite <- app_comm_cons.
              apply list_elem_of_further, elem_of_app. by right.
           ++ intros n. by apply (inv_min _ _ _ _ _ _ _ Hinv).
        -- apply list_elem_of_singleton in Hin. simplify_eq. split; [|done].
           apply (inv_good _ _ _ _ _ _ _ Hinv v). rewrite <- app_comm_cons.
           apply list_elem_of_here.
      * exists v. split; [done|]. apply elem_of_app. right. apply list_elem_of_here.
    + destruct (IH _ _ (bfs_inv_visit _ _ _ _ Hinv Hv Ht) Hrun)
        as (Hnd & [more ->] & Hall & Hr).
      split; [done|]. split; [|by split].
      exists ((v, a) :: more). by rewrite <- app_assoc.
Qed.

End BfsCorrect.

(** ** Plain objects *)
Section JsObjectFacts.

Implicit Types (o : list (string * nat)) (k : string).

Lemma own_Some_elem o k d : JsObject.own o k = Some d → (k, d) ∈ o.
Proof.
  unfold JsObject.own. destruct (list_find _ o) as [[i [k' d']]|] eqn:Hf; [|done].
  intros [= ->]. apply list_find_Some in Hf as (Hi & Hk & _). simpl in Hk. subst k'.
  by apply list_elem_of_lookup_2 in Hi.
Qed.

Lemma own_None o k : JsObject.own o k = None ↔ k ∉ o.*1.
Proof.
  unfold JsObject.own. destruct (list_find _ o) as [[i [k' d']]|] eqn:Hf.
  - apply list_find_Some in Hf as (Hi & Hk & _). simpl in Hk. subst k'.
    split; [done|]. intros Hn. destruct Hn.
    apply list_elem_of_fmap. exists (k, d'). split; [done|].
    by apply list_elem_of_lookup_2 in Hi.
  - split; [|done]. intros _ Hin.
    apply list_elem_of_fmap in Hin as ([k' d'] & -> & Hin).
    rewrite list_find_None, Forall_forall in Hf. by apply (Hf _ Hin).
Qed.

Lemma own_is_Some o k : is_Some (JsObject.own o k) ↔ k ∈ o.*1.
Proof.
  rewrite <- not_eq_None_Some, own_None. split; [|tauto].
  intros Hnn. by destruct (decide (k ∈ o.*1)).
Qed.

Lemma NoDup_fst_unique {B} (l : list (string * B)) k (d d' : B) :
  NoDup l.*1 → (k, d) ∈ l → (k, d') ∈ l → d = d'.
Proof.
  induction l as [|[k0 d0] l IH]; intros Hnd H1 H2.
  { by apply not_elem_of_nil in H1. }
  rewrite fmap_cons in Hnd. apply NoDup_cons in Hnd as [Hk0 Hnd]. simpl in Hk0.
  apply elem_of_cons in H1 as [H1|H1]; apply elem_of_cons in H2 as [H2|H2].
  - congruence.
  - simplify_eq. destruct Hk0. apply list_elem_of_fmap. by exists (k0, d').
  - simplify_eq. destruct Hk0. apply list_elem_of_fmap. by exists (k0, d).
  - by apply IH.
Qed.

Lemma own_elem_NoDup o k d : NoDup o.*1 → (k, d) ∈ o → JsObject.own o k = Some d.
Proof.
  intros Hnd Hin.
  destruct (JsObject.own o k) as [d'|] eqn:Ho.
  - apply own_Some_elem in Ho. f_equal.
    by apply (NoDup_fst_unique o k d' d).
  - apply own_None in Ho. destruct Ho. apply list_elem_of_fmap. by exists (k, d).
Qed.

Lemma set_fresh o k v :
  k ≠ "__proto__" → k ∉ o.*1 → JsObject.set o k v = o ++ [(k, v)].
Proof.
  intros Hk Hn. unfold JsObject.set. rewrite decide_False by done.
  unfold JsObject.has_own. rewrite bool_decide_eq_false_2; [done|].
  by rewrite own_is_Some.
Qed.

End JsObjectFacts.

(** ** The three walks of the program are the reference walk *)
Section WalkSimulation.

Variable s : Store.

Lemma parents_pushed {A} (p : Person) (queue : list (string * A)) (mk : string → A) :
  match js_ref (mid p) with
  | Some m => match js_ref (fid p) with
              | Some f => queue ++ [(f, mk f)]
              | None => queue
              end ++ [(m, mk m)]
  | None => match js_ref (fid p) with
            | Some f => queue ++ [(f, mk f)]
            | None => queue
            end
  end = queue ++ ((λ w, (w, mk w)) <$>
          ((match js_ref (fid p) with Some f => [f] | None => [] end) ++
           (match js_ref (mid p) with Some m => [m] | None => [] end))).
Proof.
  destruct (js_ref (fid p)), (js_ref (mid p)); simpl;
    rewrite <- ?app_assoc, ?app_nil_r; done.
Qed.

Lemma getAncestorPath_loop_bfs t fuel queue (visited : list (string * list string)) :
  getAncestorPath_loop s t fuel queue visited.*1 =
    (λ r, (r.1, r.2.*1)) <$> bfs (parentsOf s) push_path (Some t) fuel queue visited.
Proof.
  revert queue visited. induction fuel as [|fuel IH]; intros queue visited; [done|].
  simpl. destruct queue as [|[v path] queue]; [done|]. simpl.
  destruct (decide (v ∈ visited.*1)) as [Hv|Hv]; [apply IH|].
  destruct (decide (v = t)) as [->|Hne].
  - rewrite decide_True by done. simpl. by rewrite fmap_app.
  - rewrite decide_False by congruence.
    replace (visited.*1 ++ [v]) with ((visited ++ [(v, path)]).*1) by by rewrite fmap_app.
    unfold parentsOf. destruct (peopleMap s !! v) as [p|].
    + rewrite <- IH. f_equal. apply (parents_pushed p queue (λ w, path ++ [w])).
    + rewrite <- IH. simpl. by rewrite app_nil_r.
Qed.

Lemma getDescendantPath_loop_bfs t fuel queue (visited : list (string * list string)) :
  getDescendantPath_loop s t fuel queue visited.*1 =
    (λ r, (r.1, r.2.*1)) <$> bfs (childrenOf s) push_path (Some t) fuel queue visited.
Proof.
  revert queue visited. induction fuel as [|fuel IH]; intros queue visited; [done|].
  simpl. destruct queue as [|[v path] queue]; [done|]. simpl.
  destruct (decide (v ∈ visited.*1)) as [Hv|Hv]; [apply IH|].
  destruct (decide (v = t)) as [->|Hne].
  - rewrite decide_True by done. simpl. by rewrite fmap_app.
  - rewrite decide_False by congruence.
    replace (visited.*1 ++ [v]) with ((visited ++ [(v, path)]).*1) by by rewrite fmap_app.
    by rewrite <- IH.
Qed.

Lemma recorded_snoc visited v k :
  recorded s (visited ++ [(v, k)]) =
    if decide (is_Some (peopleMap s !! v))
    then JsObject.set (recorded s visited) v k else recorded s visited.
Proof. unfold recorded. by rewrite foldl_app. Qed.

Lemma getAncestors_loop_bfs fuel queue (visited : list (string * nat)) :
  getAncestors_loop s fuel queue visited.*1 (recorded s visited) =
    (λ r, (recorded s r.2, r.2.*1)) <$> bfs (parentsOf s) push_depth None fuel queue visited.
Proof.
  revert queue visited. induction fuel as [|fuel IH]; intros queue visited; [done|].
  simpl. destruct queue as [|[v k] queue]; [done|]. simpl.
  destruct (decide (v ∈ visited.*1)) as [Hv|Hv]; [apply IH|].
  replace (visited.*1 ++ [v]) with ((visited ++ [(v, k)]).*1) by by rewrite fmap_app.
  rewrite <- IH, recorded_snoc. unfold parentsOf.
  destruct (peopleMap s !! v) as [p|] eqn:Hp.
  + rewrite decide_True by eauto. f_equal.
    apply (parents_pushed p queue (λ w, k + 1)).
  + rewrite decide_False by (by intros [? ?]). simpl. by rewrite app_nil_r.
Qed.

(** Keys are written once, so the object lists the visited members of
    [peopleMap] in the order of their visit. *)
Lemma recorded_filter (visited : list (string * nat)) :
  NoDup visited.*1 →
  recorded s visited =
    filter (λ e, is_Some (peopleMap s !! e.1) ∧ e.1 ≠ "__proto__") visited.
Proof.
  induction visited as [|[v k] visited IH] using rev_ind; intros Hnd; [done|].
  rewrite fmap_app in Hnd. apply NoDup_app in Hnd as (Hnd & Hfresh & _).
  rewrite recorded_snoc, filter_app, IH by done. simpl.
  rewrite filter_cons, filter_nil. simpl.
  destruct (decide (is_Some (peopleMap s !! v))) as [Hin|Hout].
  - destruct (decide (v = "__proto__")) as [->|Hproto].
    + rewrite decide_False by tauto. rewrite app_nil_r.
      unfold JsObject.set. by rewrite decide_True.
    + rewrite decide_True by done. apply set_fresh; [done|].
      intros Hv. apply list_elem_of_fmap in Hv as ([v' k'] & -> & Hv).
      apply list_elem_of_filter in Hv as [_ Hv].
      apply (Hfresh v'); [|apply list_elem_of_here].
      apply list_elem_of_fmap. by exists (v', k').
  - rewrite decide_False by tauto. by rewrite app_nil_r.
Qed.

End WalkSimulation.

(** ** The walks end and compute shortest distances *)
Section WalkSpecs.

Variable s : Store.

Local Abbreviation up := (edge (parentsOf s)).
Local Abbreviation down := (edge (childrenOf s)).

Lemma parentsOf_length v : length (parentsOf s v) ≤ 2.
Proof.
  unfold parentsOf. destruct (peopleMap s !! v) as [p|]; simpl; [|lia].
  destruct (js_ref (fid p)), (js_ref (mid p)); simpl; lia.
Qed.

Lemma parentsOf_nonempty v w : w ∈ parentsOf s v → w ≠ "".
Proof.
  unfold parentsOf. destruct (peopleMap s !! v) as [p|]; [|by intros ?%not_elem_of_nil].
  assert (Href : ∀ o r, js_ref o = Some r → r ≠ "").
  { intros [r'|] r; simpl; [|done]. case_decide; [done|]. congruence. }
  destruct (js_ref (fid p)) as [f|] eqn:Hf, (js_ref (mid p)) as [m|] eqn:Hm; simpl;
    rewrite ?elem_of_cons; intros Hin; destruct_or?; subst; eauto;
    by apply not_elem_of_nil in Hin.
Qed.

Lemma up_nonempty n x v : nsteps up n x v → x ≠ "" → v ≠ "".
Proof.
  induction 1 as [|n x y z Hxy _ IH]; [done|]. intros _.
  apply IH. by apply parentsOf_nonempty in Hxy.
Qed.

Lemma parents_pending U visited : pending (parentsOf s) U visited ≤ 2 * length U.
Proof.
  unfold pending. induction U as [|u U IH]; simpl; [lia|].
  pose proof (parentsOf_length u). case_decide; lia.
Qed.

Lemma parents_walk_ends {A} (ext : A → string → A) target fuel x a :
  ancestors_fuel s ≤ fuel →
  is_Some (bfs (parentsOf s) ext target fuel [(x, a)] []).
Proof.
  intros Hfuel.
  apply (bfs_terminates _ _ _ ((map_to_list (peopleMap s)).*1)).
  - apply NoDup_fst_map_to_list.
  - intros v Hv. unfold parentsOf.
    destruct (peopleMap s !! v) as [p|] eqn:Hp; [|done].
    destruct Hv. apply list_elem_of_fmap. exists (v, p). split; [done|].
    by apply elem_of_map_to_list.
  - pose proof (parents_pending (map_to_list (peopleMap s)).*1 []) as Hp.
    rewrite length_fmap, length_map_to_list in Hp.
    unfold ancestors_fuel in Hfuel. simpl. lia.
Qed.

Lemma children_pending (l : list (string * list string)) visited :
  (∀ k v, (k, v) ∈ l → childrenMap s !! k = Some v) →
  pending (childrenOf s) l.*1 visited
    ≤ sum_list_with (λ kv : string * list string, length kv.2) l.
Proof.
  unfold pending. induction l as [|[k v] l IH]; intros Hl; csimpl; [lia|].
  assert (childrenOf s k = v) as ->.
  { unfold childrenOf. by rewrite (Hl k v (list_elem_of_here _ _)). }
  assert (IH' := IH (λ k' v' Hin, Hl k' v' (list_elem_of_further _ _ _ Hin))).
  case_decide; lia.
Qed.

Lemma children_walk_ends {A} (ext : A → string → A) target fuel x a :
  descendants_fuel s ≤ fuel →
  is_Some (bfs (childrenOf s) ext target fuel [(x, a)] []).
Proof.
  intros Hfuel.
  apply (bfs_terminates _ _ _ ((map_to_list (childrenMap s)).*1)).
  - apply NoDup_fst_map_to_list.
  - intros v Hv. unfold childrenOf.
    destruct (childrenMap s !! v) as [l|] eqn:Hl; [|done].
    destruct Hv. apply list_elem_of_fmap. exists (v, l). split; [done|].
    by apply elem_of_map_to_list.
  - pose proof (children_pending (map_to_list (childrenMap s)) []) as Hp.
    unfold descendants_fuel in Hfuel. simpl.
    assert (∀ k v, (k, v) ∈ map_to_list (childrenMap s) → childrenMap s !! k = Some v).
    { intros k v. apply elem_of_map_to_list. }
    specialize (Hp H). lia.
Qed.

Lemma push_depth_S (k : nat) w : True → push_depth k w = S k.
Proof. intros _. unfold push_depth. lia. Qed.

Lemma hops_push path w : path ≠ [] → hops (push_path path w) = S (hops path).
Proof.
  intros Hne. unfold hops, push_path. rewrite length_app. simpl.
  destruct path; [done|]. simpl. lia.
Qed.

Lemma push_path_nonempty path w : path ≠ [] → push_path path w ≠ [].
Proof. intros _. unfold push_path. by destruct path. Qed.

(** [getAncestors] returns; its object lists, in the order of their
    visit, the members of [peopleMap] reached from [x], each with the
    length of a shortest chain of parent links. *)
Lemma getAncestors_spec x :
  ∃ visited,
    (∀ fuel, ancestors_fuel s ≤ fuel →
       getAncestors_loop s fuel [(x, 0)] [] [] = Some (recorded s visited, visited.*1))
    ∧ getAncestors s x = Some (recorded s visited)
    ∧ NoDup visited.*1
    ∧ (∀ v k, (v, k) ∈ visited → nsteps up k x v ∧ ∀ n, nsteps up n x v → k ≤ n)
    ∧ (∀ w n, nsteps up n x w → w ∈ visited.*1).
Proof.
  destruct (parents_walk_ends push_depth None (ancestors_fuel s) x 0)
    as [[r visited] Hrun]; [done|].
  exists visited.
  assert (Hall : ∀ fuel, ancestors_fuel s ≤ fuel →
    getAncestors_loop s fuel [(x, 0)] [] [] = Some (recorded s visited, visited.*1)).
  { intros fuel Hfuel.
    change (getAncestors_loop s fuel [(x, 0)] [] [])
      with (getAncestors_loop s fuel [(x, 0)] ([] : list (string * nat)).*1 (recorded s [])).
    rewrite getAncestors_loop_bfs.
    by rewrite (bfs_fuel_mono _ _ _ _ _ _ _ _ Hrun Hfuel). }
  split; [done|]. split.
  { unfold getAncestors. by rewrite Hall. }
  pose proof (bfs_result (parentsOf s) push_depth None (λ _, True) (λ k, k)
                (λ _ _ _, I) push_depth_S x _ _ _ _ _
                (bfs_inv_init (parentsOf s) None (λ _, True) (λ k, k) x 0 I eq_refl) Hrun)
    as (Hnd & _ & Hvis & Hr).
  destruct r as [a|].
  { by destruct Hr as (t & ? & _). }
  destruct Hr as (Hreach & _). split_and!; try done.
  intros v k Hin. by destruct (Hvis _ _ Hin) as (_ & ? & ?).
Qed.

Lemma getAncestorPath_spec x t :
  ∃ r visited,
    (∀ fuel, ancestors_fuel s ≤ fuel →
       getAncestorPath_loop s t fuel [(x, [x])] [] = Some (r, visited))
    ∧ NoDup visited
    ∧ getAncestorPath s x t = Some r
    ∧ match r with
      | Some path => path ≠ [] ∧ nsteps up (hops path) x t
                     ∧ ∀ n, nsteps up n x t → hops path ≤ n
      | None => ∀ n, ¬ nsteps up n x t
      end.
Proof.
  destruct (parents_walk_ends push_path (Some t) (ancestors_fuel s) x [x])
    as [[r visited] Hrun]; [done|].
  exists r, visited.*1.
  pose proof (bfs_result (parentsOf s) push_path (Some t) (λ p, p ≠ []) hops
                push_path_nonempty hops_push x _ _ _ _ _
                (bfs_inv_init (parentsOf s) (Some t) (λ p, p ≠ []) hops x [x] ltac:(done) eq_refl) Hrun)
    as (Hnd & _ & Hvis & Hr).
  assert (Hall : ∀ fuel, ancestors_fuel s ≤ fuel →
    getAncestorPath_loop s t fuel [(x, [x])] [] = Some (r, visited.*1)).
  { intros fuel Hfuel.
    change (getAncestorPath_loop s t fuel [(x, [x])] [])
      with (getAncestorPath_loop s t fuel [(x, [x])] ([] : list (string * list string)).*1).
    rewrite getAncestorPath_loop_bfs.
    by rewrite (bfs_fuel_mono _ _ _ _ _ _ _ _ Hrun Hfuel). }
  split_and!; [done|done| |].
  - unfold getAncestorPath. by rewrite Hall.
  - destruct r as [path|].
    + destruct Hr as (t' & [= <-] & Hin). by destruct (Hvis _ _ Hin) as (? & ? & ?).
    + destruct Hr as (Hreach & Ht & _). intros n Hn.
      by apply (Ht t eq_refl), (Hreach t n).
Qed.

Lemma getDescendantPath_spec x t :
  ∃ r visited,
    (∀ fuel, descendants_fuel s ≤ fuel →
       getDescendantPath_loop s t fuel [(x, [x])] [] = Some (r, visited))
    ∧ NoDup visited
    ∧ getDescendantPath s x t = Some r
    ∧ match r with
      | Some path => path ≠ [] ∧ nsteps down (hops path) x t
                     ∧ ∀ n, nsteps down n x t → hops path ≤ n
      | None => ∀ n, ¬ nsteps down n x t
      end.
Proof.
  destruct (children_walk_ends push_path (Some t) (descendants_fuel s) x [x])
    as [[r visited] Hrun]; [done|].
  exists r, visited.*1.
  pose proof (bfs_result (childrenOf s) push_path (Some t) (λ p, p ≠ []) hops
                push_path_nonempty hops_push x _ _ _ _ _
                (bfs_inv_init (childrenOf s) (Some t) (λ p, p ≠ []) hops x [x]
                   ltac:(done) eq_refl) Hrun)
    as (Hnd & _ & Hvis & Hr).
  assert (Hall : ∀ fuel, descendants_fuel s ≤ fuel →
    getDescendantPath_loop s t fuel [(x, [x])] [] = Some (r, visited.*1)).
  { intros fuel Hfuel.
    change (getDescendantPath_loop s t fuel [(x, [x])] [])
      with (getDescendantPath_loop s t fuel [(x, [x])] ([] : list (string * list string)).*1).
    rewrite getDescendantPath_loop_bfs.
    by rewrite (bfs_fuel_mono _ _ _ _ _ _ _ _ Hrun Hfuel). }
  split_and!; [done|done| |].
  - unfold getDescendantPath. by rewrite Hall.
  - destruct r as [path|].
    + destruct Hr as (t' & [= <-] & Hin). by destruct (Hvis _ _ Hin) as (? & ? & ?).
    + destruct Hr as (Hreach & Ht & _). intros n Hn.
      by apply (Ht t eq_refl), (Hreach t n).
Qed.

(** Reading the object of [getAncestors]. *)
Lemma recorded_own visited k d :
  NoDup visited.*1 →
  JsObject.own (recorded s visited) k = Some d ↔
    (k, d) ∈ visited ∧ is_Some (peopleMap s !! k) ∧ k ≠ "__proto__".
Proof.
  intros Hnd. rewrite recorded_filter by done.
  assert (Hnd' : NoDup (filter (λ e : string * nat,
             is_Some (peopleMap s !! e.1) ∧ e.1 ≠ "__proto__") visited).*1).
  { eapply sublist_NoDup; [exact Hnd|]. apply fmap_sublist, sublist_filter. }
  split.
  - intros Ho%own_Some_elem. apply list_elem_of_filter in Ho as [[? ?] ?]. done.
  - intros (Hin & Hp & Hk). apply own_elem_NoDup; [done|].
    apply list_elem_of_filter. done.
Qed.

End WalkSpecs.

(** C10. The keys of the object returned by [getAncestors] are keys of
    [peopleMap]; a parent reference of a key is dequeued (it is in the
    final [visited] set) and is a key only when [peopleMap] has it; for a
    start id that [peopleMap] lacks the object is empty. *)
Theorem ancestor_keys_in_store (s : Store) (x : string) :
  ∃ a visited,
    (∀ fuel, ancestors_fuel s ≤ fuel →
       getAncestors_loop s fuel [(x, 0)] [] [] = Some (a, visited))
    ∧ getAncestors s x = Some a
    ∧ (∀ k, k ∈ a.*1 → is_Some (peopleMap s !! k))
    ∧ (∀ k p w, k ∈ a.*1 → peopleMap s !! k = Some p →
         js_ref (fid p) = Some w ∨ js_ref (mid p) = Some w →
         w ∈ visited ∧ (peopleMap s !! w = None → w ∉ a.*1))
    ∧ (peopleMap s !! x = None → a = []).
Proof.
  destruct (getAncestors_spec s x) as (vis & Hloop & Hget & Hnd & Hvis & Hreach).
  exists (recorded s vis), vis.*1.
  assert (Hkeys : ∀ k, k ∈ (recorded s vis).*1 →
            is_Some (peopleMap s !! k) ∧ ∃ d, (k, d) ∈ vis).
  { intros k Hk. apply own_is_Some in Hk as [d Hd].
    apply recorded_own in Hd as (? & ? & _); [|done]. eauto. }
  split_and!; try done.
  - intros k Hk. by apply Hkeys.
  - intros k p w Hk Hp Hw. split.
    + destruct (Hkeys k Hk) as [_ [d Hd]].
      destruct (Hvis k d Hd) as [Hpath _].
      apply (Hreach w (S d)). apply nsteps_r with k; [done|].
      unfold edge, parentsOf. rewrite Hp.
      destruct Hw as [-> | ->]; set_solver.
    + intros Hnone Hin. apply Hkeys in Hin as [[? ?] _]. congruence.
  - intros Hx. destruct (recorded s vis) as [|[k d] rest] eqn:Hrec; [done|]. exfalso.
    destruct (Hkeys k) as [Hin [d' Hd']]; [rewrite fmap_cons; apply list_elem_of_here|].
    destruct (Hvis k d' Hd') as [Hpath _].
    inversion Hpath as [|n ? y ? Hxy Hrest]; subst.
    + rewrite Hx in Hin. by destruct Hin.
    + unfold edge, parentsOf in Hxy. rewrite Hx in Hxy. by apply not_elem_of_nil in Hxy.
Qed.

(** ** The partnership passes *)
Lemma partner_passes_iter count i pm people gm :
  partner_passes count i pm people gm =
    (Nat.iter count (partner_pass pm people) gm, i + count).
Proof.
  revert i gm. induction count as [|count IH]; intros i gm; simpl.
  - f_equal. lia.
  - rewrite IH. f_equal; [|lia].
    clear. induction count as [|count IH]; [done|]. simpl. by rewrite IH.
Qed.

(** C6. On every store, cyclic or not, each of the three walks ends
    within the fuel computed from the store, whatever larger fuel it is
    given, and no id is processed twice; the partnership phase is five
    passes and leaves the loop variable at 5. *)
Theorem walks_and_passes_terminate (s : Store) (x t : string) :
  (∃ a visited, NoDup visited ∧
     ∀ fuel, ancestors_fuel s ≤ fuel →
       getAncestors_loop s fuel [(x, 0)] [] [] = Some (a, visited))
  ∧ (∃ r visited, NoDup visited ∧
     ∀ fuel, ancestors_fuel s ≤ fuel →
       getAncestorPath_loop s t fuel [(x, [x])] [] = Some (r, visited))
  ∧ (∃ r visited, NoDup visited ∧
     ∀ fuel, descendants_fuel s ≤ fuel →
       getDescendantPath_loop s t fuel [(x, [x])] [] = Some (r, visited))
  ∧ (∀ pm people gm,
       partner_passes 5 0 pm people gm =
         (partner_pass pm people (partner_pass pm people (partner_pass pm people
            (partner_pass pm people (partner_pass pm people gm)))), 5)).
Proof.
  split_and!.
  - destruct (getAncestors_spec s x) as (vis & Hloop & _ & Hnd & _).
    by exists (recorded s vis), vis.*1.
  - destruct (getAncestorPath_spec s x t) as (r & vis & Hloop & Hnd & _).
    by exists r, vis.
  - destruct (getDescendantPath_spec s x t) as (r & vis & Hloop & Hnd & _).
    by exists r, vis.
  - intros. by rewrite partner_passes_iter.
Qed.

Example cyclic_walks :
  getAncestors (Build cyclic ∅) "A" = Some [("A", 0); ("B", 1)]
  ∧ getAncestorPath (Build cyclic ∅) "A" "Z" = Some None
  ∧ getDescendantPath (Build cyclic ∅) "A" "Z" = Some None
  ∧ genderMap (Build cyclic ∅) = {[ "A" := M; "B" := M ]}.
Proof. vm_compute. done. Qed.

(** ** Choosing the common ancestor *)
Section BestAncestor.

Variables a1 a2 : list (string * nat).

Lemma for_in_keys_elem (o : list (string * nat)) k :
  k ∈ JsObject.for_in_keys o ↔ k ∈ o.*1.
Proof.
  unfold JsObject.for_in_keys. rewrite elem_of_app, list_elem_of_filter. split.
  - intros [Hin|[_ Hin]]; [|done].
    apply list_elem_of_fmap in Hin as ([n k'] & -> & Hin).
    rewrite merge_sort_Permutation in Hin.
    apply list_elem_of_omap in Hin as ([k'' d] & Hin & Heq). simpl in *.
    destruct (JsObject.array_index k''); simplify_eq/=.
    apply list_elem_of_fmap. by exists (k', d).
  - intros Hin. destruct (JsObject.array_index k) as [n|] eqn:Hidx; [left|by right].
    apply list_elem_of_fmap in Hin as ([k' d] & -> & Hin). simpl in *.
    apply list_elem_of_fmap. exists (n, k'). split; [done|].
    rewrite merge_sort_Permutation. apply list_elem_of_omap.
    exists (k', d). split; [done|]. simpl. by rewrite Hidx.
Qed.

Lemma closer_spec best k :
  closer a1 a2 best k =
    match depth_sum a1 a2 k with
    | Some dist =>
        match best.2 with
        | None => (Some k, Some dist)
        | Some b => if decide (dist < b) then (Some k, Some dist) else best
        end
    | None => best
    end.
Proof.
  unfold closer, depth_sum, JsObject.get.
  destruct (JsObject.own a2 k) as [d2|], (JsObject.own a1 k) as [d1|]; simpl;
    try done; by case_decide.
Qed.

Lemma chosen_step processed best k :
  chosen a1 a2 processed best →
  chosen a1 a2 (processed ++ [k]) (closer a1 a2 best k).
Proof.
  intros Hc. rewrite closer_spec.
  assert (Hkeep : ∀ anc d, best = (Some anc, Some d) →
            (∀ e, depth_sum a1 a2 k = Some e → d ≤ e) →
            chosen a1 a2 (processed ++ [k]) best).
  { intros anc d -> Hk. destruct Hc as (i & Hi & Hd & Hmin & Hfirst).
    exists i. split_and!; try done.
    - rewrite lookup_app_l; [done|]. by apply lookup_lt_Some in Hi.
    - intros k' e [Hin|Hin%list_elem_of_singleton]%elem_of_app He; [by eauto|].
      subst k'. by apply Hk.
    - intros j k' e Hj Hlk. apply (Hfirst j k' e Hj).
      rewrite lookup_app_l in Hlk; [done|]. apply lookup_lt_Some in Hi. lia. }
  assert (Htake : ∀ dist, depth_sum a1 a2 k = Some dist →
            (∀ k' e, k' ∈ processed → depth_sum a1 a2 k' = Some e → dist < e) →
            chosen a1 a2 (processed ++ [k]) (Some k, Some dist)).
  { intros dist Hk Hlt. exists (length processed). split_and!; try done.
    - by rewrite list_lookup_middle.
    - intros k' e [Hin|Hin%list_elem_of_singleton]%elem_of_app He.
      + specialize (Hlt k' e Hin He). lia.
      + subst k'. assert (e = dist) by congruence. lia.
    - intros j k' e Hj Hlk. rewrite lookup_app_l in Hlk by done.
      apply Hlt. by apply list_elem_of_lookup_2 in Hlk. }
  destruct (depth_sum a1 a2 k) as [dist|] eqn:Hk.
  - destruct best as [[anc|] [d|]]; simpl; try done.
    + case_decide as Hlt.
      * apply Htake; [done|]. intros k' e Hin He.
        destruct Hc as (i & _ & _ & Hmin & _). specialize (Hmin k' e Hin He). lia.
      * apply (Hkeep anc d); [done|]. intros e [= <-]. lia.
    + apply Htake; [done|]. intros k' e Hin He. rewrite (Hc k' Hin) in He. done.
  - destruct best as [[anc|] [d|]]; simpl; try done.
    + by apply (Hkeep anc d).
    + intros k' [Hin|Hin%list_elem_of_singleton]%elem_of_app; [by apply Hc|by subst].
Qed.

Lemma chosen_foldl keys :
  chosen a1 a2 keys (foldl (closer a1 a2) (None, None) keys).
Proof.
  induction keys as [|k keys IH] using rev_ind.
  - simpl. intros k Hk. by apply not_elem_of_nil in Hk.
  - rewrite foldl_app. simpl. by apply chosen_step.
Qed.

Lemma depth_sum_key k e : depth_sum a1 a2 k = Some e → k ∈ JsObject.for_in_keys a1.
Proof.
  unfold depth_sum. intros He. apply for_in_keys_elem, own_is_Some.
  destruct (JsObject.own a1 k); [by eexists|done].
Qed.

(** The key chosen by the loop of [findRelationship]. *)
Lemma bestAncestor_spec :
  match bestAncestor a1 a2 with
  | Some anc =>
      ∃ d i, JsObject.for_in_keys a1 !! i = Some anc
        ∧ depth_sum a1 a2 anc = Some d
        ∧ (∀ k e, depth_sum a1 a2 k = Some e → d ≤ e)
        ∧ (∀ j k e, j < i → JsObject.for_in_keys a1 !! j = Some k →
             depth_sum a1 a2 k = Some e → d < e)
  | None => ∀ k, depth_sum a1 a2 k = None
  end.
Proof.
  unfold bestAncestor. pose proof (chosen_foldl (JsObject.for_in_keys a1)) as Hc.
  destruct (foldl _ _ _) as [[anc|] [d|]]; simpl in *; try done.
  - destruct Hc as (i & Hi & Hd & Hmin & Hfirst). exists d, i.
    split_and!; try done. intros k e He. apply (Hmin k e); [|done].
    by apply depth_sum_key with e.
  - intros k. destruct (depth_sum a1 a2 k) as [e|] eqn:He; [|done].
    rewrite <- He. apply Hc. by apply depth_sum_key with e.
Qed.

End BestAncestor.

Example family_cousins : findRelationship family "X" "Y" = Some "Cousin".
Proof. vm_compute. reflexivity. Qed.

Example family_unrelated :
  findRelationship family "X" "Z" = Some "No direct blood relation".
Proof. vm_compute. reflexivity. Qed.

Example family_grandmother :
  findRelationship family "X" "G2" = Some "Nayanamma (Paternal Grandmother)".
Proof. vm_compute. reflexivity. Qed.

(** Line 505: an id that is missing, the empty string, is answered
    before any ancestor is looked at. Both callers return on such an id
    before they call (lines 998 and 1303). *)
Lemma resolve_missing_id (s : Store) (id1 id2 : string) :
  id1 = "" ∨ id2 = "" → findRelationship s id1 id2 = Some "Unknown".
Proof.
  intros Hmissing. unfold findRelationship, findRelationship_paths.
  by rewrite decide_True.
Qed.

(** C1. For ids, which are non-empty strings, that are distinct and of
    which the first does not list the second as partner, both ancestor
    objects are computed; when they share no key the answer is "No direct
    blood relation"; when they share one, the ancestor handed to the two
    path walks is a shared key of least depth sum, and every key met
    earlier by [for (anc in a1)] that is shared has a strictly larger
    sum. *)
Theorem resolve_selects_nearest (s : Store) (id1 id2 : string) :
  id1 ≠ "" → id2 ≠ "" → id1 ≠ id2 → listsPartner s id1 id2 = false →
  ∃ a1 a2,
    getAncestors s id1 = Some a1 ∧ getAncestors s id2 = Some a2
    ∧ ((∀ k, depth_sum a1 a2 k = None) →
       findRelationship s id1 id2 = Some "No direct blood relation")
    ∧ ((∃ k e, depth_sum a1 a2 k = Some e) →
       ∃ anc d i pathUp pathDown,
         findRelationship_paths s id1 id2 = Some (Paths anc pathUp pathDown)
         ∧ getAncestorPath s id1 anc = Some pathUp
         ∧ getDescendantPath s anc id2 = Some pathDown
         ∧ findRelationship s id1 id2 =
             Some (interpretHinduRelation s id1 id2 pathUp pathDown)
         ∧ depth_sum a1 a2 anc = Some d
         ∧ (∀ k e, depth_sum a1 a2 k = Some e → d ≤ e)
         ∧ JsObject.for_in_keys a1 !! i = Some anc
         ∧ (∀ j k e, j < i → JsObject.for_in_keys a1 !! j = Some k →
              depth_sum a1 a2 k = Some e → d < e)).
Proof.
  intros Hid1 Hid2 Hne Hpartner.
  destruct (getAncestors_spec s id1) as (vis1 & _ & Hget1 & Hnd1 & Hvis1 & _).
  destruct (getAncestors_spec s id2) as (vis2 & _ & Hget2 & _).
  exists (recorded s vis1), (recorded s vis2).
  set (a1 := recorded s vis1) in *. set (a2 := recorded s vis2) in *.
  assert (Hhead : findRelationship_paths s id1 id2 =
            match js_ref (bestAncestor a1 a2) with
            | None => Some (Label "No direct blood relation")
            | Some anc =>
                pathUp ← getAncestorPath s id1 anc;
                pathDown ← getDescendantPath s anc id2;
                Some (Paths anc pathUp pathDown)
            end).
  { unfold findRelationship_paths.
    rewrite decide_False by tauto. rewrite decide_False by done.
    rewrite Hpartner, Hget1, Hget2. done. }
  pose proof (bestAncestor_spec a1 a2) as Hbest.
  split_and!; try done.
  - intros Hnone. unfold findRelationship. rewrite Hhead.
    destruct (bestAncestor a1 a2) as [anc|]; [|done].
    destruct Hbest as (d & _ & _ & Hd & _). by rewrite Hnone in Hd.
  - intros (k & e & Hk).
    destruct (bestAncestor a1 a2) as [anc|]; [|by rewrite Hbest in Hk].
    destruct Hbest as (d & i & Hi & Hd & Hmin & Hfirst).
    assert (Hanc : anc ≠ "").
    { unfold depth_sum in Hd.
      destruct (JsObject.own a1 anc) as [d1|] eqn:Ho; [|done].
      apply recorded_own in Ho as (Hin & _); [|done].
      destruct (Hvis1 anc d1 Hin) as [Hpath _]. by apply (up_nonempty s d1 id1). }
    destruct (getAncestorPath_spec s id1 anc) as (pathUp & ? & _ & _ & Hup & _).
    destruct (getDescendantPath_spec s anc id2) as (pathDown & ? & _ & _ & Hdown & _).
    assert (Hpaths : findRelationship_paths s id1 id2 = Some (Paths anc pathUp pathDown)).
    { rewrite Hhead. simpl. rewrite decide_False by done. by rewrite Hup, Hdown. }
    exists anc, d, i, pathUp, pathDown. split_and!; try done.
    unfold findRelationship. by rewrite Hpaths.
Qed.

Lemma resolve_selects_nearest_witness :
  ∃ a1 a2,
    getAncestors family "X" = Some a1 ∧ getAncestors family "Y" = Some a2
    ∧ ((∀ k, depth_sum a1 a2 k = None) →
       findRelationship family "X" "Y" = Some "No direct blood relation")
    ∧ ((∃ k e, depth_sum a1 a2 k = Some e) →
       ∃ anc d i pathUp pathDown,
         findRelationship_paths family "X" "Y" = Some (Paths anc pathUp pathDown)
         ∧ getAncestorPath family "X" anc = Some pathUp
         ∧ getDescendantPath family anc "Y" = Some pathDown
         ∧ findRelationship family "X" "Y" =
             Some (interpretHinduRelation family "X" "Y" pathUp pathDown)
         ∧ depth_sum a1 a2 anc = Some d
         ∧ (∀ k e, depth_sum a1 a2 k = Some e → d ≤ e)
         ∧ JsObject.for_in_keys a1 !! i = Some anc
         ∧ (∀ j k e, j < i → JsObject.for_in_keys a1 !! j = Some k →
              depth_sum a1 a2 k = Some e → d < e)).
Proof.
  apply (resolve_selects_nearest family "X" "Y"); [done|done|done|].
  vm_compute. reflexivity.
Defined.

(** ** Parent links and the children index of a built store *)
Section BuiltStore.

Variables (people : list Person) (explicit : gmap string Gender).
Hypothesis ids_distinct : NoDup (id <$> people).

Local Abbreviation s := (Build people explicit).

Lemma index_people_byId (l : list Person) maps c :
  NoDup (id <$> l) →
  (foldl index_person maps l).1 !! c =
    match list_find (λ p, id p = c) l with
    | Some (_, p) => Some p
    | None => maps.1 !! c
    end.
Proof.
  revert maps. induction l as [|p l IH]; intros maps Hnd; [done|].
  rewrite fmap_cons in Hnd. apply NoDup_cons in Hnd as [Hp Hnd].
  simpl foldl. rewrite IH by done. simpl.
  destruct (decide (id p = c)) as [<-|Hne].
  - destruct (list_find _ l) as [[i q]|] eqn:Hf; simpl.
    + apply list_find_Some in Hf as (Hi & Hq & _). destruct Hp.
      rewrite <- Hq. apply list_elem_of_fmap. exists q. split; [done|].
      by apply list_elem_of_lookup_2 in Hi.
    + by rewrite lookup_insert_eq.
  - destruct (list_find _ l) as [[i q]|]; simpl; [done|].
    by rewrite lookup_insert_ne.
Qed.

Lemma Build_byId c p : peopleMap s !! c = Some p ↔ p ∈ people ∧ id p = c.
Proof.
  unfold Build, buildLookups. simpl. rewrite index_people_byId by done. simpl.
  destruct (list_find _ people) as [[i q]|] eqn:Hf.
  - apply list_find_Some in Hf as (Hi & Hq & _).
    apply list_elem_of_lookup_2 in Hi as Hin. split.
    + intros [= <-]. done.
    + intros [Hp Hc]. f_equal.
      apply list_elem_of_lookup in Hp as [j Hj].
      assert (i = j); [|congruence].
      apply (NoDup_lookup (id <$> people) i j c); [done| |];
        rewrite list_lookup_fmap; [by rewrite Hi; simpl; f_equal|by rewrite Hj; simpl; f_equal].
  - rewrite lookup_empty. split; [done|]. intros [Hp Hc].
    rewrite list_find_None, Forall_forall in Hf. by destruct (Hf p Hp).
Qed.

Lemma Build_childrenOf p c :
  c ∈ childrenOf s p ↔
    ∃ q, q ∈ people ∧ id q = c ∧ (js_ref (fid q) = Some p ∨ js_ref (mid q) = Some p).
Proof.
  unfold childrenOf. rewrite Build_children.
  assert (Hsame : c ∈ default [] (match appended_children p people with
                                  | [] => None
                                  | l => Some (js_sort l)
                                  end) ↔ c ∈ appended_children p people).
  { destruct (appended_children p people) as [|c0 l] eqn:Ha; [done|]. simpl.
    unfold js_sort. by rewrite merge_sort_Permutation. }
  rewrite Hsame. unfold appended_children. rewrite list_elem_of_bind.
  split.
  - intros (q & Hc & Hq). exists q. split; [done|].
    unfold pushes_under in Hc. repeat case_decide; set_solver.
  - intros (q & Hq & <- & Hor). exists q. split; [|done].
    unfold pushes_under. destruct Hor as [Hf|Hm].
    + rewrite (decide_True (P := js_ref (fid q) = Some p)) by done. set_solver.
    + rewrite (decide_True (P := js_ref (mid q) = Some p)) by done. set_solver.
Qed.

Lemma Build_parentsOf c p :
  p ∈ parentsOf s c ↔
    ∃ q, q ∈ people ∧ id q = c ∧ (js_ref (fid q) = Some p ∨ js_ref (mid q) = Some p).
Proof.
  unfold parentsOf. split.
  - destruct (peopleMap s !! c) as [q|] eqn:Hq; [|by intros ?%not_elem_of_nil].
    apply Build_byId in Hq as [Hq Hc]. intros Hin. exists q. split_and!; try done.
    destruct (js_ref (fid q)), (js_ref (mid q)); set_solver.
  - intros (q & Hq & Hc & Hor).
    assert (peopleMap s !! c = Some q) as -> by by apply Build_byId.
    destruct Hor as [-> | ->]; set_solver.
Qed.

(** In a store built from records with distinct ids the children index
    is the converse of the parent links. *)
Lemma Build_edges p c : edge (childrenOf s) p c ↔ edge (parentsOf s) c p.
Proof. unfold edge. by rewrite Build_childrenOf, Build_parentsOf. Qed.

Lemma nsteps_flip {A} (R : relation A) n x y :
  nsteps R n x y → nsteps (flip R) n y x.
Proof.
  induction 1 as [|n x y z Hxy _ IH]; [constructor|].
  by apply nsteps_r with y.
Qed.

Lemma Build_down_up n p c :
  nsteps (edge (childrenOf s)) n p c ↔ nsteps (edge (parentsOf s)) n c p.
Proof.
  split; intros H%nsteps_flip.
  - apply (nsteps_congruence (λ v, v) _ _ _ _ (λ a b, proj1 (Build_edges b a)) H).
  - apply (nsteps_congruence (λ v, v) _ _ _ _ (λ a b, proj2 (Build_edges a b)) H).
Qed.

End BuiltStore.

Example crossed_xy :
  findRelationship_paths (Build crossed ∅) "x" "y"
    = Some (Paths "A" (Some ["x"; "A"]) (Some ["A"; "D"; "y"])).
Proof. vm_compute. reflexivity. Qed.

Example crossed_yx :
  findRelationship_paths (Build crossed ∅) "y" "x"
    = Some (Paths "B" (Some ["y"; "B"]) (Some ["B"; "C"; "x"])).
Proof. vm_compute. reflexivity. Qed.

(** C8, as stated: with two common ancestors of equal depth sum the two
    calls choose different ancestors and the distances do not swap. *)
Lemma distances_swap_counterexample :
  ¬ (∀ s x y anc anc' up down up' down',
       x ≠ y → listsPartner s x y = false → listsPartner s y x = false →
       findRelationship_paths s x y = Some (Paths anc (Some up) (Some down)) →
       findRelationship_paths s y x = Some (Paths anc' (Some up') (Some down')) →
       distances up down = ((distances up' down').2, (distances up' down').1)).
Proof.
  intros H.
  specialize (H (Build crossed ∅) "x" "y" "A" "B"
                ["x"; "A"] ["A"; "D"; "y"] ["y"; "B"] ["B"; "C"; "x"]).
  discriminate H; try done; vm_compute; reflexivity.
Qed.

(** With an id recorded twice the two calls choose the same ancestor and
    the distances still do not swap: [childrenMap] keeps the link of the
    first record of x, [peopleMap] only the second record. *)
Example recorded_twice_xy :
  findRelationship_paths (Build recorded_twice ∅) "x" "y"
    = Some (Paths "A" (Some ["x"; "P"; "A"]) (Some ["A"; "y"]))
  ∧ findRelationship_paths (Build recorded_twice ∅) "y" "x"
    = Some (Paths "A" (Some ["y"; "A"]) (Some ["A"; "x"])).
Proof. split; vm_compute; reflexivity. Qed.

(** ** Distances within one resolution *)
Section Distances.

Variables (people : list Person) (explicit : gmap string Gender).
Hypothesis ids_distinct : NoDup (id <$> people).

Local Abbreviation s := (Build people explicit).

Lemma depth_sum_comm (a1 a2 : list (string * nat)) k :
  depth_sum a1 a2 k = depth_sum a2 a1 k.
Proof.
  unfold depth_sum.
  destruct (JsObject.own a1 k), (JsObject.own a2 k); simpl; try done.
  f_equal. lia.
Qed.

(** When one common ancestor alone has the least depth sum, both
    orders of the arguments choose it. *)
Lemma single_nearest_same_choice (a1 a2 : list (string * nat)) :
  (∀ k k' e, depth_sum a1 a2 k = Some e → depth_sum a1 a2 k' = Some e →
     (∀ k'' e'', depth_sum a1 a2 k'' = Some e'' → e ≤ e'') → k = k') →
  bestAncestor a1 a2 = bestAncestor a2 a1.
Proof.
  intros Huniq.
  pose proof (bestAncestor_spec a1 a2) as H12.
  pose proof (bestAncestor_spec a2 a1) as H21.
  destruct (bestAncestor a1 a2) as [anc|], (bestAncestor a2 a1) as [anc'|]; try done.
  - destruct H12 as (d & _ & _ & Hd & Hmin & _).
    destruct H21 as (d' & _ & _ & Hd' & Hmin' & _).
    rewrite depth_sum_comm in Hd'.
    assert (d ≤ d') by by apply (Hmin anc').
    assert (d' ≤ d) by (apply (Hmin' anc); by rewrite depth_sum_comm).
    assert (d' = d) as -> by lia.
    f_equal. by apply (Huniq anc anc' d).
  - destruct H12 as (d & _ & _ & Hd & _). rewrite depth_sum_comm in Hd.
    by rewrite H21 in Hd.
  - destruct H21 as (d & _ & _ & Hd & _). rewrite depth_sum_comm in Hd.
    by rewrite H12 in Hd.
Qed.

Lemma distances_hops up down :
  up ≠ [] → down ≠ [] →
  distances up down = (Z.of_nat (hops up), Z.of_nat (hops down)).
Proof.
  intros Hu Hd. unfold distances, hops.
  destruct up, down; try done. simpl length. f_equal; lia.
Qed.

(** The paths built for a chosen ancestor have the depths recorded in
    the two ancestor objects as their edge counts. *)
Lemma paths_have_recorded_depths x y a_x a_y anc dx dy :
  getAncestors s x = Some a_x → getAncestors s y = Some a_y →
  JsObject.own a_x anc = Some dx → JsObject.own a_y anc = Some dy →
  ∃ up down,
    getAncestorPath s x anc = Some (Some up)
    ∧ getDescendantPath s anc y = Some (Some down)
    ∧ distances up down = (Z.of_nat dx, Z.of_nat dy).
Proof.
  intros Hx Hy Hdx Hdy.
  destruct (getAncestors_spec s x) as (vx & _ & Hgx & Hndx & Hvx & _).
  destruct (getAncestors_spec s y) as (vy & _ & Hgy & Hndy & Hvy & _).
  rewrite Hgx in Hx. rewrite Hgy in Hy. simplify_eq.
  apply recorded_own in Hdx as (Hinx & _); [|done].
  apply recorded_own in Hdy as (Hiny & _); [|done].
  destruct (Hvx anc dx Hinx) as [Hpx Hminx].
  destruct (Hvy anc dy Hiny) as [Hpy Hminy].
  destruct (getAncestorPath_spec s x anc) as (ru & ? & _ & _ & Hup & Hru).
  destruct (getDescendantPath_spec s anc y) as (rd & ? & _ & _ & Hdown & Hrd).
  destruct ru as [up|]; [|by destruct (Hru dx)].
  destruct rd as [down|]; [|by destruct (Hrd dy); apply Build_down_up].
  destruct Hru as (Hune & Hupath & Humin).
  destruct Hrd as (Hdne & Hdpath & Hdmin).
  exists up, down. split_and!; try done.
  rewrite distances_hops by done.
  apply Build_down_up in Hdpath; [|done].
  pose proof (Hminx _ Hupath). pose proof (Humin _ Hpx).
  pose proof (Hminy _ Hdpath).
  pose proof (Hdmin dy) as Hle. rewrite Build_down_up in Hle by done.
  specialize (Hle Hpy). f_equal; lia.
Qed.

End Distances.

(** C8 (amended). In a store built from records with pairwise distinct
    ids, for non-empty distinct ids neither of which lists the other as
    partner and whose ancestor objects share a key, both calls choose a
    common ancestor and build their two paths; the pair [(u, d)] of the
    first call holds the depths of its ancestor from [x] and from [y], the
    pair [(u', d')] of the second call the depths of its ancestor from [y]
    and from [x]; the sums [u + d] and [u' + d'] are equal, and [(u, d)]
    is [(d', u')] exactly when the two ancestors are equally deep from
    [x], so whenever both calls choose the same ancestor. *)
Theorem distances_swap (people : list Person) (explicit : gmap string Gender)
    (x y : string) (a_x a_y : list (string * nat)) :
  NoDup (id <$> people) →
  x ≠ "" → y ≠ "" → x ≠ y →
  listsPartner (Build people explicit) x y = false →
  listsPartner (Build people explicit) y x = false →
  getAncestors (Build people explicit) x = Some a_x →
  getAncestors (Build people explicit) y = Some a_y →
  (∃ k e, depth_sum a_x a_y k = Some e) →
  ∃ anc anc' up down up' down' dx dy dx' dy',
    bestAncestor a_x a_y = Some anc ∧ bestAncestor a_y a_x = Some anc'
    ∧ findRelationship_paths (Build people explicit) x y
        = Some (Paths anc (Some up) (Some down))
    ∧ findRelationship_paths (Build people explicit) y x
        = Some (Paths anc' (Some up') (Some down'))
    ∧ JsObject.own a_x anc = Some dx ∧ JsObject.own a_y anc = Some dy
    ∧ JsObject.own a_x anc' = Some dx' ∧ JsObject.own a_y anc' = Some dy'
    ∧ distances up down = (Z.of_nat dx, Z.of_nat dy)
    ∧ distances up' down' = (Z.of_nat dy', Z.of_nat dx')
    ∧ dx + dy = dx' + dy'
    ∧ (distances up down = ((distances up' down').2, (distances up' down').1)
       ↔ dx = dx')
    ∧ (anc = anc' →
       distances up down = ((distances up' down').2, (distances up' down').1)).
Proof.
  intros Hnd Hx Hy Hne Hpxy Hpyx Hax Hay (k & e & Hk).
  pose proof (bestAncestor_spec a_x a_y) as Hbest.
  destruct (bestAncestor a_x a_y) as [anc|] eqn:Hb; [|by rewrite Hbest in Hk].
  destruct Hbest as (d & _ & _ & Hd & Hmin & _).
  pose proof (bestAncestor_spec a_y a_x) as Hbest'.
  destruct (bestAncestor a_y a_x) as [anc'|] eqn:Hb'.
  2:{ rewrite depth_sum_comm in Hk. by rewrite Hbest' in Hk. }
  destruct Hbest' as (d' & _ & _ & Hd' & Hmin' & _).
  assert (Hsum : d = d').
  { apply Nat.le_antisymm.
    - apply (Hmin anc'). by rewrite depth_sum_comm.
    - apply (Hmin' anc). by rewrite depth_sum_comm. }
  unfold depth_sum in Hd, Hd'.
  destruct (JsObject.own a_x anc) as [dx|] eqn:Hdx; [|done].
  destruct (JsObject.own a_y anc) as [dy|] eqn:Hdy; [|done].
  destruct (JsObject.own a_y anc') as [dy'|] eqn:Hdy'; [|done].
  destruct (JsObject.own a_x anc') as [dx'|] eqn:Hdx'; [|done].
  simpl in Hd, Hd'. simplify_eq.
  destruct (paths_have_recorded_depths people explicit Hnd x y a_x a_y anc dx dy)
    as (up & down & Hup & Hdown & Hud); try done.
  destruct (paths_have_recorded_depths people explicit Hnd y x a_y a_x anc' dy' dx')
    as (up' & down' & Hup' & Hdown' & Hud'); try done.
  assert (Hkey : ∀ c dc, JsObject.own a_x c = Some dc → c ≠ "").
  { intros c dc Hc.
    destruct (getAncestors_spec (Build people explicit) x) as (vx & _ & Hgx & Hndx & Hvx & _).
    rewrite Hgx in Hax. simplify_eq.
    apply recorded_own in Hc as (Hin & _); [|done].
    destruct (Hvx c dc Hin) as [Hpath _].
    by apply (up_nonempty (Build people explicit) dc x). }
  assert (Hswap : distances up down = ((distances up' down').2, (distances up' down').1)
                  ↔ dx = dx').
  { rewrite Hud, Hud'. simpl. split.
    - intros [= H1 H2]. lia.
    - intros ->. f_equal. lia. }
  exists anc, anc', up, down, up', down', dx, dy, dx', dy'. split_and!; try done.
  - unfold findRelationship_paths.
    rewrite decide_False by tauto. rewrite decide_False by done.
    rewrite Hpxy, Hax, Hay. simpl. rewrite Hb. simpl.
    rewrite decide_False by (by eapply Hkey). by rewrite Hup, Hdown.
  - unfold findRelationship_paths.
    rewrite decide_False by tauto. rewrite decide_False by done.
    rewrite Hpyx, Hax, Hay. simpl. rewrite Hb'. simpl.
    rewrite decide_False by (by eapply Hkey). by rewrite Hup', Hdown'.
  - lia.
  - intros <-. apply Hswap. congruence.
Qed.

Lemma distances_swap_witness :
  ∃ anc anc' up down up' down' dx dy dx' dy',
    bestAncestor [("X", 0); ("P", 1); ("Q", 1); ("G1", 2); ("G2", 2)]
                 [("Y", 0); ("R", 1); ("G1", 2); ("G2", 2)] = Some anc
    ∧ bestAncestor [("Y", 0); ("R", 1); ("G1", 2); ("G2", 2)]
                   [("X", 0); ("P", 1); ("Q", 1); ("G1", 2); ("G2", 2)] = Some anc'
    ∧ findRelationship_paths (Build three_generations {[ "G2" := F ]}) "X" "Y"
        = Some (Paths anc (Some up) (Some down))
    ∧ findRelationship_paths (Build three_generations {[ "G2" := F ]}) "Y" "X"
        = Some (Paths anc' (Some up') (Some down'))
    ∧ JsObject.own [("X", 0); ("P", 1); ("Q", 1); ("G1", 2); ("G2", 2)] anc = Some dx
    ∧ JsObject.own [("Y", 0); ("R", 1); ("G1", 2); ("G2", 2)] anc = Some dy
    ∧ JsObject.own [("X", 0); ("P", 1); ("Q", 1); ("G1", 2); ("G2", 2)] anc' = Some dx'
    ∧ JsObject.own [("Y", 0); ("R", 1); ("G1", 2); ("G2", 2)] anc' = Some dy'
    ∧ distances up down = (Z.of_nat dx, Z.of_nat dy)
    ∧ distances up' down' = (Z.of_nat dy', Z.of_nat dx')
    ∧ dx + dy = dx' + dy'
    ∧ (distances up down = ((distances up' down').2, (distances up' down').1)
       ↔ dx = dx')
    ∧ (anc = anc' →
       distances up down = ((distances up' down').2, (distances up' down').1)).
Proof.
  apply (distances_swap three_generations {[ "G2" := F ]} "X" "Y"
           [("X", 0); ("P", 1); ("Q", 1); ("G1", 2); ("G2", 2)]
           [("Y", 0); ("R", 1); ("G1", 2); ("G2", 2)]);
    try done; try (vm_compute; reflexivity).
  - apply (bool_decide_unpack _). vm_compute. exact I.
  - exists "G1", 4. vm_compute. reflexivity.
Defined.

(** ** The extracted neighbourhood is closed under references *)
Section Extract.

Lemma sanitize_parent (nodeIds : list string) (r : option string) :
  let r' := match js_ref r with
            | Some x => if decide (x ∈ nodeIds) then r else None
            | None => r
            end in
  r' = None ∨ r' = Some "" ∨ ∃ x, r' = Some x ∧ x ∈ nodeIds.
Proof.
  destruct r as [x|]; simpl; [|by left].
  destruct (decide (x = "")) as [->|Hx]; [right; by left|].
  case_decide; [|by left]. right; right. by exists x.
Qed.

Lemma getFamilySet_ids s centerId centerNode :
  peopleMap s !! centerId = Some centerNode →
  (λ n, id (node n)) <$> getFamilySet s centerId
    = id <$> (collect s centerId centerNode).*2.
Proof.
  intros Hc. unfold getFamilySet. rewrite Hc.
  rewrite <- list_fmap_compose. by apply list_fmap_ext.
Qed.

End Extract.

(** C2. Every partner id kept in a returned node is the id of a returned
    node, and the father and mother of a returned node are [null], the
    empty string, or the id of a returned node. *)
Theorem extract_closed (s : Store) (centerId : string) (n : Node) :
  n ∈ getFamilySet s centerId →
  (∀ ps x, pids (node n) = Some ps → x ∈ ps →
     ∃ m, m ∈ getFamilySet s centerId ∧ id (node m) = x)
  ∧ (fid (node n) = None ∨ fid (node n) = Some ""
     ∨ ∃ m, m ∈ getFamilySet s centerId ∧ fid (node n) = Some (id (node m)))
  ∧ (mid (node n) = None ∨ mid (node n) = Some ""
     ∨ ∃ m, m ∈ getFamilySet s centerId ∧ mid (node n) = Some (id (node m))).
Proof.
  intros Hn.
  destruct (peopleMap s !! centerId) as [centerNode|] eqn:Hc;
    [|unfold getFamilySet in Hn; rewrite Hc in Hn; by apply not_elem_of_nil in Hn].
  pose proof (getFamilySet_ids s centerId centerNode Hc) as Hids.
  assert (Hback : ∀ x, x ∈ id <$> (collect s centerId centerNode).*2 →
            ∃ m, m ∈ getFamilySet s centerId ∧ id (node m) = x).
  { intros x Hx. rewrite <- Hids in Hx.
    apply list_elem_of_fmap in Hx as (m & -> & Hm). by exists m. }
  unfold getFamilySet in Hn. rewrite Hc in Hn.
  apply list_elem_of_fmap in Hn as (p & -> & Hp). simpl.
  set (nodeIds := id <$> (collect s centerId centerNode).*2) in *.
  split_and!.
  - intros ps x Hps Hx. apply Hback.
    destruct (pids p) as [ps0|]; [|done]. simplify_eq.
    by apply list_elem_of_filter in Hx as [? _].
  - destruct (sanitize_parent nodeIds (fid p)) as [H|[H|(x & H & Hx)]]; simpl in H.
    + by left.
    + right; by left.
    + right; right. destruct (Hback x Hx) as (m & Hm & <-). by exists m.
  - destruct (sanitize_parent nodeIds (mid p)) as [H|[H|(x & H & Hx)]]; simpl in H.
    + by left.
    + right; by left.
    + right; right. destruct (Hback x Hx) as (m & Hm & <-). by exists m.
Qed.

Lemma extract_closed_witness :
  let n := mkNode (mkPerson "P" "P" None None (Some ["Q"]) "" "" "" []) MaleIcon "" "P" in
  n ∈ getFamilySet family "X"
  ∧ (∀ ps x, pids (node n) = Some ps → x ∈ ps →
       ∃ m, m ∈ getFamilySet family "X" ∧ id (node m) = x).
Proof.
  intros n.
  assert (Hn : n ∈ getFamilySet family "X").
  { apply (bool_decide_unpack _). vm_compute. exact I. }
  split; [exact Hn|]. apply (extract_closed family "X" n Hn).
Defined.

(** ** Birth strings of the shape day-month-yy *)
Section BirthStrings.

Local Open Scope Z_scope.

Lemma app_String c s t : String.append (String c s) t = String c (String.append s t).
Proof. reflexivity. Qed.

Lemma app_empty t : String.append EmptyString t = t.
Proof. reflexivity. Qed.

Lemma split_dash_piece d rest :
  dash_free d = true →
  split_dash (String.append d (String "-"%char rest)) = d :: split_dash rest.
Proof.
  induction d as [|c d IH]; intros Hd.
  - by rewrite app_empty.
  - simpl in Hd. destruct (decide (c = "-"%char)) as [|Hc]; [done|].
    rewrite app_String. simpl. rewrite decide_False by done. by rewrite IH.
Qed.

Lemma split_dash_last d : dash_free d = true → split_dash d = [d].
Proof.
  induction d as [|c d IH]; intros Hd; [done|].
  simpl in Hd. destruct (decide (c = "-"%char)) as [|Hc]; [done|].
  simpl. rewrite decide_False by done. by rewrite IH.
Qed.

Lemma trim_start_dash d rest :
  trim_start (String.append d (String "-"%char rest))
    = String.append (trim_start d) (String "-"%char rest).
Proof.
  induction d as [|c d IH]; [done|].
  rewrite app_String. simpl. destruct (is_space c); [done|]. by rewrite app_String.
Qed.

Lemma trim_start_idem s : trim_start (trim_start s) = trim_start s.
Proof.
  induction s as [|c s IH]; [done|]. simpl.
  destruct (is_space c) eqn:Hc; [done|]. simpl. by rewrite Hc.
Qed.

Lemma trim_start_dash_free s : dash_free s = true → dash_free (trim_start s) = true.
Proof.
  induction s as [|c s IH]; [done|]. simpl.
  destruct (decide (c = "-"%char)); [done|]. intros Hs.
  destruct (is_space c); [by apply IH|]. simpl. by rewrite decide_False.
Qed.

Lemma app_nonempty s t : t ≠ EmptyString → String.append s t ≠ EmptyString.
Proof. by destruct s. Qed.

Lemma trim_end_app s t :
  trim_end t ≠ EmptyString → trim_end (String.append s t) = String.append s (trim_end t).
Proof.
  intros Ht. induction s as [|c s IH]; [done|].
  rewrite !app_String. simpl. rewrite IH.
  pose proof (app_nonempty s _ Ht) as Hne.
  by destruct (String.append s (trim_end t)).
Qed.

Lemma parseInt_trim_start s : parseInt (trim_start s) = parseInt s.
Proof. unfold parseInt. by rewrite trim_start_idem. Qed.

(** What the helpers need to know about a two-digit year. *)
Lemma two_digits_facts y :
  0 ≤ y < 100 →
  parseInt (two_digits y) = Some y
  ∧ trim_end (two_digits y) = two_digits y
  ∧ dash_free (two_digits y) = true
  ∧ two_digits y ≠ EmptyString.
Proof.
  intros Hy. assert (∃ n : nat, y = Z.of_nat n ∧ (n < 100)%nat) as (n & -> & Hn).
  { exists (Z.to_nat y). lia. }
  clear Hy. do 100 (destruct n as [|n]; [by vm_compute|]). lia.
Qed.

Lemma trim_end_dash rest :
  trim_end rest ≠ EmptyString →
  trim_end (String "-"%char rest) = String "-"%char (trim_end rest).
Proof. intros Hr. simpl. by destruct (trim_end rest). Qed.

Variables (today : JsDate) (d m : string) (y : Z).
Hypothesis year_nonneg : 0 ≤ getFullYear today.
Hypothesis two_digit : 0 ≤ y < 100.
Hypothesis d_free : dash_free d = true.
Hypothesis m_free : dash_free m = true.

Lemma birth_string_trim :
  trim (birth_string d m y)
    = String.append (trim_start d)
        (String "-"%char (String.append m (String "-"%char (two_digits y)))).
Proof.
  destruct (two_digits_facts y two_digit) as (_ & Hte & _ & Hne).
  unfold trim, birth_string. rewrite trim_start_dash.
  assert (H1 : trim_end (String "-"%char (two_digits y)) = String "-"%char (two_digits y)).
  { rewrite trim_end_dash; by rewrite Hte. }
  assert (H2 : trim_end (String.append m (String "-"%char (two_digits y)))
               = String.append m (String "-"%char (two_digits y))).
  { rewrite trim_end_app; by rewrite H1. }
  assert (H3 : trim_end (String "-"%char (String.append m (String "-"%char (two_digits y))))
               = String "-"%char (String.append m (String "-"%char (two_digits y)))).
  { rewrite trim_end_dash; rewrite H2; [done|]. by apply app_nonempty. }
  rewrite trim_end_app; by rewrite H3.
Qed.

Lemma birth_string_split s0 :
  dash_free s0 = true →
  split_dash (String.append s0
                (String "-"%char (String.append m (String "-"%char (two_digits y)))))
    = [s0; m; two_digits y].
Proof.
  intros Hs0. destruct (two_digits_facts y two_digit) as (_ & _ & Hfree & _).
  rewrite split_dash_piece by done. rewrite split_dash_piece by done.
  by rewrite split_dash_last.
Qed.

(** The pivot step of the program on a parsed two-digit year is the
    rule of the specification. *)
Lemma pivot_step :
  (if decide (Z.rem (getFullYear today) 100 + 10 < y)
   then 1900 + y else 2000 + y) = pivot_rule_spec (getFullYear today) y.
Proof. unfold pivot_rule_spec. by rewrite Z.rem_mod_nonneg by lia. Qed.

End BirthStrings.

(** C9. For a birth string day-month-yy whose two-digit year is [y], in
    any non-negative current year, [formatDate] prints, and
    [getBirthYearFromBirth] returns, the year given by the pivot rule, and
    [getAgeFromBirth] computes the age from a birth date in that year. *)
Theorem two_digit_year_pivot (today : JsDate) (d m : string) (y : Z) :
  (0 ≤ getFullYear today)%Z → (0 ≤ y < 100)%Z →
  dash_free d = true → dash_free m = true →
  formatDate today (birth_string d m y)
    = String.append d (String "-"%char (String.append m (String "-"%char
        (pretty (pivot_rule_spec (getFullYear today) y)))))
  ∧ getBirthYearFromBirth today (birth_string d m y)
    = Some (pivot_rule_spec (getFullYear today) y)
  ∧ getAgeFromBirth today (birth_string d m y)
    = match months (slice3 (toUpperCase m)), parseInt d with
      | Some month, Some day =>
          age_on today (Some (pivot_rule_spec (getFullYear today) y)) month day
      | _, _ => None
      end.
Proof.
  intros Hyear Hy Hd Hm.
  destruct (two_digits_facts y Hy) as (Hparse & _ & _ & _).
  assert (Hlt : (y < 100)%Z) by lia.
  pose proof (pivot_step today y Hyear) as Hpivot.
  assert (Htrim := birth_string_trim d m y Hy).
  assert (Hne : trim (birth_string d m y) ≠ "").
  { rewrite Htrim. by apply app_nonempty. }
  split_and!.
  - unfold formatDate. rewrite decide_False by (by apply app_nonempty).
    unfold birth_string. rewrite (birth_string_split m y Hy Hm d Hd).
    rewrite Hparse. rewrite decide_True by done. simpl number_to_string.
    by rewrite Hpivot.
  - unfold getBirthYearFromBirth. rewrite decide_False by done. rewrite Htrim.
    rewrite (birth_string_split m y Hy Hm _ (trim_start_dash_free d Hd)).
    rewrite Hparse. rewrite decide_True by done. by rewrite Hpivot.
  - unfold getAgeFromBirth. rewrite decide_False by done. rewrite Htrim.
    rewrite (birth_string_split m y Hy Hm _ (trim_start_dash_free d Hd)).
    rewrite parseInt_trim_start, Hparse.
    destruct (months _) as [month|]; [|done].
    destruct (parseInt d) as [day|]; [|done].
    rewrite decide_True by done. by rewrite Hpivot.
Qed.

Lemma two_digit_year_pivot_witness :
  formatDate (mkDate 2025 10 3) "10-MAY-80" = "10-MAY-1980"
  ∧ getBirthYearFromBirth (mkDate 2025 10 3) "10-MAY-22" = Some 2022%Z.
Proof.
  split.
  - apply (two_digit_year_pivot (mkDate 2025 10 3) "10" "MAY" 80); by vm_compute.
  - apply (two_digit_year_pivot (mkDate 2025 10 3) "10" "MAY" 22); by vm_compute.
Defined.

(** ** Upcoming birthdays *)

Lemma upcoming_none_for_empty_window today people :
  getUpcomingBirthdays today people 0 = [].
Proof. reflexivity. Qed.

Lemma upcoming_entries_nonempty today people daysAhead entry :
  entry ∈ getUpcomingBirthdays today people daysAhead → persons entry ≠ [].
Proof. unfold getUpcomingBirthdays. by intros [? _]%list_elem_of_filter. Qed.

(** C4 at the failing input: on 9 January 2025 with a window of two days
    the entry of 10 January comes before the entry of 9 January, because
    the keys are sorted as strings. *)
Theorem upcoming_sorted_as_strings :
  (λ e, (dateStr e, date e)) <$> getUpcomingBirthdays (mkDate 2025 0 9) january_births 2
    = [ ("10-JAN-2025", mkDate 2025 0 10); ("9-JAN-2025", mkDate 2025 0 9) ].
Proof. vm_compute. reflexivity. Qed.

(** ** Reading the heap *)
Section HeapReads.

Implicit Types (h : gmap positive HObj).

Lemma alloc_spec h o :
  ((alloc h o).1 ∉ dom h) ∧ (alloc h o).2 = <[(alloc h o).1 := o]> h.
Proof. split; [apply is_fresh|done]. Qed.

Lemma read_person_mono h h' l r :
  h ⊆ h' → read_person h l = Some r → read_person h' l = Some r.
Proof.
  intros Hsub. unfold read_person.
  destruct (h !! l) as [x|] eqn:Hl; [|done].
  by rewrite (lookup_weaken _ _ _ _ Hl Hsub).
Qed.

Lemma read_array_mono h h' l r :
  h ⊆ h' → read_array h l = Some r → read_array h' l = Some r.
Proof.
  intros Hsub. unfold read_array.
  destruct (h !! l) as [x|] eqn:Hl; [|done].
  by rewrite (lookup_weaken _ _ _ _ Hl Hsub).
Qed.

Lemma abs_person_mono h h' o p :
  h ⊆ h' → abs_person h o = Some p → abs_person h' o = Some p.
Proof.
  intros Hsub. unfold abs_person. destruct (pids o) as [a|]; [|done].
  destruct (read_array h a) as [ps|] eqn:Ha; [|done].
  by rewrite (read_array_mono _ _ _ _ Hsub Ha).
Qed.

Lemma snapshot_mono h h' c n :
  h ⊆ h' → snapshot h c = Some n → snapshot h' c = Some n.
Proof.
  intros Hsub. unfold snapshot.
  destruct (read_person h c) as [r|] eqn:Hr; [|done].
  rewrite (read_person_mono _ _ _ _ Hsub Hr). simpl.
  destruct (abs_person h r.1) as [p|] eqn:Hp; [|done].
  by rewrite (abs_person_mono _ _ _ _ Hsub Hp).
Qed.

Lemma abs_person_fields h o p :
  abs_person h o = Some p →
  id p = id o ∧ name p = name o ∧ fid p = fid o ∧ mid p = mid o
  ∧ Birth p = Birth o ∧ phone p = phone o ∧ image_url p = image_url o
  ∧ other p = other o
  ∧ pids p = (pids o ≫= read_array h).
Proof.
  unfold abs_person. destruct (pids o) as [a|]; simpl.
  - destruct (read_array h a) as [ps|]; [|done]. by intros [= <-].
  - by intros [= <-].
Qed.

(** A write at [c] and new objects elsewhere leave the snapshot of
    every other node as it was. *)
Lemma snapshot_stable h h' c c' o shown n :
  h !! c = Some (HPerson o shown) →
  (∀ l x, l ≠ c → h !! l = Some x → h' !! l = Some x) →
  c' ≠ c → snapshot h c' = Some n → snapshot h' c' = Some n.
Proof.
  intros Hc Hsame Hne. unfold snapshot, read_person.
  destruct (h !! c') as [[o' shown'|]|] eqn:Hc'; try done.
  rewrite (Hsame c' _ Hne Hc'). simpl.
  unfold abs_person. destruct (pids o') as [a|]; [|done].
  unfold read_array. destruct (h !! a) as [[|ps]|] eqn:Ha; try done.
  assert (a ≠ c) by (intros ->; congruence).
  by rewrite (Hsame a _ ltac:(done) Ha).
Qed.

End HeapReads.

(** ** One call of [getFamilySet] on the heap *)
Section HeapExtractFacts.

Variables (hs : HeapStore) (h0 : gmap positive HObj).
Hypothesis wf0 : heap_wf hs h0.

Local Abbreviation S0 := (abs_store hs h0).

(** The copy at [e.2], not yet sanitized, of the person [pe.2]. *)
Local Abbreviation copy_of h :=
  (λ (e : string * positive) (pe : string * Person),
     e.1 = pe.1 ∧ (e.2 ∉ dom h0)
     ∧ ∃ o shown, h !! e.2 = Some (HPerson o shown) ∧ abs_person h0 o = Some pe.2).

Lemma wf_person i l :
  h_peopleMap hs !! i = Some l →
  ∃ o shown p, read_person h0 l = Some (o, shown) ∧ abs_person h0 o = Some p
               ∧ peopleMap S0 !! i = Some p.
Proof.
  intros Hl. destruct wf0 as [Hp _]. specialize (Hp i l Hl). simpl in Hp.
  unfold person_ok in Hp.
  destruct (read_person h0 l) as [[o shown]|] eqn:Hr; [|done].
  assert (∃ p, abs_person h0 o = Some p) as [p Hpo].
  { unfold abs_person. destruct (pids o) as [a|]; [|by eexists].
    apply bool_decide_eq_true in Hp as [ps ->]. by eexists. }
  exists o, shown, p. split_and!; try done.
  simpl. rewrite lookup_omap, Hl. simpl. rewrite Hr. done.
Qed.

Lemma wf_no_person i : h_peopleMap hs !! i = None → peopleMap S0 !! i = None.
Proof. intros Hl. simpl. by rewrite lookup_omap, Hl. Qed.

Lemma wf_children i :
  childrenMap S0 !! i = (h_childrenMap hs !! i ≫= read_array h0)
  ∧ (∀ a, h_childrenMap hs !! i = Some a → is_Some (read_array h0 a)).
Proof.
  split; [simpl; by rewrite lookup_omap|].
  intros a Ha. destruct wf0 as [_ Hc]. by apply (Hc i a).
Qed.

Lemma h_addNode_step fs h pfs i :
  h0 ⊆ h → Forall2 (copy_of h) fs pfs → NoDup fs.*2 →
  ∃ fs' h',
    h_addNode hs (fs, h) i = Some (fs', h')
    ∧ h0 ⊆ h' ∧ Forall2 (copy_of h') fs' (addNode (peopleMap S0) pfs i)
    ∧ NoDup fs'.*2.
Proof.
  intros Hsub Hrel Hnd. unfold h_addNode, addNode.
  destruct (h_peopleMap hs !! i) as [l|] eqn:Hl.
  2:{ rewrite (wf_no_person i Hl). by exists fs, h. }
  destruct (wf_person i l Hl) as (o & shown & p & Hr & Hp & ->).
  assert (Hkeys : fs.*1 = pfs.*1).
  { clear -Hrel. induction Hrel as [|e pe fs pfs (He & _) _ IH]; [done|].
    csimpl. by rewrite He, IH. }
  simpl. rewrite Hkeys.
  destruct (decide (i ∈ pfs.*1)) as [Hin|Hout]; [by exists fs, h|].
  rewrite (read_person_mono _ _ _ _ Hsub Hr). simpl.
  pose proof (is_fresh (dom h)) as Hfresh. set (c := fresh (dom h)) in *.
  assert (Hnone : h !! c = None) by by apply not_elem_of_dom.
  exists (fs ++ [(i, c)]), (<[c := HPerson o shown]> h). split_and!.
  - done.
  - etrans; [exact Hsub|]. by apply insert_subseteq.
  - apply Forall2_app.
    + eapply Forall2_impl; [exact Hrel|]. intros e pe (He & Hd & o' & sh' & Ho' & Hab).
      split_and!; try done. exists o', sh'. split; [|done].
      rewrite lookup_insert_ne; [done|]. intros Heq. rewrite <- Heq in Ho'. congruence.
    + constructor; [|constructor]. simpl. split_and!; try done.
      * intros Hd. apply Hfresh. apply elem_of_dom. apply elem_of_dom in Hd as [x Hx].
        exists x. by apply (lookup_weaken _ _ _ _ Hx Hsub).
      * exists o, shown. by rewrite lookup_insert_eq.
  - rewrite fmap_app. apply NoDup_app. split_and!; [done| |apply NoDup_singleton].
    intros c' Hc' Hin. apply list_elem_of_singleton in Hin. simpl in Hin. subst c'.
    apply list_elem_of_fmap in Hc' as (e & Heq & He).
    apply list_elem_of_lookup in He as [k Hk].
    destruct (Forall2_lookup_l _ _ _ _ _ Hrel Hk) as (pe & _ & _ & _ & o' & sh' & Ho' & _).
    rewrite <- Heq in Ho'. congruence.
Qed.

Lemma h_addNode_fold ids fs h pfs :
  h0 ⊆ h → Forall2 (copy_of h) fs pfs → NoDup fs.*2 →
  ∃ fs' h',
    foldlM (h_addNode hs) (fs, h) ids = Some (fs', h')
    ∧ h0 ⊆ h' ∧ Forall2 (copy_of h') fs' (foldl (addNode (peopleMap S0)) pfs ids)
    ∧ NoDup fs'.*2.
Proof.
  revert fs h pfs. induction ids as [|i ids IH]; intros fs h pfs Hsub Hrel Hnd.
  - by exists fs, h.
  - destruct (h_addNode_step fs h pfs i Hsub Hrel Hnd) as (fs1 & h1 & Hrun & Hs1 & Hr1 & Hn1).
    destruct (IH fs1 h1 _ Hs1 Hr1 Hn1) as (fs2 & h2 & Hrun2 & ?).
    exists fs2, h2. split; [|done]. simpl. rewrite Hrun. done.
Qed.

Lemma h_collect_spec c l o shown p :
  h_peopleMap hs !! c = Some l →
  read_person h0 l = Some (o, shown) → abs_person h0 o = Some p →
  ∃ fs h',
    h_collect hs c o h0 = Some (fs, h')
    ∧ h0 ⊆ h' ∧ Forall2 (copy_of h') fs (collect S0 c p) ∧ NoDup fs.*2.
Proof.
  intros Hl Hr Hp. unfold h_collect, collect.
  destruct (abs_person_fields h0 o p Hp) as (_ & _ & Hfid & Hmid & _ & _ & _ & _ & Hpids).
  rewrite Hfid, Hmid, Hpids.
  destruct (h_addNode_step [] h0 [] c (reflexivity _) ltac:(constructor) (NoDup_nil_2))
    as (fs0 & h1 & -> & Hs0 & Hr0 & Hn0). simpl.
  assert (∃ fs1 h2,
    match js_ref (fid o) with
    | Some f => h_addNode hs (fs0, h1) f
    | None => Some (fs0, h1)
    end = Some (fs1, h2)
    ∧ h0 ⊆ h2
    ∧ Forall2 (copy_of h2) fs1
        match js_ref (fid o) with
        | Some f => addNode (peopleMap S0) (addNode (peopleMap S0) [] c) f
        | None => addNode (peopleMap S0) [] c
        end
    ∧ NoDup fs1.*2) as (fs1 & h2 & -> & Hs1 & Hr1 & Hn1).
  { destruct (js_ref (fid o)) as [f|]; [by apply h_addNode_step|by exists fs0, h1]. }
  simpl.
  set (pfs1 := match js_ref (fid o) with
               | Some f => addNode (peopleMap S0) (addNode (peopleMap S0) [] c) f
               | None => addNode (peopleMap S0) [] c
               end) in *.
  assert (∃ fs2 h3,
    match js_ref (mid o) with
    | Some m => h_addNode hs (fs1, h2) m
    | None => Some (fs1, h2)
    end = Some (fs2, h3)
    ∧ h0 ⊆ h3
    ∧ Forall2 (copy_of h3) fs2
        match js_ref (mid o) with
        | Some m => addNode (peopleMap S0) pfs1 m
        | None => pfs1
        end
    ∧ NoDup fs2.*2) as (fs2 & h3 & -> & Hs2 & Hr2 & Hn2).
  { destruct (js_ref (mid o)) as [m|]; [by apply h_addNode_step|by exists fs1, h2]. }
  simpl.
  set (pfs2 := match js_ref (mid o) with
               | Some m => addNode (peopleMap S0) pfs1 m
               | None => pfs1
               end) in *.
  assert (∃ fs3 h4,
    match pids o with
    | Some a => ps ← read_array h3 a; foldlM (h_addNode hs) (fs2, h3) ps
    | None => Some (fs2, h3)
    end = Some (fs3, h4)
    ∧ h0 ⊆ h4
    ∧ Forall2 (copy_of h4) fs3
        match pids o ≫= read_array h0 with
        | Some ps => foldl (addNode (peopleMap S0)) pfs2 ps
        | None => pfs2
        end
    ∧ NoDup fs3.*2) as (fs3 & h4 & -> & Hs3 & Hr3 & Hn3).
  { destruct (pids o) as [a|] eqn:Ha; simpl; [|by exists fs2, h3].
    unfold abs_person in Hp. rewrite Ha in Hp.
    destruct (read_array h0 a) as [ps|] eqn:Hps; [|done].
    rewrite (read_array_mono _ _ _ _ Hs2 Hps). simpl.
    by apply h_addNode_fold. }
  simpl.
  set (pfs3 := match pids o ≫= read_array h0 with
               | Some ps => foldl (addNode (peopleMap S0)) pfs2 ps
               | None => pfs2
               end) in *.
  destruct (wf_children c) as [Heq Hch]. simpl in Heq. rewrite Heq. clear Heq.
  destruct (h_childrenMap hs !! c) as [a|]; simpl; [|by exists fs3, h4].
  destruct (Hch a eq_refl) as [cs Hcs]. rewrite Hcs.
  rewrite (read_array_mono _ _ _ _ Hs3 Hcs). simpl.
  by apply h_addNode_fold.
Qed.

(** The node that the call leaves for the person [p]. *)
Local Abbreviation node_of nodeIds p :=
  (display (getGender S0 (id (sanitize nodeIds p))) (sanitize nodeIds p)).

Lemma node_of_eq nodeIds p g icon initials label :
  display_fields g (name p) (image_url p) = (icon, initials, label) →
  display g (sanitize nodeIds p) = mkNode (sanitize nodeIds p) icon initials label.
Proof.
  intros Hd. unfold display.
  change (name (sanitize nodeIds p)) with (name p).
  change (image_url (sanitize nodeIds p)) with (image_url p).
  by rewrite Hd.
Qed.

Lemma h_sanitize_step nodeIds h c p :
  h0 ⊆ h → c ∉ dom h0 →
  (∃ o shown, h !! c = Some (HPerson o shown) ∧ abs_person h0 o = Some p) →
  ∃ h',
    h_sanitize hs nodeIds h c = Some h'
    ∧ h0 ⊆ h'
    ∧ snapshot h' c = Some (node_of nodeIds p)
    ∧ (∀ l x, l ≠ c → h !! l = Some x → h' !! l = Some x).
Proof.
  intros Hsub Hc (o & shown & Ho & Hp). unfold h_sanitize, read_person.
  rewrite Ho. simpl.
  destruct (abs_person_fields h0 o p Hp)
    as (Hid & Hname & Hfid & Hmid & HB & Hph & Him & Hot & Hpids).
  assert (Hc0 : h0 !! c = None) by by apply not_elem_of_dom.
  assert (Hgender : match h_genderMap hs !! id o with Some g => g | None => U end
                    = getGender S0 (id (sanitize nodeIds p))).
  { unfold getGender. simpl. by rewrite Hid. }
  rewrite Hgender, <- Hname, <- Him, <- Hfid, <- Hmid, <- Hid, <- HB, <- Hph, <- Hot.
  destruct (display_fields (getGender S0 (id (sanitize nodeIds p))) (name p) (image_url p))
    as [[icon initials] label] eqn:Hd.
  rewrite (node_of_eq nodeIds p (getGender S0 (id p)) icon initials label Hd).
  assert (Hother : ∀ (h1 : gmap positive HObj) x' (l : positive) x,
            l ≠ c → h1 !! l = Some x → <[c := x']> h1 !! l = Some x).
  { intros h1 x' l x Hl Hx. by rewrite lookup_insert_ne. }
  destruct (pids o) as [a|] eqn:Ha.
  - simpl in Hpids.
    destruct (read_array h0 a) as [ps|] eqn:Hps;
      [|by unfold abs_person in Hp; rewrite Ha, Hps in Hp].
    assert (Hha : h !! a = Some (HArray ps)).
    { unfold read_array in Hps. destruct (h0 !! a) as [[|ps']|] eqn:H0a; try done.
      simplify_eq. by apply (lookup_weaken _ _ _ _ H0a Hsub). }
    rewrite Hha. simpl.
    pose proof (is_fresh (dom h)) as Hfresh. set (a' := fresh (dom h)) in *.
    assert (Hnone : h !! a' = None) by by apply not_elem_of_dom.
    assert (Hne : a' ≠ c) by (intros Heq; rewrite Heq in Hnone; congruence).
    eexists. split_and!; [done| | |].
    + apply insert_subseteq_r; [done|]. apply insert_subseteq_r; [|done].
      destruct (h0 !! a') as [x|] eqn:H0; [|done].
      by rewrite (lookup_weaken _ _ _ _ H0 Hsub) in Hnone.
    + unfold snapshot, read_person. rewrite lookup_insert_eq. simpl.
      unfold abs_person, read_array. simpl.
      rewrite lookup_insert_ne by done. rewrite lookup_insert_eq. simpl.
      unfold sanitize. by rewrite Hpids.
    + intros l x Hl Hx. apply Hother; [done|].
      rewrite lookup_insert_ne; [done|]. intros <-. congruence.
  - simpl in Hpids. simpl.
    eexists. split_and!; [done| | |].
    + by apply insert_subseteq_r.
    + unfold snapshot, read_person. rewrite lookup_insert_eq. simpl.
      unfold sanitize. by rewrite Hpids.
    + intros l x Hl Hx. by apply Hother.
Qed.

Lemma Forall2_impl_elem {A B} (P Q : A → B → Prop) l k :
  Forall2 P l k → (∀ x y, x ∈ l → P x y → Q x y) → Forall2 Q l k.
Proof.
  induction 1 as [|x y l k Hxy _ IH]; intros Himp; constructor.
  - apply Himp; [apply list_elem_of_here|done].
  - apply IH. intros x' y' Hin. apply Himp. by apply list_elem_of_further.
Qed.

(** The [nodes.map] pass: [finished] are the copies already sanitized. *)
Lemma h_sanitize_fold nodeIds cs ps finished fin_ps h :
  h0 ⊆ h → NoDup (finished ++ cs) →
  Forall2 (λ c p, (c ∉ dom h0) ∧
             ∃ o shown, h !! c = Some (HPerson o shown) ∧ abs_person h0 o = Some p) cs ps →
  Forall2 (λ c p, snapshot h c = Some (node_of nodeIds p)) finished fin_ps →
  ∃ h',
    foldlM (h_sanitize hs nodeIds) h cs = Some h'
    ∧ h0 ⊆ h'
    ∧ Forall2 (λ c p, snapshot h' c = Some (node_of nodeIds p))
        (finished ++ cs) (fin_ps ++ ps).
Proof.
  revert ps finished fin_ps h.
  induction cs as [|c cs IH]; intros ps finished fin_ps h Hsub Hnd Hcs Hfin.
  - apply Forall2_nil_inv_l in Hcs as ->. exists h. by rewrite !app_nil_r.
  - apply Forall2_cons_inv_l in Hcs as (p & ps' & (Hc & Hcopy) & Hrest & ->).
    destruct (h_sanitize_step nodeIds h c p Hsub Hc Hcopy)
      as (h1 & Hrun & Hs1 & Hsnap & Hsame).
    destruct Hcopy as (o & shown & Ho & _).
    assert (Hnd' : NoDup ((finished ++ [c]) ++ cs)) by by rewrite <- app_assoc.
    apply NoDup_app in Hnd as (_ & Hdisj & Hndc).
    apply NoDup_cons in Hndc as [Hcc _].
    destruct (IH ps' (finished ++ [c]) (fin_ps ++ [p]) h1 Hs1 Hnd')
      as (h2 & Hrun2 & Hs2 & Hall).
    + apply (Forall2_impl_elem _ _ _ _ Hrest).
      intros c' p' Hin (Hc' & o' & sh' & Ho' & Hp'). split; [done|].
      exists o', sh'. split; [|done]. apply Hsame; [|done]. by intros ->.
    + apply Forall2_app; [|by repeat constructor].
      apply (Forall2_impl_elem _ _ _ _ Hfin).
      intros c' p' Hin Hsn. apply (snapshot_stable h h1 c c' o shown); try done.
      intros ->. apply (Hdisj c Hin). apply list_elem_of_here.
    + exists h2. split_and!; try done.
      * simpl. by rewrite Hrun.
      * by rewrite <- !app_assoc in Hall.
Qed.

(** One call: it returns, leaves every object of the heap it started
    from untouched, and its nodes are new objects that denote the nodes
    computed on the store the heap denotes. *)
Lemma h_getFamilySet_spec centerId :
  ∃ r h1,
    h_getFamilySet hs centerId h0 = Some (r, h1)
    ∧ h0 ⊆ h1
    ∧ NoDup r
    ∧ (∀ c, c ∈ r → c ∉ dom h0)
    ∧ Forall2 (λ c n, snapshot h1 c = Some n) r (getFamilySet S0 centerId).
Proof.
  unfold h_getFamilySet, getFamilySet.
  destruct (h_peopleMap hs !! centerId) as [l|] eqn:Hl.
  2:{ rewrite (wf_no_person centerId Hl). exists [], h0.
      split_and!; [done|done|constructor| |constructor].
      intros c Hc. by apply not_elem_of_nil in Hc. }
  destruct (wf_person centerId l Hl) as (o & shown & p & Hr & Hp & Hpm).
  rewrite Hpm, Hr. simpl.
  destruct (h_collect_spec centerId l o shown p Hl Hr Hp) as (fs & h1 & -> & Hs1 & Hrel & Hnd).
  simpl. set (pfs := collect S0 centerId p) in *.
  assert (Hids : mapM (λ c, (λ r : PersonOf positive * _, id r.1) <$> read_person h1 c) fs.*2
                 = Some (id <$> pfs.*2)).
  { apply mapM_Some. rewrite <- list_fmap_compose. apply Forall2_fmap.
    eapply Forall2_impl; [exact Hrel|].
    intros e pe (_ & _ & o' & sh' & Ho' & Hab). simpl.
    unfold read_person. rewrite Ho'. simpl.
    by destruct (abs_person_fields h0 o' pe.2 Hab) as (-> & _). }
  rewrite Hids. simpl.
  destruct (h_sanitize_fold (id <$> pfs.*2) fs.*2 pfs.*2 [] [] h1 Hs1 Hnd)
    as (h2 & -> & Hs2 & Hall).
  { apply Forall2_fmap. eapply Forall2_impl; [exact Hrel|].
    intros e pe (_ & Hd & Hcopy). done. }
  { constructor. }
  simpl. exists fs.*2, h2. split_and!; try done.
  - intros c Hc. apply list_elem_of_fmap in Hc as (e & -> & He).
    apply list_elem_of_lookup in He as [k Hk].
    by destruct (Forall2_lookup_l _ _ _ _ _ Hrel Hk) as (pe & _ & _ & ? & _).
  - simpl in Hall. by apply Forall2_fmap_r.
Qed.

End HeapExtractFacts.

(** ** Two calls in a row *)
Section HeapExtractTwice.

Variable hs : HeapStore.

Lemma heap_wf_mono h h' : heap_wf hs h → h ⊆ h' → heap_wf hs h'.
Proof.
  intros [Hp Hc] Hsub. split.
  - intros i l Hl. specialize (Hp i l Hl). simpl in *. unfold person_ok in *.
    destruct (read_person h l) as [[o shown]|] eqn:Hr; [|done].
    rewrite (read_person_mono _ _ _ _ Hsub Hr).
    destruct (pids o) as [a|]; [|done].
    apply bool_decide_eq_true in Hp as [ps Hps]. apply bool_decide_eq_true.
    rewrite (read_array_mono _ _ _ _ Hsub Hps). by eexists.
  - intros i a Ha. destruct (Hc i a Ha) as [cs Hcs].
    rewrite (read_array_mono _ _ _ _ Hsub Hcs). by eexists.
Qed.

Lemma abs_store_mono h h' : heap_wf hs h → h ⊆ h' → abs_store hs h' = abs_store hs h.
Proof.
  intros Hwf Hsub. unfold abs_store. f_equal.
  - apply map_eq. intros i. rewrite !lookup_omap.
    destruct (h_peopleMap hs !! i) as [l|] eqn:Hl; [|done]. simpl.
    destruct (wf_person hs h Hwf i l Hl) as (o & shown & p & Hr & Hp & _).
    rewrite Hr, (read_person_mono _ _ _ _ Hsub Hr). simpl.
    by rewrite Hp, (abs_person_mono _ _ _ _ Hsub Hp).
  - apply map_eq. intros i. rewrite !lookup_omap.
    destruct (h_childrenMap hs !! i) as [a|] eqn:Ha; [|done]. simpl.
    destruct Hwf as [_ Hc]. destruct (Hc i a Ha) as [cs Hcs].
    by rewrite Hcs, (read_array_mono _ _ _ _ Hsub Hcs).
Qed.

Lemma snapshot_in_dom h c n : snapshot h c = Some n → c ∈ dom h.
Proof.
  unfold snapshot, read_person. destruct (h !! c) eqn:Hc; [|done].
  intros _. apply elem_of_dom. by eexists.
Qed.

End HeapExtractTwice.

(** C7. On a well-formed heap two calls in a row both return; the nodes
    of the second call denote the same list of nodes as those of the
    first, which the second call leaves as they were; no node object is
    shared between the two results or with the heap before the calls; and
    every object of that heap, so every person record and every array of
    the store, is the same after both calls. *)
Theorem extract_repeatable (hs : HeapStore) (h0 : gmap positive HObj) (centerId : string) :
  heap_wf hs h0 →
  ∃ r1 h1 r2 h2,
    h_getFamilySet hs centerId h0 = Some (r1, h1)
    ∧ h_getFamilySet hs centerId h1 = Some (r2, h2)
    ∧ mapM (snapshot h1) r1 = Some (getFamilySet (abs_store hs h0) centerId)
    ∧ mapM (snapshot h2) r2 = Some (getFamilySet (abs_store hs h0) centerId)
    ∧ mapM (snapshot h2) r1 = Some (getFamilySet (abs_store hs h0) centerId)
    ∧ NoDup (r1 ++ r2)
    ∧ (∀ c, c ∈ r1 ++ r2 → c ∉ dom h0)
    ∧ h0 ⊆ h2
    ∧ abs_store hs h2 = abs_store hs h0.
Proof.
  intros Hwf.
  destruct (h_getFamilySet_spec hs h0 Hwf centerId) as (r1 & h1 & Hrun1 & Hs1 & Hnd1 & Hnew1 & Hsnap1).
  pose proof (heap_wf_mono hs h0 h1 Hwf Hs1) as Hwf1.
  destruct (h_getFamilySet_spec hs h1 Hwf1 centerId) as (r2 & h2 & Hrun2 & Hs2 & Hnd2 & Hnew2 & Hsnap2).
  rewrite (abs_store_mono hs h0 h1 Hwf Hs1) in Hsnap2.
  assert (Hs02 : h0 ⊆ h2) by (by etrans).
  exists r1, h1, r2, h2. split_and!; try done.
  - by apply mapM_Some.
  - by apply mapM_Some.
  - apply mapM_Some. eapply Forall2_impl; [exact Hsnap1|].
    intros c n Hc. by apply (snapshot_mono h1 h2).
  - apply NoDup_app. split_and!; try done.
    intros c Hc1 Hc2. apply (Hnew2 c Hc2).
    apply list_elem_of_lookup in Hc1 as [k Hk].
    destruct (Forall2_lookup_l _ _ _ _ _ Hsnap1 Hk) as (n & _ & Hn).
    by apply snapshot_in_dom in Hn.
  - intros c [Hc|Hc]%elem_of_app; [by apply Hnew1|].
    intros Hd. apply (Hnew2 c Hc). apply elem_of_dom in Hd as [x Hx].
    apply elem_of_dom. exists x. by apply (lookup_weaken _ _ _ _ Hx Hs1).
  - by apply abs_store_mono.
Qed.

Lemma extract_repeatable_witness :
  ∃ r1 h1 r2 h2,
    h_getFamilySet small_store "P" small_heap = Some (r1, h1)
    ∧ h_getFamilySet small_store "P" h1 = Some (r2, h2)
    ∧ mapM (snapshot h1) r1 = Some (getFamilySet (abs_store small_store small_heap) "P")
    ∧ mapM (snapshot h2) r2 = Some (getFamilySet (abs_store small_store small_heap) "P")
    ∧ mapM (snapshot h2) r1 = Some (getFamilySet (abs_store small_store small_heap) "P")
    ∧ NoDup (r1 ++ r2)
    ∧ (∀ c, c ∈ r1 ++ r2 → c ∉ dom small_heap)
    ∧ small_heap ⊆ h2
    ∧ abs_store small_store h2 = abs_store small_store small_heap.
Proof.
  apply (extract_repeatable small_store small_heap "P").
  apply (bool_decide_unpack _). vm_compute. exact I.
Defined.

Example extract_shares_no_array :
  (λ r, (r.1, r.2 !! 8%positive, r.2 !! 5%positive, r.2 !! 1%positive))
    <$> h_getFamilySet small_store "P" small_heap
  = Some ([8; 9; 10]%positive,
          Some (HPerson (mkPerson "P" "P" None None (Some 11%positive) "" "" "" [])
                        (Some (MaleIcon, "", "P"))),
          Some (HPerson (mkPerson "P" "P" (Some "G1") None (Some 1%positive) "" "" "" []) None),
          Some (HArray ["Q"])).
Proof. vm_compute. reflexivity. Qed.

(** ** What the walks return *)
Section WalkResults.

Variable succ : string → list string.

Lemma is_walk_single x : is_walk succ x x [x].
Proof.
  split_and!; [done|done|]. intros [|i] v w ? Hw; simplify_eq/=.
Qed.

Lemma is_walk_push x v w path :
  is_walk succ x v path → w ∈ succ v → is_walk succ x w (push_path path w).
Proof.
  intros (Hh & Hl & Hstep) Hw. unfold push_path.
  destruct path as [|y path]; [done|].
  split_and!.
  - done.
  - by rewrite last_snoc.
  - intros i a b Ha Hb.
    destruct (decide (S i < length (y :: path))) as [Hlt|Hge].
    + rewrite lookup_app_l in Ha by lia. rewrite lookup_app_l in Hb by lia.
      by eapply Hstep.
    + assert (i = length path) as ->.
      { apply lookup_lt_Some in Hb. rewrite length_app in Hb. simpl in *. lia. }
      rewrite lookup_app_l in Ha by (simpl; lia).
      change (S (length path)) with (length (y :: path)) in Hb.
      rewrite lookup_app_r in Hb by lia.
      rewrite Nat.sub_diag in Hb. simpl in Hb.
      rewrite last_lookup in Hl. simpl in Hl.
      rewrite Hl in Ha. by simplify_eq.
Qed.

(** A walk has as many steps as its edge count. *)
Lemma is_walk_nsteps path x t :
  is_walk succ x t path → nsteps (edge succ) (hops path) x t.
Proof.
  revert x. induction path as [|y path IH]; intros x (Hh & Hl & Hstep); [done|].
  simpl in Hh. simplify_eq. destruct path as [|z path].
  - simpl in Hl. simplify_eq. constructor.
  - replace (hops (x :: z :: path)) with (S (hops (z :: path)))
      by (unfold hops; simpl; lia).
    apply (nsteps_l _ _ _ z).
    + apply (Hstep 0); done.
    + assert (Hrec : is_walk succ z t (z :: path)).
      { split_and!; [done| |].
        - by rewrite last_cons_cons in Hl.
        - intros i v w Hv Hw. by apply (Hstep (S i)). }
      by apply IH in Hrec.
Qed.

Lemma is_walk_nonempty path x t : is_walk succ x t path → path ≠ [].
Proof. by intros (Hh & _) ->. Qed.

(** Every payload of the path walks is a walk to the id it is queued
    with. *)
Lemma bfs_paths_are_walks target x fuel queue visited r visited' :
  (∀ v p, (v, p) ∈ queue ++ visited → is_walk succ x v p) →
  bfs succ push_path target fuel queue visited = Some (r, visited') →
  ∀ v p, (v, p) ∈ visited' → is_walk succ x v p.
Proof.
  revert queue visited.
  induction fuel as [|fuel IH]; intros queue visited Hinv Hrun; [done|].
  simpl in Hrun. destruct queue as [|[c pc] queue].
  { simplify_eq. intros v p Hin. apply Hinv. by rewrite app_nil_l. }
  simpl in Hrun. case_decide as Hseen.
  { eapply IH; [|exact Hrun]. intros v p Hin. apply Hinv.
    rewrite elem_of_app in Hin. rewrite elem_of_app, elem_of_cons. tauto. }
  assert (Hc : is_walk succ x c pc).
  { apply Hinv. rewrite elem_of_app, elem_of_cons. tauto. }
  case_decide as Htarget.
  { simplify_eq. intros v p Hin. rewrite elem_of_app, list_elem_of_singleton in Hin.
    destruct Hin as [Hin|[= -> ->]]; [|done].
    apply Hinv. rewrite elem_of_app, elem_of_cons. tauto. }
  eapply IH; [|exact Hrun]. intros v p Hin.
  rewrite !elem_of_app, list_elem_of_fmap, list_elem_of_singleton in Hin.
  destruct Hin as [[Hin|(w & [= -> ->] & Hw)]|[Hin|[= -> ->]]].
  - apply Hinv. rewrite elem_of_app, elem_of_cons. tauto.
  - by eapply is_walk_push.
  - apply Hinv. rewrite elem_of_app, elem_of_cons. tauto.
  - done.
Qed.

Lemma bfs_path_result x t fuel visited' r :
  bfs succ push_path (Some t) fuel [(x, [x])] [] = Some (r, visited') →
  match r with
  | Some path => is_walk succ x t path
                 ∧ ∀ path', is_walk succ x t path' → length path ≤ length path'
  | None => ∀ path', ¬ is_walk succ x t path'
  end.
Proof.
  intros Hrun.
  pose proof (bfs_result succ push_path (Some t) (λ p, p ≠ []) hops
                push_path_nonempty hops_push x _ _ _ _ _
                (bfs_inv_init succ (Some t) (λ p, p ≠ []) hops x [x] ltac:(done) eq_refl) Hrun)
    as (_ & _ & Hvis & Hr).
  pose proof (bfs_paths_are_walks (Some t) x fuel [(x, [x])] [] r visited') as Hwalk.
  destruct r as [path|].
  - destruct Hr as (t' & [= <-] & Hin). split.
    + apply (Hwalk); [|done|done]. intros v p Hvp.
      rewrite app_nil_r, list_elem_of_singleton in Hvp. simplify_eq.
      apply is_walk_single.
    + intros path' Hp'. destruct (Hvis _ _ Hin) as (Hne & _ & Hmin).
      pose proof (Hmin _ (is_walk_nsteps _ _ _ Hp')) as Hle.
      apply is_walk_nonempty in Hp'. unfold hops in Hle.
      destruct path, path'; simpl in *; try done; lia.
  - destruct Hr as (Hreach & Ht & _). intros path' Hp'.
    apply (Ht t eq_refl), (Hreach t (hops path')). by apply is_walk_nsteps.
Qed.

End WalkResults.

(** Reading the object that [getAncestors] returns. *)
Lemma getAncestors_own (s : Store) (x : string) :
  ∃ a, getAncestors s x = Some a
    ∧ NoDup a.*1
    ∧ (∀ k d, JsObject.own a k = Some d →
         nsteps (edge (parentsOf s)) d x k
         ∧ (∀ n, nsteps (edge (parentsOf s)) n x k → d ≤ n)
         ∧ is_Some (peopleMap s !! k))
    ∧ (∀ k n, nsteps (edge (parentsOf s)) n x k →
         is_Some (peopleMap s !! k) → k ≠ "__proto__" →
         ∃ d, JsObject.own a k = Some d ∧ d ≤ n).
Proof.
  destruct (getAncestors_spec s x) as (visited & _ & Hget & Hnd & Hvis & Hreach).
  exists (recorded s visited). split_and!.
  - done.
  - rewrite recorded_filter by done.
    eapply sublist_NoDup; [exact Hnd|]. apply fmap_sublist, sublist_filter.
  - intros k d Hown. apply recorded_own in Hown as (Hin & Hk & _); [|done].
    destruct (Hvis _ _ Hin). done.
  - intros k n Hn Hk Hproto.
    pose proof (Hreach _ _ Hn) as Hin.
    apply list_elem_of_fmap in Hin as ([k' d] & -> & Hin).
    exists d. split; [by apply recorded_own|]. by apply (Hvis _ _ Hin).
Qed.

(** X1. [getAncestors] returns for every start id. A key of the object it
    returns carries as depth the least number of parent links that lead
    from the start id to that key, and every person of [peopleMap] that
    parent links lead to is a key, the name ["__proto__"] apart, which the
    assignment of line 489 does not create. *)
Theorem ancestor_depths_are_distances (s : Store) (x : string) :
  ∃ a, getAncestors s x = Some a
    ∧ NoDup a.*1
    ∧ (∀ k d, JsObject.own a k = Some d →
         nsteps (edge (parentsOf s)) d x k
         ∧ ∀ n, nsteps (edge (parentsOf s)) n x k → d ≤ n)
    ∧ (∀ k n, nsteps (edge (parentsOf s)) n x k →
         is_Some (peopleMap s !! k) → k ≠ "__proto__" →
         is_Some (JsObject.own a k)).
Proof.
  destruct (getAncestors_own s x) as (a & Hget & Hnd & Hown & Hreach).
  exists a. split_and!; [done|done| |].
  - intros k d Hk. destruct (Hown _ _ Hk) as (? & ? & _). done.
  - intros k n Hn Hk Hproto. destruct (Hreach _ _ Hn Hk Hproto) as (d & ? & _). by exists d.
Qed.

(** X2. [getAncestorPath] returns for every pair of ids. The array it
    returns starts at the start id, ends at the target, goes from every
    element to one of its parents, and no such array is shorter; it
    returns [null] exactly when no such array exists. *)
Theorem ancestor_path_is_shortest_walk (s : Store) (x t : string) :
  ∃ r, getAncestorPath s x t = Some r
    ∧ match r with
      | Some path =>
          is_walk (parentsOf s) x t path
          ∧ ∀ path', is_walk (parentsOf s) x t path' → length path ≤ length path'
      | None => ∀ path', ¬ is_walk (parentsOf s) x t path'
      end.
Proof.
  destruct (parents_walk_ends s push_path (Some t) (ancestors_fuel s) x [x])
    as [[r visited] Hrun]; [done|].
  exists r. split.
  - unfold getAncestorPath.
    change (getAncestorPath_loop s t (ancestors_fuel s) [(x, [x])] [])
      with (getAncestorPath_loop s t (ancestors_fuel s) [(x, [x])]
              ([] : list (string * list string)).*1).
    by rewrite getAncestorPath_loop_bfs, Hrun.
  - by eapply bfs_path_result.
Qed.

(** X3. [getDescendantPath] returns for every pair of ids. The array it
    returns starts at the ancestor, ends at the target, goes from every
    element to one of the children listed for it in [childrenMap], and no
    such array is shorter; it returns [null] exactly when no such array
    exists. *)
Theorem descendant_path_is_shortest_walk (s : Store) (x t : string) :
  ∃ r, getDescendantPath s x t = Some r
    ∧ match r with
      | Some path =>
          is_walk (childrenOf s) x t path
          ∧ ∀ path', is_walk (childrenOf s) x t path' → length path ≤ length path'
      | None => ∀ path', ¬ is_walk (childrenOf s) x t path'
      end.
Proof.
  destruct (children_walk_ends s push_path (Some t) (descendants_fuel s) x [x])
    as [[r visited] Hrun]; [done|].
  exists r. split.
  - unfold getDescendantPath.
    change (getDescendantPath_loop s t (descendants_fuel s) [(x, [x])] [])
      with (getDescendantPath_loop s t (descendants_fuel s) [(x, [x])]
              ([] : list (string * list string)).*1).
    by rewrite getDescendantPath_loop_bfs, Hrun.
  - by eapply bfs_path_result.
Qed.

(** X4. In a store built from records with pairwise distinct ids, an id
    that [getAncestors] records for [x] at depth [dx] and for [y] at depth
    [dy] is reached by both path searches: [getAncestorPath] from [x] and
    [getDescendantPath] down to [y] return arrays of [dx + 1] and
    [dy + 1] elements. *)
Theorem paths_reach_recorded_ancestors (people : list Person)
    (explicit : gmap string Gender) (x y anc : string)
    (a_x a_y : list (string * nat)) (dx dy : nat) :
  NoDup (id <$> people) →
  getAncestors (Build people explicit) x = Some a_x →
  getAncestors (Build people explicit) y = Some a_y →
  JsObject.own a_x anc = Some dx → JsObject.own a_y anc = Some dy →
  ∃ up down,
    getAncestorPath (Build people explicit) x anc = Some (Some up)
    ∧ getDescendantPath (Build people explicit) anc y = Some (Some down)
    ∧ length up = dx + 1 ∧ length down = dy + 1.
Proof.
  intros Hnd Hx Hy Hdx Hdy.
  destruct (paths_have_recorded_depths people explicit Hnd x y a_x a_y anc dx dy)
    as (up & down & Hup & Hdown & Hdist); try done.
  exists up, down. split_and!; try done.
  - destruct (getAncestorPath_spec (Build people explicit) x anc) as (r & ? & _ & _ & Hr & Hspec).
    rewrite Hup in Hr. simplify_eq. destruct Hspec as (Hne & _).
    unfold distances in Hdist. destruct up; [done|]. simpl in *. simplify_eq. lia.
  - destruct (getDescendantPath_spec (Build people explicit) anc y) as (r & ? & _ & _ & Hr & Hspec).
    rewrite Hdown in Hr. simplify_eq. destruct Hspec as (Hne & _).
    unfold distances in Hdist. destruct down; [done|]. simpl in *. simplify_eq. lia.
Qed.

Lemma paths_reach_recorded_ancestors_witness :
  ∃ up down,
    getAncestorPath (Build three_generations ∅) "X" "G1" = Some (Some up)
    ∧ getDescendantPath (Build three_generations ∅) "G1" "Y" = Some (Some down)
    ∧ length up = 2 + 1 ∧ length down = 2 + 1.
Proof.
  apply (paths_reach_recorded_ancestors three_generations ∅ "X" "Y" "G1"
           [("X", 0); ("P", 1); ("Q", 1); ("G1", 2); ("G2", 2)]
           [("Y", 0); ("R", 1); ("G1", 2); ("G2", 2)] 2 2).
  - apply (bool_decide_unpack _). vm_compute. exact I.
  - vm_compute. reflexivity.
  - vm_compute. reflexivity.
  - vm_compute. reflexivity.
  - vm_compute. reflexivity.
Defined.

(** ** Labels of the nearest relatives *)
Section Labels.

Variable s : Store.

Local Abbreviation up := (edge (parentsOf s)).










End Labels.



Section ChildLabel.

Variable s : Store.


End ChildLabel.





(** ** What gender inference finds *)
Section GenderFound.

Implicit Types (gm : gmap string Gender) (pm : gmap string Person).

Lemma infer_from_parents_names gm person p :
  js_ref (fid person) = Some p ∨ js_ref (mid person) = Some p →
  is_Some (infer_from_parents gm person !! p).
Proof.
  unfold infer_from_parents. cbv zeta. intros [Hf|Hm].
  - rewrite Hf.
    assert (Hp : is_Some ((if decide (is_Some (gm !! p)) then gm else <[p := M]> gm) !! p)).
    { case_decide; [done|]. by rewrite lookup_insert_eq. }
    destruct (js_ref (mid person)) as [m|]; [|done].
    revert Hp. generalize (if decide (is_Some (gm !! p)) then gm else <[p := M]> gm).
    intros gm1 Hp. case_decide; [done|].
    destruct (decide (m = p)) as [->|]; [by rewrite lookup_insert_eq|].
    by rewrite lookup_insert_ne.
  - rewrite Hm. case_decide; [done|]. by rewrite lookup_insert_eq.
Qed.

Lemma is_Some_keeps {A} (f : gmap string Gender → A → gmap string Gender) k :
  (∀ g gm a, gm !! k = Some g → f gm a !! k = Some g) →
  ∀ l gm, is_Some (gm !! k) → is_Some (foldl f gm l !! k).
Proof.
  intros Hf l gm [g Hg]. exists g. apply foldl_keeps; [|done].
  intros. by apply Hf.
Qed.

Lemma parenthood_phase_names people gm person p :
  person ∈ people →
  js_ref (fid person) = Some p ∨ js_ref (mid person) = Some p →
  is_Some (parenthood_phase people gm !! p).
Proof.
  intros (l1 & l2 & ->)%list_elem_of_split Hp. unfold parenthood_phase.
  rewrite foldl_app. simpl.
  apply is_Some_keeps; [intros; by apply infer_from_parents_keeps|].
  by apply infer_from_parents_names.
Qed.

(** The parenthood pass writes ['M'] only under a [fid] and ['F'] only
    under a [mid]. *)
Lemma infer_from_parents_only gm person p g :
  (g = M → js_ref (mid person) ≠ Some p) →
  (g = F → js_ref (fid person) ≠ Some p) →
  g ≠ U →
  (gm !! p = None ∨ gm !! p = Some g) →
  infer_from_parents gm person !! p = None
  ∨ infer_from_parents gm person !! p = Some g.
Proof.
  intros HM HF HU Hgm. unfold infer_from_parents. cbv zeta.
  assert (H1 : ∀ x v (gm' : gmap string Gender),
            (x = p → v = g) →
            (gm' !! p = None ∨ gm' !! p = Some g) →
            (if decide (is_Some (gm' !! x)) then gm' else <[x := v]> gm') !! p = None
            ∨ (if decide (is_Some (gm' !! x)) then gm' else <[x := v]> gm') !! p = Some g).
  { intros x v gm' Hx Hg. case_decide; [done|].
    destruct (decide (x = p)) as [->|].
    - rewrite lookup_insert_eq. right. f_equal. by apply Hx.
    - by rewrite lookup_insert_ne. }
  destruct (js_ref (fid person)) as [f|] eqn:Hf, (js_ref (mid person)) as [m|] eqn:Hm.
  - apply H1.
    + intros ->. destruct g; [by destruct HM|done|done].
    + apply H1; [|done]. intros ->. destruct g; [done|by destruct HF|done].
  - apply H1; [|done]. intros ->. destruct g; [done|by destruct HF|done].
  - apply H1; [|done]. intros ->. destruct g; [by destruct HM|done|done].
  - done.
Qed.

Lemma parenthood_phase_only people gm p g :
  (g = M → ∀ q, q ∈ people → js_ref (mid q) ≠ Some p) →
  (g = F → ∀ q, q ∈ people → js_ref (fid q) ≠ Some p) →
  g ≠ U →
  (gm !! p = None ∨ gm !! p = Some g) →
  parenthood_phase people gm !! p = None ∨ parenthood_phase people gm !! p = Some g.
Proof.
  unfold parenthood_phase. revert gm.
  induction people as [|person people IH]; intros gm HM HF HU Hgm; [done|].
  simpl. apply IH.
  - intros Hg q Hq. apply HM; [done|]. by right.
  - intros Hg q Hq. apply HF; [done|]. by right.
  - done.
  - apply infer_from_parents_only; try done.
    + intros Hg. apply HM; [done|]. by left.
    + intros Hg. apply HF; [done|]. by left.
Qed.

(** One partner with a gender gives the other one hers or his. *)
Lemma infer_from_partner_both pm p1 gm q :
  is_Some (pm !! q) →
  is_Some (gm !! p1) ∨ is_Some (gm !! q) →
  is_Some (infer_from_partner pm p1 gm q !! p1)
  ∧ is_Some (infer_from_partner pm p1 gm q !! q).
Proof.
  intros Hq Hknown. unfold infer_from_partner. rewrite decide_True by done.
  destruct (gm !! p1) as [g1|] eqn:H1, (gm !! q) as [g2|] eqn:H2.
  - rewrite H1, H2. eauto.
  - rewrite lookup_insert_eq. split; [|eauto].
    rewrite lookup_insert_ne by congruence. rewrite H1. eauto.
  - rewrite lookup_insert_eq. split; [eauto|].
    rewrite lookup_insert_ne by congruence. rewrite H2. eauto.
  - destruct Hknown as [[? ?]|[? ?]]; done.
Qed.

Lemma partner_pass_both pm people gm person ps q :
  person ∈ people → pids person = Some ps → q ∈ ps →
  is_Some (pm !! q) →
  is_Some (gm !! id person) ∨ is_Some (gm !! q) →
  is_Some (partner_pass pm people gm !! id person)
  ∧ is_Some (partner_pass pm people gm !! q).
Proof.
  intros (l1 & l2 & ->)%list_elem_of_split Hps Hq Hpm Hknown.
  unfold partner_pass. rewrite foldl_app. simpl.
  set (body := λ (gm : gmap string Gender) (person : Person),
         match pids person with
         | Some (p :: ps) => foldl (infer_from_partner pm (id person)) gm (p :: ps)
         | _ => gm
         end).
  change (is_Some (foldl body (body (foldl body gm l1) person) l2 !! id person)
          ∧ is_Some (foldl body (body (foldl body gm l1) person) l2 !! q)).
  assert (Hbody : ∀ k g gm' a, gm' !! k = Some g → body gm' a !! k = Some g).
  { intros k g gm' a Hk. unfold body.
    destruct (pids a) as [[|p' ps']|]; try done.
    apply (foldl_keeps k g (infer_from_partner pm (id a)) (p' :: ps')); [|done].
    intros; by apply infer_from_partner_keeps. }
  assert (Hbefore : is_Some (foldl body gm l1 !! id person)
                    ∨ is_Some (foldl body gm l1 !! q)).
  { destruct Hknown; [left|right]; (apply is_Some_keeps; [intros; by apply Hbody|done]). }
  enough (is_Some (body (foldl body gm l1) person !! id person)
          ∧ is_Some (body (foldl body gm l1) person !! q)) as [? ?].
  { split; (apply is_Some_keeps; [intros; by apply Hbody|done]). }
  revert Hbefore. generalize (foldl body gm l1). intros gm0 Hgm0.
  unfold body. rewrite Hps.
  apply list_elem_of_split in Hq as (k1 & k2 & ->).
  assert (Hkeep : ∀ k l gm', is_Some (gm' !! k) →
            is_Some (foldl (infer_from_partner pm (id person)) gm' l !! k)).
  { intros k. apply is_Some_keeps. intros; by apply infer_from_partner_keeps. }
  assert (Hgoal : is_Some (foldl (infer_from_partner pm (id person)) gm0 (k1 ++ q :: k2)
                           !! id person)
                ∧ is_Some (foldl (infer_from_partner pm (id person)) gm0 (k1 ++ q :: k2) !! q)).
  { rewrite foldl_app. simpl.
    destruct (infer_from_partner_both pm (id person)
                (foldl (infer_from_partner pm (id person)) gm0 k1) q) as [? ?]; [done| |].
    - destruct Hgm0; [left|right]; by apply Hkeep.
    - split; by apply Hkeep. }
  destruct (k1 ++ q :: k2) as [|p' ps'] eqn:Heq; [by destruct k1|].
  exact Hgoal.
Qed.

Lemma partnership_phase_both pm people gm person ps q :
  person ∈ people → pids person = Some ps → q ∈ ps →
  is_Some (pm !! q) →
  is_Some (gm !! id person) ∨ is_Some (gm !! q) →
  is_Some (partnership_phase pm people gm !! id person)
  ∧ is_Some (partnership_phase pm people gm !! q).
Proof.
  intros Hp Hps Hq Hpm Hknown. unfold partnership_phase. simpl.
  destruct (partner_pass_both pm people gm person ps q) as [[g1 H1] [g2 H2]]; try done.
  split.
  - exists g1. by apply (partner_passes_keeps _ _ 4 1).
  - exists g2. by apply (partner_passes_keeps _ _ 4 1).
Qed.

End GenderFound.

(** X8. A person named as father or mother has a gender. For a record of
    [PEOPLE] whose non-empty [fid] or [mid] is [p], the built store has an
    entry for [p] in [genderMap]. When [p] has no gender before inference
    and no record names it as mother, [getGender] returns ['M'] for it;
    when no record names it as father, ['F']. *)
Theorem named_parent_has_gender (people : list Person) (explicit : gmap string Gender)
    (person : Person) (p : string) :
  person ∈ people →
  js_ref (fid person) = Some p ∨ js_ref (mid person) = Some p →
  is_Some (genderMap (Build people explicit) !! p)
  ∧ (explicit !! p = None → (∀ q, q ∈ people → js_ref (mid q) ≠ Some p) →
     getGender (Build people explicit) p = M)
  ∧ (explicit !! p = None → (∀ q, q ∈ people → js_ref (fid q) ≠ Some p) →
     getGender (Build people explicit) p = F).
Proof.
  intros Hperson Hp.
  destruct (parenthood_phase_names people explicit person p Hperson Hp) as [g Hg].
  assert (Hfinal : ∀ g', parenthood_phase people explicit !! p = Some g' →
            genderMap (Build people explicit) !! p = Some g').
  { intros g' Hg'. simpl. by apply (partner_passes_keeps p g' 5 0). }
  split_and!.
  - rewrite (Hfinal g Hg). eauto.
  - intros Hnone Hmid. unfold getGender.
    destruct (parenthood_phase_only people explicit p M) as [H|H]; try done.
    + by left.
    + congruence.
    + by rewrite (Hfinal M H).
  - intros Hnone Hfid. unfold getGender.
    destruct (parenthood_phase_only people explicit p F) as [H|H]; try done.
    + by left.
    + congruence.
    + by rewrite (Hfinal F H).
Qed.

Lemma named_parent_has_gender_witness :
  is_Some (genderMap (Build three_generations ∅) !! "R")
  ∧ getGender (Build three_generations ∅) "R" = M.
Proof.
  destruct (named_parent_has_gender three_generations ∅
              (person "Y" (Some "R") (Some "missing") []) "R") as (H1 & H2 & _).
  - apply (bool_decide_unpack _). vm_compute. exact I.
  - left. vm_compute. reflexivity.
  - split; [exact H1|]. apply H2; [reflexivity|].
    apply Forall_forall. apply (bool_decide_unpack _). vm_compute. exact I.
Defined.

(** X9. A gender known before the partnership passes reaches the partner.
    For a record of [PEOPLE] that lists [q] among its [pids], with [q] a
    person of the store: when the record's id or [q] has a gender after
    the parenthood pass, both have an entry in [genderMap] after
    [buildLookups]. *)
Theorem partner_gender_spreads (people : list Person) (explicit : gmap string Gender)
    (person : Person) (ps : list string) (q : string) :
  person ∈ people → pids person = Some ps → q ∈ ps →
  is_Some (peopleMap (Build people explicit) !! q) →
  is_Some (parenthood_phase people explicit !! id person)
  ∨ is_Some (parenthood_phase people explicit !! q) →
  is_Some (genderMap (Build people explicit) !! id person)
  ∧ is_Some (genderMap (Build people explicit) !! q).
Proof.
  intros Hperson Hps Hq Hpm Hknown. simpl.
  by apply (partnership_phase_both _ _ _ person ps q).
Qed.

Lemma partner_gender_spreads_witness :
  is_Some (genderMap (Build three_generations ∅) !! "P")
  ∧ is_Some (genderMap (Build three_generations ∅) !! "Q").
Proof.
  apply (partner_gender_spreads three_generations ∅
           (person "P" (Some "G1") (Some "G2") ["Q"]) ["Q"] "Q").
  - apply (bool_decide_unpack _). vm_compute. exact I.
  - reflexivity.
  - apply (bool_decide_unpack _). vm_compute. exact I.
  - vm_compute. eauto.
  - left. vm_compute. eauto.
Defined.

(** ** The two lookup maps of a built store *)
Section BuiltMaps.

Lemma index_person_byId maps person :
  (index_person maps person).1 = <[id person := person]> maps.1.
Proof. done. Qed.

Lemma index_people_last (l : list Person) maps c :
  (foldl index_person maps l).1 !! c =
    match last (filter (λ p, id p = c) l) with
    | Some p => Some p
    | None => maps.1 !! c
    end.
Proof.
  induction l as [|person l IH] using rev_ind; [done|].
  rewrite foldl_app, filter_app.
  change (foldl index_person (foldl index_person maps l) [person])
    with (index_person (foldl index_person maps l) person).
  rewrite index_person_byId, filter_cons, filter_nil.
  destruct (decide (id person = c)) as [<-|Hne].
  - rewrite lookup_insert_eq. by rewrite last_snoc.
  - rewrite lookup_insert_ne by done. by rewrite app_nil_r.
Qed.

Lemma appended_children_elem p people c :
  c ∈ appended_children p people ↔
    ∃ q, q ∈ people ∧ id q = c
         ∧ (js_ref (fid q) = Some p ∨ js_ref (mid q) = Some p).
Proof.
  unfold appended_children. rewrite list_elem_of_bind. split.
  - intros (q & Hc & Hq). exists q. split; [done|].
    unfold pushes_under in Hc. repeat case_decide; set_solver.
  - intros (q & Hq & <- & Hp). exists q. split; [|done].
    unfold pushes_under. destruct Hp as [Hp|Hp]; rewrite Hp.
    + rewrite decide_True by done. set_solver.
    + rewrite (decide_True (P := Some p = Some p)) by done. set_solver.
Qed.

Lemma js_ref_nonempty r p : js_ref r = Some p → p ≠ "".
Proof. unfold js_ref. destruct r; [|done]. case_decide; congruence. Qed.

End BuiltMaps.

(** X10. [peopleMap] after [buildLookups] on the empty maps holds under
    every id the last record of [PEOPLE] with that id, and nothing under
    an id that no record has. *)
Theorem byId_holds_last_record (people : list Person) (explicit : gmap string Gender)
    (c : string) :
  peopleMap (Build people explicit) !! c = last (filter (λ p, id p = c) people).
Proof.
  simpl. rewrite index_people_last. simpl. rewrite lookup_empty.
  by destruct (last _).
Qed.

(** X11. [childrenMap] after [buildLookups] on the empty maps has a key
    exactly for the ids that some record names as its non-empty [fid] or
    [mid]: the empty string is no key, no list is empty, and a list holds
    the ids of the records that name its key. *)
Theorem children_index_keys (people : list Person) (explicit : gmap string Gender)
    (p : string) :
  (is_Some (childrenMap (Build people explicit) !! p) ↔
     ∃ q, q ∈ people ∧ (js_ref (fid q) = Some p ∨ js_ref (mid q) = Some p))
  ∧ ∀ l, childrenMap (Build people explicit) !! p = Some l →
      p ≠ "" ∧ l ≠ []
      ∧ ∀ c, c ∈ l ↔
          ∃ q, q ∈ people ∧ id q = c
               ∧ (js_ref (fid q) = Some p ∨ js_ref (mid q) = Some p).
Proof.
  rewrite Build_children.
  assert (Hsort : ∀ l c, c ∈ js_sort l ↔ c ∈ l).
  { intros l c. unfold js_sort. by rewrite merge_sort_Permutation. }
  split.
  - split.
    + intros Hsome. destruct (appended_children p people) as [|c l] eqn:Happ.
      { by destruct Hsome. }
      assert (Hc : c ∈ appended_children p people) by (rewrite Happ; left).
      apply appended_children_elem in Hc as (q & ? & _ & ?). eauto.
    + intros (q & Hq & Hp).
      assert (Hc : id q ∈ appended_children p people).
      { apply appended_children_elem. eauto. }
      destruct (appended_children p people); [by apply elem_of_nil in Hc|eauto].
  - intros l Hl. destruct (appended_children p people) as [|c0 l0] eqn:Happ; [done|].
    simplify_eq. split_and!.
    + assert (Hc : c0 ∈ appended_children p people) by (rewrite Happ; left).
      apply appended_children_elem in Hc as (q & _ & _ & [Hp|Hp]);
        by eapply js_ref_nonempty.
    + intros Hnil. assert (Hc : c0 ∈ js_sort (c0 :: l0)) by (apply Hsort; left).
      rewrite Hnil in Hc. by apply elem_of_nil in Hc.
    + intros c. rewrite Hsort, <- Happ. apply appended_children_elem.
Qed.

(** ** White space and pieces of a name *)
Section NamePieces.

Lemma trim_start_head s c r : trim_start s = String c r → is_space c = false.
Proof.
  induction s as [|a s IH]; [done|]. simpl.
  destruct (is_space a) eqn:Ha; [done|]. intros [= <- <-]. done.
Qed.

Lemma trim_end_head c s : is_space c = false → ∃ r, trim_end (String c s) = String c r.
Proof. intros Hc. simpl. rewrite Hc. destruct (trim_end s); eauto. Qed.

Lemma trim_end_idem s : trim_end (trim_end s) = trim_end s.
Proof.
  induction s as [|c s IH]; [done|]. simpl.
  destruct (trim_end s) as [|c' r] eqn:Hr.
  - destruct (is_space c) eqn:Hc; [done|]. simpl. by rewrite Hc.
  - simpl in *. rewrite IH. done.
Qed.

Lemma clean_tail c s : trim_end (String c s) = String c s → trim_end s = s.
Proof.
  simpl. destruct (trim_end s) as [|c' r] eqn:Hr.
  - destruct (is_space c); [done|]. by intros [= <-].
  - by intros [= <-].
Qed.

Lemma clean_space c s : trim_end (String c s) = String c s → is_space c = true → s ≠ "".
Proof. intros Hclean Hc ->. simpl in Hclean. by rewrite Hc in Hclean. Qed.

Lemma rev_app_nonempty s1 s2 : s2 ≠ "" → String.rev_app s1 s2 ≠ "".
Proof.
  revert s2. induction s1 as [|a s1 IH]; intros s2 Hs2; simpl; [done|]. by apply IH.
Qed.

Lemma rev_nonempty s : s ≠ "" → String.rev s ≠ "".
Proof.
  destruct s; [done|]. intros _. unfold String.rev. simpl. by apply rev_app_nonempty.
Qed.

Lemma split_spaces_aux_nonempty s cur in_gap :
  trim_end s = s → (in_gap = false → cur ≠ "") → (in_gap = true → s ≠ "") →
  Forall (λ p, p ≠ "") (split_spaces_aux cur in_gap s).
Proof.
  revert cur in_gap. induction s as [|c s IH]; intros cur in_gap Hclean Hcur Hgap.
  - simpl. constructor; [|constructor]. apply rev_nonempty, Hcur.
    by destruct in_gap; [destruct Hgap|].
  - simpl. destruct (is_space c) eqn:Hc.
    + pose proof (clean_space _ _ Hclean Hc) as Hs.
      destruct in_gap.
      * apply IH; [by eapply clean_tail|done|done].
      * constructor; [by apply rev_nonempty, Hcur|].
        apply IH; [by eapply clean_tail|done|done].
    + apply IH; [by eapply clean_tail|done|done].
Qed.

Lemma trim_head name c r : trim name = String c r → is_space c = false.
Proof.
  unfold trim. destruct (trim_start name) as [|c' r'] eqn:Hs; [done|].
  pose proof (trim_start_head _ _ _ Hs) as Hc'.
  destruct (trim_end_head c' r' Hc') as [r'' ->]. by intros [= <- <-].
Qed.

Lemma trim_pieces_nonempty name :
  trim name ≠ "" → Forall (λ p, p ≠ "") (split_spaces (trim name)).
Proof.
  intros Hne. pose proof (trim_end_idem (trim_start name)) as Hclean.
  fold (trim name) in Hclean.
  destruct (trim name) as [|c r] eqn:Ht; [done|].
  pose proof (trim_head _ _ _ Ht) as Hc.
  unfold split_spaces. simpl. rewrite Hc.
  apply split_spaces_aux_nonempty; [by eapply clean_tail|done|done].
Qed.

Lemma filter_nonempty_all (l : list string) :
  Forall (λ p, p ≠ "") l → filter (λ p, p ≠ "") l = l.
Proof.
  induction 1 as [|p l Hp Hl IH]; [done|].
  rewrite filter_cons, decide_True by done. by rewrite IH.
Qed.

Lemma upper_initial p : toUpperCase (charAt0 p) = initial_upper p.
Proof. by destruct p. Qed.

Lemma upper_initials p q :
  toUpperCase (String.append (charAt0 p) (charAt0 q))
    = String.append (initial_upper p) (initial_upper q).
Proof. destruct p, q; done. Qed.

(** The pieces that [getInitials] keeps are the pieces that step 3 of
    [getFamilySet] takes. *)
Lemma initials_pieces name :
  filter (λ p, p ≠ "") (split_spaces (trim name))
    = if decide (trim name = "") then [] else split_spaces (trim name).
Proof.
  case_decide as Ht.
  - rewrite Ht. done.
  - by apply filter_nonempty_all, trim_pieces_nonempty.
Qed.

Lemma display_fields_label g name image :
  (display_fields g name image).2 = formatNameForNode name.
Proof.
  unfold display_fields, formatNameForNode. cbv zeta. simpl.
  destruct (if decide (trim name = "") then [] else split_spaces (trim name))
    as [|p0 [|p1 rest]]; try done.
  by rewrite upper_initial.
Qed.

Lemma display_fields_initials name image :
  image = "" ∨ trim image = "" →
  (display_fields U name image).1 = (NoIcon, getInitials name).
Proof.
  intros Himg. unfold display_fields, getInitials. cbv zeta. simpl.
  rewrite initials_pieces.
  rewrite bool_decide_eq_false_2 by tauto.
  destruct (if decide (trim name = "") then [] else split_spaces (trim name))
    as [|p0 [|p1 rest]]; try done.
  - by rewrite upper_initial.
  - by rewrite upper_initials.
Qed.

Lemma display_fields_blank g name image :
  g ≠ U ∨ (image ≠ "" ∧ trim image ≠ "") →
  (display_fields g name image).1.2 = "".
Proof.
  intros Hg. unfold display_fields. cbv zeta. simpl.
  case_bool_decide; [done|]. destruct g; try done. by destruct Hg as [?|?].
Qed.

End NamePieces.

(** X12. The three display fields of a returned node are those of the
    two naming helpers. For every node of [getFamilySet], [_label] is
    [formatNameForNode] of its name; when its image reference is blank and
    its gender unknown, it has no icon and [_initials] is [getInitials] of
    its name; in every other case [_initials] is empty. *)
Theorem node_fields_match_helpers (s : Store) (centerId : string) (n : Node) :
  n ∈ getFamilySet s centerId →
  _label n = formatNameForNode (name (node n))
  ∧ (getGender s (id (node n)) = U →
     image_url (node n) = "" ∨ trim (image_url (node n)) = "" →
     gender_icon_svg n = NoIcon ∧ _initials n = getInitials (name (node n)))
  ∧ (getGender s (id (node n)) ≠ U
     ∨ (image_url (node n) ≠ "" ∧ trim (image_url (node n)) ≠ "") →
     _initials n = "").
Proof.
  unfold getFamilySet. destruct (peopleMap s !! centerId) as [centerNode|].
  2:{ intros H. by apply elem_of_nil in H. }
  intros (p & -> & _)%list_elem_of_fmap.
  set (p' := sanitize _ p). unfold display.
  pose proof (display_fields_label (getGender s (id p')) (name p') (image_url p')) as Hl.
  pose proof (display_fields_blank (getGender s (id p')) (name p') (image_url p')) as Hb.
  destruct (display_fields (getGender s (id p')) (name p') (image_url p'))
    as [[icon initials] label] eqn:Hd.
  simpl. split_and!.
  - done.
  - intros HU Himg.
    pose proof (display_fields_initials (name p') (image_url p') Himg) as Hi.
    change (getGender s (id p') = U) in HU. rewrite <- HU, Hd in Hi.
    simpl in Hi. injection Hi as -> ->. done.
  - done.
Qed.

Lemma node_fields_match_helpers_witness :
  "P" = formatNameForNode "P".
Proof.
  apply (node_fields_match_helpers family "X"
           (mkNode (mkPerson "P" "P" None None (Some ["Q"]) "" "" "" []) MaleIcon "" "P")).
  apply (bool_decide_unpack _). vm_compute. exact I.
Defined.

(** ** Who is in a family set *)
Section FamilySet.

Variable pm : gmap string Person.

Variable first : string * Person.

Lemma addNode_keys (fs : list (string * Person)) i k :
  k ∈ (addNode pm fs i).*1 ↔ k ∈ fs.*1 ∨ (k = i ∧ is_Some (pm !! i)).
Proof.
  unfold addNode. destruct (pm !! i) as [p|] eqn:Hp.
  - case_decide as Hin.
    + split; [by left|]. intros [?|[-> _]]; done.
    + rewrite fmap_app, elem_of_app. simpl. rewrite list_elem_of_singleton.
      split; intros [?|?]; [by left|right|by left|right]; naive_solver.
  - split; [by left|]. intros [?|[_ [? ?]]]; done.
Qed.

(** Entries of [familySet]: distinct keys, each with its record, the
    first entry being [first]. *)
Lemma addNode_sound (fs : list (string * Person)) i :
  NoDup fs.*1 ∧ (∀ k p, (k, p) ∈ fs → pm !! k = Some p) ∧ head fs = Some first →
  NoDup (addNode pm fs i).*1
  ∧ (∀ k p, (k, p) ∈ addNode pm fs i → pm !! k = Some p)
  ∧ head (addNode pm fs i) = Some first.
Proof.
  intros (Hnd & Hrec & Hhead). unfold addNode. destruct (pm !! i) as [p|] eqn:Hp; [|done].
  case_decide as Hin; [done|]. split_and!.
  - rewrite fmap_app. simpl. apply NoDup_app. split_and!; [done| |apply NoDup_singleton].
    intros x Hx ->%list_elem_of_singleton. done.
  - intros k q [Hkq|Hkq%list_elem_of_singleton]%elem_of_app; [by apply Hrec|].
    by simplify_eq.
  - by destruct fs.
Qed.

Lemma addNode_prefix (fs : list (string * Person)) i : fs `prefix_of` addNode pm fs i.
Proof.
  unfold addNode. destruct (pm !! i); [|done]. case_decide; [done|].
  by apply prefix_app_r.
Qed.

Lemma addNodes_keys ids (fs : list (string * Person)) k :
  k ∈ (foldl (addNode pm) fs ids).*1 ↔
    k ∈ fs.*1 ∨ (k ∈ ids ∧ is_Some (pm !! k)).
Proof.
  revert fs. induction ids as [|i ids IH]; intros fs; simpl.
  - split; [by left|]. intros [?|[?%elem_of_nil _]]; done.
  - rewrite IH, addNode_keys, elem_of_cons. naive_solver.
Qed.

Lemma addNodes_sound ids (fs : list (string * Person)) :
  NoDup fs.*1 ∧ (∀ k p, (k, p) ∈ fs → pm !! k = Some p) ∧ head fs = Some first →
  NoDup (foldl (addNode pm) fs ids).*1
  ∧ (∀ k p, (k, p) ∈ foldl (addNode pm) fs ids → pm !! k = Some p)
  ∧ head (foldl (addNode pm) fs ids) = Some first.
Proof.
  revert fs. induction ids as [|i ids IH]; intros fs Hfs; [done|].
  simpl. by apply IH, addNode_sound.
Qed.

Lemma addNodes_prefix ids (fs : list (string * Person)) :
  fs `prefix_of` foldl (addNode pm) fs ids.
Proof.
  revert fs. induction ids as [|i ids IH]; intros fs; [done|].
  simpl. etrans; [apply addNode_prefix|apply IH].
Qed.

End FamilySet.

Section Collect.

Variables (s : Store) (centerId : string) (centerNode : Person).
Hypothesis center : peopleMap s !! centerId = Some centerNode.

Lemma collect_keys k :
  k ∈ (collect s centerId centerNode).*1 ↔
    is_Some (peopleMap s !! k)
    ∧ (k = centerId ∨ js_ref (fid centerNode) = Some k
       ∨ js_ref (mid centerNode) = Some k
       ∨ (∃ ps, pids centerNode = Some ps ∧ k ∈ ps)
       ∨ k ∈ childrenOf s centerId).
Proof.
  unfold collect, childrenOf. cbv zeta.
  assert (Hc : is_Some (peopleMap s !! centerId)) by (by rewrite center).
  assert (H0 : ∀ k, k ∈ (addNode (peopleMap s) [] centerId).*1 ↔ k = centerId).
  { intros k'. rewrite addNode_keys. rewrite center. split.
    - intros [?%elem_of_nil|[? _]]; done.
    - intros ->. right. eauto. }
  generalize dependent (addNode (peopleMap s) [] centerId). intros fs0 H0.
  assert (H1 : ∀ k,
    k ∈ (match js_ref (fid centerNode) with
         | Some f => addNode (peopleMap s) fs0 f
         | None => fs0
         end).*1 ↔
    k = centerId ∨ (js_ref (fid centerNode) = Some k ∧ is_Some (peopleMap s !! k))).
  { intros k'. destruct (js_ref (fid centerNode)) as [f|].
    - rewrite addNode_keys, H0. naive_solver.
    - rewrite H0. naive_solver. }
  generalize dependent (match js_ref (fid centerNode) with
                        | Some f => addNode (peopleMap s) fs0 f
                        | None => fs0
                        end). intros fs1 H1.
  assert (H2 : ∀ k,
    k ∈ (match js_ref (mid centerNode) with
         | Some m => addNode (peopleMap s) fs1 m
         | None => fs1
         end).*1 ↔
    k = centerId ∨ (js_ref (fid centerNode) = Some k ∧ is_Some (peopleMap s !! k))
    ∨ (js_ref (mid centerNode) = Some k ∧ is_Some (peopleMap s !! k))).
  { intros k'. destruct (js_ref (mid centerNode)) as [m|].
    - rewrite addNode_keys, H1. naive_solver.
    - rewrite H1. naive_solver. }
  generalize dependent (match js_ref (mid centerNode) with
                        | Some m => addNode (peopleMap s) fs1 m
                        | None => fs1
                        end). intros fs2 H2.
  assert (H3 : ∀ k,
    k ∈ (match pids centerNode with
         | Some ps => foldl (addNode (peopleMap s)) fs2 ps
         | None => fs2
         end).*1 ↔
    k = centerId ∨ (js_ref (fid centerNode) = Some k ∧ is_Some (peopleMap s !! k))
    ∨ (js_ref (mid centerNode) = Some k ∧ is_Some (peopleMap s !! k))
    ∨ ((∃ ps, pids centerNode = Some ps ∧ k ∈ ps) ∧ is_Some (peopleMap s !! k))).
  { intros k'. destruct (pids centerNode) as [ps|].
    - rewrite addNodes_keys, H2. naive_solver.
    - rewrite H2. naive_solver. }
  generalize dependent (match pids centerNode with
                        | Some ps => foldl (addNode (peopleMap s)) fs2 ps
                        | None => fs2
                        end). intros fs3 H3.
  destruct (childrenMap s !! centerId) as [children|]; simpl.
  - rewrite addNodes_keys, H3. naive_solver.
  - rewrite H3. split; [naive_solver|].
    intros (Hk & [?|[?|[?|[?|?%elem_of_nil]]]]); naive_solver.
Qed.

Lemma collect_sound :
  NoDup (collect s centerId centerNode).*1
  ∧ (∀ k p, (k, p) ∈ collect s centerId centerNode → peopleMap s !! k = Some p)
  ∧ head (collect s centerId centerNode) = Some (centerId, centerNode).
Proof.
  unfold collect. cbv zeta.
  assert (Hstart : addNode (peopleMap s) [] centerId = [(centerId, centerNode)]).
  { unfold addNode. rewrite center. rewrite decide_False; [done|]. apply not_elem_of_nil. }
  rewrite Hstart.
  assert (Hs0 : NoDup [(centerId, centerNode)].*1
                ∧ (∀ k p, (k, p) ∈ [(centerId, centerNode)] → peopleMap s !! k = Some p)
                ∧ head [(centerId, centerNode)] = Some (centerId, centerNode)).
  { split_and!; [apply NoDup_singleton| |done].
    intros k p ?%list_elem_of_singleton. by simplify_eq. }
  revert Hs0. generalize [(centerId, centerNode)]. intros fs Hs.
  destruct (js_ref (fid centerNode)), (js_ref (mid centerNode)), (pids centerNode),
    (childrenMap s !! centerId);
    repeat first [ apply addNodes_sound | apply addNode_sound | exact Hs ].
Qed.

End Collect.

Lemma keys_are_ids (l : list (string * Person)) :
  (∀ k p, (k, p) ∈ l → id p = k) → id <$> l.*2 = l.*1.
Proof.
  induction l as [|[k p] l IH]; intros Hl; [done|]. simpl. f_equal.
  - apply Hl. left.
  - apply IH. intros k' p' Hin. apply Hl. by right.
Qed.

Lemma Build_key_is_id people explicit k p :
  peopleMap (Build people explicit) !! k = Some p → id p = k.
Proof.
  simpl. rewrite index_people_last. simpl. rewrite lookup_empty.
  destruct (last _) as [q|] eqn:Hlast; [|done]. intros [= ->].
  apply last_Some in Hlast as [l' Hl'].
  assert (Hin : p ∈ filter (λ p, id p = k) people) by (rewrite Hl'; set_solver).
  by apply list_elem_of_filter in Hin as [? _].
Qed.

(** X13. Who is in a family set. In a built store [getFamilySet] returns
    the empty array for an id that is no key of [peopleMap]. For a key it
    returns nodes with pairwise distinct ids, the first being the centre,
    and an id is among them exactly when it is a key of [peopleMap] and is
    the centre, its non-empty [fid] or [mid], one of its [pids], or one of
    the children listed for it in [childrenMap]. *)
Theorem family_set_is_neighbourhood (people : list Person)
    (explicit : gmap string Gender) (centerId : string) :
  match peopleMap (Build people explicit) !! centerId with
  | None => getFamilySet (Build people explicit) centerId = []
  | Some centerNode =>
      head ((λ n, id (node n)) <$> getFamilySet (Build people explicit) centerId)
        = Some centerId
      ∧ NoDup ((λ n, id (node n)) <$> getFamilySet (Build people explicit) centerId)
      ∧ ∀ k, k ∈ (λ n, id (node n)) <$> getFamilySet (Build people explicit) centerId ↔
          is_Some (peopleMap (Build people explicit) !! k)
          ∧ (k = centerId ∨ js_ref (fid centerNode) = Some k
             ∨ js_ref (mid centerNode) = Some k
             ∨ (∃ ps, pids centerNode = Some ps ∧ k ∈ ps)
             ∨ k ∈ childrenOf (Build people explicit) centerId)
  end.
Proof.
  set (s := Build people explicit).
  destruct (peopleMap s !! centerId) as [centerNode|] eqn:Hc.
  2:{ unfold getFamilySet. fold s. by rewrite Hc. }
  rewrite (getFamilySet_ids s centerId centerNode Hc).
  destruct (collect_sound s centerId centerNode Hc) as (Hnd & Hrec & Hhead).
  rewrite keys_are_ids.
  2:{ intros k p Hkp. eapply Build_key_is_id. by apply Hrec. }
  split_and!.
  - destruct (collect s centerId centerNode); by simplify_eq/=.
  - done.
  - intros k. by apply collect_keys.
Qed.

(** ** Numbers written and read back *)
Section Numerals.

Local Open Scope Z_scope.

Lemma digit_of_pretty_char (x : N) :
  (x < 10)%N → digit_of (pretty_N_char x) = Some (Z.of_N x).
Proof.
  intros Hx. destruct x as [|p]; [done|].
  repeat (destruct p as [p|p|]; try (exfalso; lia); try reflexivity).
Qed.

Lemma parse_digits_go (x : N) s acc :
  default 0 acc = 0 → (0 < x)%N →
  parse_digits acc (pretty_N_go x s) = parse_digits (Some (Z.of_N x)) s.
Proof.
  intros Hacc. revert s. induction (N.lt_wf_0 x) as [x _ IH]; intros s Hx.
  rewrite pretty_N_go_step by done.
  assert (Hd : (x `mod` 10 < 10)%N) by (by apply N.mod_lt).
  destruct (decide (x `div` 10 = 0)%N) as [Hq|Hq].
  - rewrite Hq, pretty_N_go_0. simpl. rewrite digit_of_pretty_char by done.
    rewrite Hacc. f_equal. f_equal.
    pose proof (N.div_mod x 10 ltac:(done)). lia.
  - rewrite IH; [|by apply N.div_lt|by apply N.neq_0_lt_0].
    simpl. rewrite digit_of_pretty_char by done. f_equal. f_equal.
    pose proof (N.div_mod x 10 ltac:(done)). lia.
Qed.

Lemma pretty_go_head (x : N) s :
  (0 < x)%N → ∃ d r, (d < 10)%N ∧ pretty_N_go x s = String (pretty_N_char d) r.
Proof.
  revert s. induction (N.lt_wf_0 x) as [x _ IH]; intros s Hx.
  rewrite pretty_N_go_step by done.
  destruct (decide (x `div` 10 = 0)%N) as [Hq|Hq].
  - rewrite Hq, pretty_N_go_0. exists (x `mod` 10)%N, s. split; [|done].
    by apply N.mod_lt.
  - apply IH; [by apply N.div_lt|by apply N.neq_0_lt_0].
Qed.

Lemma pretty_go_dash_free (x : N) s :
  dash_free s = true → dash_free (pretty_N_go x s) = true.
Proof.
  revert s. induction (N.lt_wf_0 x) as [x _ IH]; intros s Hs.
  destruct (decide (x = 0)%N) as [->|Hx]; [by rewrite pretty_N_go_0|].
  rewrite pretty_N_go_step by lia.
  apply IH; [apply N.div_lt; [by apply N.neq_0_lt_0|done]|].
  simpl. rewrite decide_False; [done|].
  unfold pretty_N_char. by repeat case_match.
Qed.

Lemma parseInt_digit_head (d : N) r :
  (d < 10)%N →
  parseInt (String (pretty_N_char d) r) = parse_digits None (String (pretty_N_char d) r).
Proof.
  intros Hd. destruct d as [|p]; [done|].
  repeat (destruct p as [p|p|]; try (exfalso; lia); try reflexivity).
Qed.

(** [parseInt(String(z), 10)] is [z] for a non-negative integer. *)
Lemma parseInt_pretty (z : Z) : 0 ≤ z → parseInt (pretty z) = Some z.
Proof.
  intros Hz. destruct z as [|p|p]; [done| |lia].
  change (pretty (Z.pos p)) with (pretty (N.pos p)).
  unfold pretty, pretty_N. rewrite decide_False by done.
  destruct (pretty_go_head (N.pos p) "") as (d & r & Hd & Hhead); [lia|].
  rewrite Hhead, parseInt_digit_head by done. rewrite <- Hhead.
  rewrite parse_digits_go by (done || lia). done.
Qed.

Lemma pretty_dash_free (z : Z) : 0 ≤ z → dash_free (pretty z) = true.
Proof.
  intros Hz. destruct z as [|p|p]; [done| |lia].
  change (pretty (Z.pos p)) with (pretty (N.pos p)).
  unfold pretty, pretty_N. rewrite decide_False by done.
  by apply pretty_go_dash_free.
Qed.

Lemma parse_digits_nonneg s acc y :
  0 ≤ default 0 acc → parse_digits acc s = Some y → 0 ≤ y.
Proof.
  revert acc. induction s as [|c s IH]; intros acc Hacc; simpl.
  - intros ->. done.
  - destruct (digit_of c) as [d|] eqn:Hd.
    + apply IH. simpl. unfold digit_of in Hd. case_decide; simplify_eq. lia.
    + intros ->. done.
Qed.

(** A string without dash is never read as a negative number. *)
Lemma parseInt_nonneg s y : dash_free s = true → parseInt s = Some y → 0 ≤ y.
Proof.
  intros Hfree%trim_start_dash_free. unfold parseInt.
  destruct (trim_start s) as [|c r]; [done|].
  simpl in Hfree. case_decide as Hc; [done|].
  destruct c as [[] [] [] [] [] [] [] []]; try done;
    by apply parse_digits_nonneg.
Qed.

Lemma split_dash_free s : Forall (λ p, dash_free p = true) (split_dash s).
Proof.
  induction s as [|c s IH]; [by repeat constructor|].
  simpl. case_decide as Hc.
  - by constructor.
  - destruct (split_dash s) as [|piece pieces]; [by repeat constructor; simpl; rewrite decide_False|].
    apply Forall_cons in IH as [? ?]. constructor; [|done].
    simpl. by rewrite decide_False.
Qed.

End Numerals.

Section DateHelpers.

Local Open Scope Z_scope.

Variable today : JsDate.

(** The year that the three helpers go on with after the pivot step. *)
Lemma pivot_year_large (yearStr : string) (y : Z) :
  dash_free yearStr = true →
  match parseInt yearStr with
  | Some y =>
      if decide (y < 100)
      then Some (if decide (Z.rem (getFullYear today) 100 + 10 < y)
                 then 1900 + y else 2000 + y)
      else Some y
  | None => None
  end = Some y → 100 ≤ y.
Proof.
  intros Hfree. destruct (parseInt yearStr) as [y0|] eqn:Hy0; [|done].
  pose proof (parseInt_nonneg _ _ Hfree Hy0).
  repeat case_decide; intros [= <-]; lia.
Qed.

Lemma months_range k m : months k = Some m → 0 ≤ m ≤ 11.
Proof.
  unfold months. destruct (list_find _ MONTH_ABBR) as [[i x]|] eqn:Hfind; [|done].
  intros [= <-]. apply list_find_Some in Hfind as (Hi%lookup_lt_Some & _).
  simpl in *. lia.
Qed.

End DateHelpers.

(** X14. [formatDate] is idempotent: a date string that it has formatted
    is returned unchanged when formatted again, in any year. The year
    piece, when it is read as a number, is taken below 2^53, where
    [parseInt] and the template literal are exact. *)
Theorem formatDate_idempotent (today : JsDate) (dateStr : string) :
  (∀ day month yearStr y, split_dash dateStr = [day; month; yearStr] →
     parseInt yearStr = Some y → (y < 2 ^ 53)%Z) →
  formatDate today (formatDate today dateStr) = formatDate today dateStr.
Proof.
  intros _.
  destruct (decide (dateStr = "")) as [->|Hempty]; [done|].
  assert (Hunfold : formatDate today dateStr =
    match split_dash dateStr with
    | [day; month; yearStr] =>
        String.append day (String "-"%char (String.append month (String "-"%char
          (number_to_string
             match parseInt yearStr with
             | Some y =>
                 if decide (y < 100)%Z
                 then Some (if decide (Z.rem (getFullYear today) 100 + 10 < y)%Z
                            then (1900 + y)%Z else (2000 + y)%Z)
                 else Some y
             | None => None
             end))))
    | _ => dateStr
    end).
  { unfold formatDate. by rewrite decide_False. }
  rewrite Hunfold.
  pose proof (split_dash_free dateStr) as Hfree.
  destruct (split_dash dateStr) as [|day [|month [|yearStr [|? ?]]]] eqn:Hsplit;
    try (by rewrite Hunfold).
  apply Forall_cons in Hfree as [Hday Hfree].
  apply Forall_cons in Hfree as [Hmonth Hfree].
  apply Forall_cons in Hfree as [Hyear _].
  pose proof (pivot_year_large today yearStr) as Hlarge.
  specialize (λ y, Hlarge y Hyear).
  destruct (match parseInt yearStr with
            | Some y =>
                if decide (y < 100)%Z
                then Some (if decide (Z.rem (getFullYear today) 100 + 10 < y)%Z
                           then (1900 + y)%Z else (2000 + y)%Z)
                else Some y
            | None => None
            end) as [y'|] eqn:Hy'.
  - specialize (Hlarge y' eq_refl).
    unfold formatDate. rewrite decide_False by (by destruct day).
    rewrite split_dash_piece by done. rewrite split_dash_piece by done.
    rewrite split_dash_last by (apply pretty_dash_free; simpl; lia).
    simpl. rewrite parseInt_pretty by lia. rewrite decide_False by lia. done.
  - unfold formatDate. rewrite decide_False by (by destruct day).
    rewrite split_dash_piece by done. rewrite split_dash_piece by done.
    done.
Qed.

Lemma formatDate_idempotent_witness :
  formatDate (mkDate 2025 10 3) (formatDate (mkDate 2025 10 3) "10-May-80")
    = formatDate (mkDate 2025 10 3) "10-May-80".
Proof.
  apply (formatDate_idempotent (mkDate 2025 10 3) "10-May-80").
  intros day month yearStr y Hsplit Hy.
  vm_compute in Hsplit. injection Hsplit as <- <- <-.
  vm_compute in Hy. injection Hy as <-. reflexivity.
Defined.

(** X15. What the birth-date helpers never return. The month of
    [getMonthDayFromBirth] is between 0 and 11 and its day between 1 and
    31; an age of [getAgeFromBirth] is between 0 and 150; a year of
    [getBirthYearFromBirth] is at least 100, so no two-digit year is
    returned as it is written. *)
Theorem birth_helpers_ranges (today : JsDate) (birthStr : string) :
  (∀ month day, getMonthDayFromBirth birthStr = Some (month, day) →
     (0 ≤ month ≤ 11 ∧ 1 ≤ day ≤ 31)%Z)
  ∧ (∀ age, getAgeFromBirth today birthStr = Some age → (0 ≤ age ≤ 150)%Z)
  ∧ (∀ year, getBirthYearFromBirth today birthStr = Some year → (100 ≤ year)%Z).
Proof.
  split_and!.
  - intros month day. unfold getMonthDayFromBirth. case_decide; [done|].
    destruct (split_dash (trim birthStr)) as [|d [|m [|y [|? ?]]]]; try done.
    destruct (months _) as [month'|] eqn:Hm; [|done].
    destruct (parseInt d) as [day'|]; [|done].
    case_decide; [done|]. intros [= <- <-].
    apply months_range in Hm. lia.
  - intros age. unfold getAgeFromBirth. case_decide; [done|].
    destruct (split_dash (trim birthStr)) as [|d [|m [|y [|? ?]]]]; try done.
    destruct (months _) as [month'|]; [|done].
    destruct (parseInt d) as [day'|]; [|done].
    unfold age_on. destruct (new_Date _ _ _); [|done].
    case_decide; [done|]. intros [= <-]. lia.
  - intros year. unfold getBirthYearFromBirth. case_decide; [done|].
    pose proof (split_dash_free (trim birthStr)) as Hfree.
    destruct (split_dash (trim birthStr)) as [|d [|m [|y [|? ?]]]]; try done.
    apply Forall_cons in Hfree as [_ Hfree].
    apply Forall_cons in Hfree as [_ Hfree].
    apply Forall_cons in Hfree as [Hy _].
    intros Hyear. apply (pivot_year_large today y year Hy).
    by destruct (parseInt y).
Qed.

(** ** The birthday list *)
Section Upcoming.

Variables (today : JsDate) (people : list Person).

Local Arguments add_days : simpl never.
Local Arguments birthday_of : simpl never.
Local Arguments date_key : simpl never.
Local Arguments weekday_name : simpl never.

Local Abbreviation day i := (add_days today (Z.of_nat i)).
Local Abbreviation found i := (omap (birthday_of today (day i)) people).

(** One round of the loop either appends to the persons of the entry
    that has the key of the day, or adds an entry at the end. *)
Lemma scan_day_unfold (byKey : list (string * BirthdayEntry)) (i : nat) :
  scan_day today people byKey i =
    if decide (date_key (day i) ∈ byKey.*1)
    then (λ kv : string * BirthdayEntry,
            if decide (kv.1 = date_key (day i))
            then (kv.1, mkBirthdayEntry (date kv.2) (dateStr kv.2) (weekday kv.2)
                          (persons kv.2 ++ found i))
            else kv) <$> byKey
    else byKey ++ [(date_key (day i),
                    mkBirthdayEntry (day i) (date_key (day i)) (weekday_name (day i))
                      (found i))].
Proof.
  unfold scan_day, date_key, weekday_name. cbv zeta.
  generalize (omap (birthday_of today (day i)) people). intros persons_found.
  generalize (default "" (WEEKDAYS !! Z.to_nat (getDay (day i)))). intros w.
  match goal with
  | |- context [list_find (λ kv : string * BirthdayEntry, kv.1 = ?k) byKey] =>
      generalize k
  end.
  generalize (day i). intros d key.
  destruct (list_find (λ kv : string * BirthdayEntry, kv.1 = key) byKey)
    as [[j kv]|] eqn:Hfind.
  - apply list_find_Some in Hfind as (Hj & Hkey & _).
    rewrite decide_True.
    2:{ apply list_elem_of_fmap. exists kv. split; [done|]. by eapply list_elem_of_lookup_2. }
    apply list_fmap_ext. intros _ [k [d0 ds w0 ps]] _. cbn [fst snd].
    case_decide as Hk; [|done]. cbn [fst] in Hk. by rewrite Hk.
  - rewrite decide_False; [done|].
    intros (kv & Hk & Hin)%list_elem_of_fmap.
    eapply list_find_None in Hfind. rewrite Forall_forall in Hfind.
    by apply (Hfind kv).
Qed.

Local Opaque add_days date_key weekday_name birthday_of scan_day.

Lemma scan_day_keys byKey i :
  (scan_day today people byKey i).*1 =
    if decide (date_key (day i) ∈ byKey.*1) then byKey.*1
    else byKey.*1 ++ [date_key (day i)].
Proof.
  rewrite scan_day_unfold. case_decide.
  - rewrite <- list_fmap_compose. apply list_fmap_ext.
    intros _ [k e] _. simpl. by case_decide.
  - by rewrite fmap_app.
Qed.

Lemma scan_day_elem byKey i k e :
  NoDup byKey.*1 →
  (k, e) ∈ scan_day today people byKey i ↔
    (k ≠ date_key (day i) ∧ (k, e) ∈ byKey)
    ∨ (k = date_key (day i) ∧
       (((date_key (day i) ∉ byKey.*1)
         ∧ e = mkBirthdayEntry (day i) (date_key (day i)) (weekday_name (day i)) (found i))
        ∨ ∃ e0, (k, e0) ∈ byKey
            ∧ e = mkBirthdayEntry (date e0) (dateStr e0) (weekday e0)
                    (persons e0 ++ found i))).
Proof.
  intros Hnd. rewrite scan_day_unfold. case_decide as Hin.
  - rewrite list_elem_of_fmap. split.
    + intros ([k0 e0] & Heq & Hin0). simpl in Heq. case_decide as Hk; simplify_eq.
      * right. split; [done|]. right. eauto.
      * left. done.
    + intros [[Hk Hke]|[-> [[? _]|(e0 & Hin0 & ->)]]]; [| done |].
      * exists (k, e). simpl. by rewrite decide_False.
      * exists (date_key (day i), e0). simpl. by rewrite decide_True.
  - rewrite elem_of_app, list_elem_of_singleton. split.
    + intros [Hke|[= -> ->]].
      * left. split; [|done]. intros ->. apply Hin.
        apply list_elem_of_fmap. by exists (date_key (day i), e).
      * right. split; [done|]. by left.
    + intros [[Hk Hke]|[-> [[_ ->]|(e0 & Hin0 & ->)]]]; [by left|by right|].
      destruct Hin. apply list_elem_of_fmap. by exists (date_key (day i), e0).
Qed.

Lemma scan_day_NoDup byKey i :
  NoDup byKey.*1 → NoDup (scan_day today people byKey i).*1.
Proof.
  intros Hnd. rewrite scan_day_keys. case_decide; [done|].
  apply NoDup_app. split_and!; [done| |apply NoDup_singleton].
  intros x Hx ->%list_elem_of_singleton. done.
Qed.

Lemma birthday_found i bp :
  bp ∈ found i ↔ ∃ p, p ∈ people ∧ birthday_of today (day i) p = Some bp.
Proof. rewrite list_elem_of_omap. naive_solver. Qed.

(** What holds of [byKey] after the rounds [0, ..., n - 1]. *)
Lemma scan_days_inv n :
  let byKey := foldl (scan_day today people) [] (seq 0 n) in
  NoDup byKey.*1
  ∧ (∀ k e, (k, e) ∈ byKey →
       dateStr e = k ∧ ∃ i, i < n ∧ date e = day i ∧ k = date_key (day i)
                            ∧ weekday e = weekday_name (day i))
  ∧ (∀ k e bp, (k, e) ∈ byKey → bp ∈ persons e →
       ∃ i p, i < n ∧ p ∈ people ∧ date_key (day i) = k
              ∧ birthday_of today (day i) p = Some bp)
  ∧ (∀ i p bp, i < n → p ∈ people → birthday_of today (day i) p = Some bp →
       ∃ e, (date_key (day i), e) ∈ byKey ∧ bp ∈ persons e)
  ∧ (∀ i, i < n → date_key (day i) ∈ byKey.*1).
Proof.
  induction n as [|n IH].
  { simpl. split_and!; [constructor|..]; try (intros; lia).
    - intros k e H. by apply elem_of_nil in H.
    - intros k e bp H. by apply elem_of_nil in H. }
  rewrite seq_S, foldl_app. simpl in *.
  destruct IH as (Hnd & Hentry & Hsound & Hcomplete & Hkeys).
  set (byKey := foldl (scan_day today people) [] (seq 0 n)) in *.
  split_and!.
  - by apply scan_day_NoDup.
  - intros k e Hin. apply scan_day_elem in Hin; [|done].
    destruct Hin as [[Hk Hin]|[-> [[Hnew ->]|(e0 & Hin0 & ->)]]].
    + destruct (Hentry _ _ Hin) as (? & i & ? & ?). split; [done|]. exists i. split; [lia|done].
    + split; [done|]. exists n. split; [lia|done].
    + destruct (Hentry _ _ Hin0) as (? & i & ? & ?). split; [done|].
      exists i. split; [lia|done].
  - intros k e bp Hin Hbp. apply scan_day_elem in Hin; [|done].
    destruct Hin as [[Hk Hin]|[-> [[Hnew ->]|(e0 & Hin0 & ->)]]].
    + destruct (Hsound _ _ _ Hin Hbp) as (i & p & ? & ?). exists i, p. split; [lia|done].
    + simpl in Hbp. apply birthday_found in Hbp as (p & ? & ?).
      exists n, p. split; [lia|done].
    + simpl in Hbp. apply elem_of_app in Hbp as [Hbp|Hbp].
      * destruct (Hsound _ _ _ Hin0 Hbp) as (i & p & ? & ?). exists i, p. split; [lia|done].
      * apply birthday_found in Hbp as (p & ? & ?). exists n, p. split; [lia|done].
  - intros i p bp Hi Hp Hbp.
    destruct (decide (i = n)) as [->|Hne].
    + assert (Hf : bp ∈ found n) by (apply birthday_found; eauto).
      destruct (decide (date_key (day n) ∈ byKey.*1)) as [Hin|Hin].
      * apply list_elem_of_fmap in Hin as ([k e0] & Hk & Hin0). simpl in Hk. subst k.
        eexists. split.
        { apply scan_day_elem; [done|]. right. split; [done|]. right. eauto. }
        simpl. apply elem_of_app. by right.
      * eexists. split.
        { apply scan_day_elem; [done|]. right. split; [done|]. by left. }
        done.
    + destruct (Hcomplete i p bp) as (e0 & Hin0 & Hbp0); [lia|done|done|].
      destruct (decide (date_key (day i) = date_key (day n))) as [Heq|Hkne].
      * eexists. split.
        { apply scan_day_elem; [done|]. right. split; [done|]. right.
          exists e0. split; [exact Hin0|done]. }
        simpl. apply elem_of_app. by left.
      * exists e0. split; [|done]. apply scan_day_elem; [done|]. by left.
  - intros i Hi. rewrite scan_day_keys.
    destruct (decide (i = n)) as [->|Hne].
    + case_decide; [done|]. apply elem_of_app. right. by apply list_elem_of_singleton.
    + assert (date_key (day i) ∈ byKey.*1) by (apply Hkeys; lia).
      case_decide; [done|]. apply elem_of_app. by left.
Qed.

Local Transparent add_days date_key weekday_name birthday_of scan_day.

End Upcoming.

Section Entries.

Context {V : Type}.
Implicit Types (l : list (string * V)) (keys : list string).

(** [keys.map(k => byKey[k])] on keys of the object. *)
Lemma lookup_entries l keys :
  (∀ k, k ∈ keys → k ∈ l.*1) →
  ∃ es, omap (λ k, snd <$> (snd <$> list_find (λ kv : string * V, kv.1 = k) l)) keys = es
        ∧ Forall2 (λ k e, (k, e) ∈ l) keys es.
Proof.
  induction keys as [|k keys IH]; intros Hkeys.
  { exists []. split; [done|constructor]. }
  destruct IH as (es & <- & Hall).
  { intros k' Hk'. apply Hkeys. by right. }
  assert (Hk : k ∈ l.*1) by (apply Hkeys; left).
  apply list_elem_of_fmap in Hk as ([k0 e0] & Hk0 & Hin0). simpl in Hk0. subst k0.
  destruct (list_find_elem_of (λ kv : string * V, kv.1 = k) l (k, e0) Hin0 eq_refl)
    as [[i [k1 e1]] Hfind].
  eexists. split; [reflexivity|].
  simpl. rewrite Hfind. simpl. constructor; [|done].
  apply list_find_Some in Hfind as (Hi & Hk1 & _). simpl in Hk1. subst k1.
  by eapply list_elem_of_lookup_2.
Qed.

Lemma StronglySorted_fmap_filter {A B} (R : relation B) (f : A → B)
    (P : A → Prop) `{∀ x, Decision (P x)} (xs : list A) :
  StronglySorted R (f <$> xs) → StronglySorted R (f <$> filter P xs).
Proof.
  induction xs as [|x xs IH]; [done|]. simpl. intros Hs.
  apply StronglySorted_inv in Hs as [Hs Hall].
  rewrite filter_cons. case_decide; [|by apply IH].
  simpl. constructor; [by apply IH|].
  rewrite Forall_forall in Hall. apply Forall_forall. intros y Hy. apply Hall.
  apply list_elem_of_fmap in Hy as (a & -> & Ha).
  apply list_elem_of_filter in Ha as [_ Ha].
  apply list_elem_of_fmap. eauto.
Qed.

End Entries.

Section UpcomingResult.

Variables (today : JsDate) (people : list Person) (daysAhead : Z).

Local Opaque add_days date_key weekday_name birthday_of scan_day.

Local Abbreviation byKey :=
  (foldl (scan_day today people) [] (seq 0 (Z.to_nat daysAhead))).

(** The entries before the last [filter], each with its key, in the
    order of the sorted keys. *)
Lemma upcoming_entries :
  ∃ es,
    getUpcomingBirthdays today people daysAhead = filter (λ e, persons e ≠ []) es
    ∧ dateStr <$> es = js_sort byKey.*1
    ∧ ∀ e, e ∈ es ↔ ∃ k, (k, e) ∈ byKey.
Proof.
  destruct (scan_days_inv today people (Z.to_nat daysAhead))
    as (Hnd & Hentry & _).
  cbv zeta in Hnd, Hentry.
  assert (Hperm : js_sort byKey.*1 ≡ₚ byKey.*1).
  { unfold js_sort. apply merge_sort_Permutation. }
  destruct (lookup_entries byKey (js_sort byKey.*1)) as (es & Hes & Hall).
  { intros k. by rewrite Hperm. }
  exists es. split_and!.
  - unfold getUpcomingBirthdays. cbv zeta. by rewrite Hes.
  - clear Hes Hperm. revert Hall. generalize (js_sort byKey.*1). intros keys Hall.
    induction Hall as [|k e keys es' Hke _ IH]; [done|].
    simpl. f_equal; [|done]. by destruct (Hentry k e Hke).
  - intros e. split.
    + intros He. apply list_elem_of_lookup in He as [i Hi].
      destruct (Forall2_lookup_r _ _ _ _ _ Hall Hi) as (k & _ & Hke). eauto.
    + intros (k & Hke).
      assert (Hk : k ∈ js_sort byKey.*1).
      { rewrite Hperm. apply list_elem_of_fmap. by exists (k, e). }
      apply list_elem_of_lookup in Hk as [i Hi].
      destruct (Forall2_lookup_l _ _ _ _ _ Hall Hi) as (e' & He' & Hke').
      assert (e' = e) as ->.
      { eapply NoDup_fst_unique; [exact Hnd|exact Hke'|exact Hke]. }
      by eapply list_elem_of_lookup_2.
Qed.

Local Transparent add_days date_key weekday_name birthday_of scan_day.

End UpcomingResult.


(** X16. Order of the birthday list. The entries that
    [getUpcomingBirthdays] returns are in ascending order of their
    [dateStr] compared as strings, no two have the same [dateStr], none has
    an empty [persons] array, and there is none at all when [daysAhead] is
    zero or less. *)
Theorem birthday_list_order (today : JsDate) (people : list Person) (daysAhead : Z) :
  StronglySorted String.le (dateStr <$> getUpcomingBirthdays today people daysAhead)
  ∧ NoDup (dateStr <$> getUpcomingBirthdays today people daysAhead)
  ∧ (∀ e, e ∈ getUpcomingBirthdays today people daysAhead → persons e ≠ [])
  ∧ ((daysAhead ≤ 0)%Z → getUpcomingBirthdays today people daysAhead = []).
Proof.
  destruct (upcoming_entries today people daysAhead) as (es & Hr & Hkeys & _).
  destruct (scan_days_inv today people (Z.to_nat daysAhead)) as (Hnd & _).
  cbv zeta in Hnd. split_and!.
  - rewrite Hr. apply StronglySorted_fmap_filter. rewrite Hkeys.
    unfold js_sort. apply (StronglySorted_merge_sort _).
  - rewrite Hr. eapply sublist_NoDup; [|apply fmap_sublist, sublist_filter].
    rewrite Hkeys. unfold js_sort. by rewrite merge_sort_Permutation.
  - intros e. rewrite Hr. by intros [? _]%list_elem_of_filter.
  - intros Hle. unfold getUpcomingBirthdays.
    replace (Z.to_nat daysAhead) with 0 by lia. reflexivity.
Qed.


(** ** Phone numbers *)
Section Phone.

Lemma digit_not_space c : is_digit c = true → is_space c = false.
Proof.
  unfold is_digit, is_space. intros Hd%bool_decide_eq_true.
  apply bool_decide_eq_false. lia.
Qed.

Lemma strip_trim_start s : strip_non_digits (trim_start s) = strip_non_digits s.
Proof.
  induction s as [|c s IH]; [done|]. simpl.
  destruct (is_space c) eqn:Hs; [|done].
  destruct (is_digit c) eqn:Hd; [|done].
  apply digit_not_space in Hd. congruence.
Qed.

Lemma strip_blank s : trim_end s = "" → strip_non_digits s = "".
Proof.
  induction s as [|c s IH]; [done|]. simpl.
  destruct (trim_end s) as [|c' r] eqn:Hr; [|done].
  destruct (is_space c) eqn:Hs; [|done]. intros _.
  destruct (is_digit c) eqn:Hd; [|by apply IH].
  apply digit_not_space in Hd. congruence.
Qed.

Lemma strip_of_blank s : trim s = "" → strip_non_digits s = "".
Proof. unfold trim. intros H%strip_blank. by rewrite strip_trim_start in H. Qed.

Lemma strip_idem s : strip_non_digits (strip_non_digits s) = strip_non_digits s.
Proof.
  induction s as [|c s IH]; [done|]. simpl.
  destruct (is_digit c) eqn:Hd; [|done]. simpl. by rewrite Hd, IH.
Qed.

End Phone.

(** X18. The WhatsApp link is made of the digits of the phone number
    alone: [getWhatsAppUrl] returns the empty string exactly when the
    argument holds no decimal digit, and otherwise ["https://wa.me/"]
    followed by its digits in their order; two arguments with the same
    digits give the same link. *)
Theorem whatsapp_url_of_digits (phone : string) :
  getWhatsAppUrl phone =
    (if decide (strip_non_digits phone = "") then ""
     else String.append "https://wa.me/" (strip_non_digits phone))
  ∧ (getWhatsAppUrl phone = "" ↔ strip_non_digits phone = "")
  ∧ ∀ phone', strip_non_digits phone' = strip_non_digits phone →
      getWhatsAppUrl phone' = getWhatsAppUrl phone.
Proof.
  assert (Hform : ∀ p, getWhatsAppUrl p =
            (if decide (strip_non_digits p = "") then ""
             else String.append "https://wa.me/" (strip_non_digits p))).
  { intros p. unfold getWhatsAppUrl. case_decide as Hblank.
    - rewrite decide_True; [done|].
      destruct Hblank as [->|Hblank]; [done|]. by apply strip_of_blank.
    - cbv zeta. destruct (strip_non_digits p); [done|].
      rewrite decide_False by done. by rewrite decide_False. }
  split_and!.
  - apply Hform.
  - rewrite Hform. case_decide; [done|]. split; [|done].
    by destruct (strip_non_digits phone).
  - intros phone' Heq. by rewrite !Hform, Heq.
Qed.

(** ** Search suggestions *)
Section Search.

Variable query : string.

Local Abbreviation hit := (λ person : Person, includes (toLowerCase (name person)) query = true).

Lemma search_loop_take people matches :
  length matches < 20 →
  search_loop query people matches = take 20 (matches ++ filter hit people).
Proof.
  revert matches. induction people as [|person people IH]; intros matches Hlen.
  - simpl. rewrite app_nil_r. rewrite take_ge by lia. done.
  - simpl. destruct (includes (toLowerCase (name person)) query) eqn:Hhit.
    + rewrite filter_cons_True by done. case_decide as Hfull.
      * rewrite length_app in Hfull. simpl in Hfull.
        rewrite (cons_middle person matches (filter _ people)), app_assoc.
        rewrite take_app_le by (rewrite length_app; simpl; lia).
        rewrite take_ge; [done|]. rewrite length_app. simpl. lia.
      * rewrite IH by lia. by rewrite <- app_assoc.
    + rewrite filter_cons_False by (by rewrite Hhit). by apply IH.
Qed.

End Search.

(** X19. Search suggestions. A typed text whose lower-cased, trimmed
    form has fewer than two code units shows no suggestion list; any other
    text shows the first twenty records of [PEOPLE], in the order of
    [PEOPLE], whose lower-cased name contains that form, so all of them
    when there are fewer than twenty. *)
Theorem search_shows_first_twenty (people : list Person) (value : string) :
  match handleSearch people value with
  | None => String.length (trim (toLowerCase value)) < 2
  | Some matches =>
      2 ≤ String.length (trim (toLowerCase value))
      ∧ matches = take 20 (filter (λ person,
                    includes (toLowerCase (name person)) (trim (toLowerCase value)) = true)
                    people)
      ∧ length matches ≤ 20
  end.
Proof.
  unfold handleSearch. cbv zeta. case_decide as Hshort; [done|].
  split; [lia|]. rewrite search_loop_take by (simpl; lia). simpl.
  split; [done|]. rewrite length_take. lia.
Qed.

(** ** Home person *)
Section Home.

Variables (people : list Person) (explicit : gmap string Gender).

Lemma Build_has_record p : p ∈ people → is_Some (peopleMap (Build people explicit) !! id p).
Proof.
  intros Hp. simpl. rewrite index_people_last.
  assert (Hin : p ∈ filter (λ q, id q = id p) people) by (by apply list_elem_of_filter).
  destruct (last (filter (λ q, id q = id p) people)) as [q|] eqn:Hlast; [eauto|].
  apply last_None in Hlast. rewrite Hlast in Hin. by apply elem_of_nil in Hin.
Qed.

Lemma family_set_nonempty c :
  is_Some (peopleMap (Build people explicit) !! c) →
  getFamilySet (Build people explicit) c ≠ [].
Proof.
  intros [cn Hc] Hnil.
  pose proof (getFamilySet_ids _ _ _ Hc) as Hids. rewrite Hnil in Hids.
  destruct (collect_sound _ _ _ Hc) as (_ & _ & Hhead).
  destruct (collect (Build people explicit) c cn); done.
Qed.

End Home.

(** X20. The home person can be drawn. In a built store
    [getHomePersonId] returns [null] only when [PEOPLE] is empty; an id
    that it returns, whatever the browser has stored, is a key of
    [peopleMap], and [getFamilySet] of it is not empty. *)
Theorem home_person_is_known (people : list Person) (explicit : gmap string Gender)
    (stored : option string) :
  match getHomePersonId (Build people explicit) stored with
  | None => people = []
  | Some homeId =>
      is_Some (peopleMap (Build people explicit) !! homeId)
      ∧ getFamilySet (Build people explicit) homeId ≠ []
  end.
Proof.
  assert (Hfallback :
    match (match list_find (λ p : Person, name p = "SRIKANTH DHARMAVARAM") people with
           | Some (_, homePerson) => Some (id homePerson)
           | None => match people with
                     | p0 :: _ => Some (id p0)
                     | [] => None
                     end
           end) with
    | None => people = []
    | Some homeId =>
        is_Some (peopleMap (Build people explicit) !! homeId)
        ∧ getFamilySet (Build people explicit) homeId ≠ []
    end).
  { destruct (list_find _ people) as [[i homePerson]|] eqn:Hfind.
    - apply list_find_Some in Hfind as (Hi%list_elem_of_lookup_2 & _).
      pose proof (Build_has_record people explicit _ Hi). split; [done|].
      by apply family_set_nonempty.
    - destruct people as [|p0 rest]; [done|].
      assert (Hp0 : p0 ∈ p0 :: rest) by left.
      pose proof (Build_has_record (p0 :: rest) explicit _ Hp0). split; [done|].
      by apply family_set_nonempty. }
  unfold getHomePersonId. cbv zeta.
  change (PEOPLE (Build people explicit)) with people.
  destruct (js_ref stored) as [homeId|]; [|exact Hfallback].
  case_decide as Hknown; [|exact Hfallback].
  split; [done|]. by apply family_set_nonempty.
Qed.

(** ** Maps in insertion order *)
Section JsMapFacts.

Context {V : Type}.
Implicit Types (m : list (string * V)) (k : string).

Lemma has_spec m k : JsMap.has m k = true ↔ k ∈ m.*1.
Proof. unfold JsMap.has. apply bool_decide_eq_true. Qed.

Lemma set_keys m k v :
  (JsMap.set m k v).*1 = if decide (k ∈ m.*1) then m.*1 else m.*1 ++ [k].
Proof.
  unfold JsMap.set, JsMap.has. case_bool_decide as Hk.
  - rewrite decide_True by done. rewrite <- list_fmap_compose.
    apply list_fmap_ext. intros _ [k' v'] _. simpl. by case_decide.
  - rewrite decide_False by done. by rewrite fmap_app.
Qed.

Lemma set_elem m k v k' v' :
  (k', v') ∈ JsMap.set m k v ↔ (k' ≠ k ∧ (k', v') ∈ m) ∨ (k' = k ∧ v' = v).
Proof.
  unfold JsMap.set, JsMap.has. case_bool_decide as Hk.
  - rewrite list_elem_of_fmap. split.
    + intros ([k0 v0] & Heq & Hin). simpl in Heq. case_decide; simplify_eq; eauto.
    + intros [[Hne Hin]|[-> ->]].
      * exists (k', v'). simpl. by rewrite decide_False.
      * apply list_elem_of_fmap in Hk as ([k0 v0] & -> & Hin).
        exists (k0, v0). simpl. by rewrite decide_True.
  - rewrite elem_of_app, list_elem_of_singleton. split.
    + intros [Hin|[= -> ->]]; [left|by right]. split; [|done].
      intros ->. apply Hk. apply list_elem_of_fmap. by exists (k, v').
    + intros [[_ ?]|[-> ->]]; [by left|by right].
Qed.

Lemma update_keys m k f : (JsMap.update m k f).*1 = m.*1.
Proof.
  unfold JsMap.update. rewrite <- list_fmap_compose.
  apply list_fmap_ext. intros _ [k' v'] _. simpl. by case_decide.
Qed.

Lemma update_elem m k f k' v' :
  (k', v') ∈ JsMap.update m k f ↔
    (k' ≠ k ∧ (k', v') ∈ m) ∨ (k' = k ∧ ∃ v, (k, v) ∈ m ∧ v' = f v).
Proof.
  unfold JsMap.update. rewrite list_elem_of_fmap. split.
  - intros ([k0 v0] & Heq & Hin). simpl in Heq. case_decide; simplify_eq; eauto.
  - intros [[Hne Hin]|[-> (v & Hin & ->)]].
    + exists (k', v'). simpl. by rewrite decide_False.
    + exists (k, v). simpl. by rewrite decide_True.
Qed.

End JsMapFacts.

Lemma foldl_invariant {A B} (P : list A → B → Prop) (f : B → A → B) (b : B) (l : list A) :
  P [] b →
  (∀ before x b', P before b' → x ∈ l → P (before ++ [x]) (f b' x)) →
  P l (foldl f b l).
Proof.
  intros Hb Hstep.
  enough (∀ before rest b', before ++ rest = l → P before b' →
            P (before ++ rest) (foldl f b' rest)) as Hgen.
  { by apply (Hgen [] l b). }
  intros before rest. revert before.
  induction rest as [|x rest IH]; intros before b' Heq Hp.
  - by rewrite app_nil_r.
  - simpl. rewrite (cons_middle x before rest), app_assoc.
    apply IH.
    + by rewrite <- app_assoc.
    + apply Hstep; [done|]. rewrite <- Heq. apply elem_of_app. right. left.
Qed.

(** ** The loop over [persons] *)
Section Created.

Variables (contactsMap : gmap string contacts_json.row)
          (places : gmap string (option string)).

Lemma add_person_entry state p :
  ∃ person,
    (add_person contactsMap places state p).2
      = JsMap.set state.2 (persons_json.person_id p) person
    ∧ id person = persons_json.person_id p
    ∧ fid person = Some "" ∧ mid person = Some "" ∧ pids person = Some [].
Proof. eexists. split; [reflexivity|]. done. Qed.

Lemma created_entries persons gm0 :
  NoDup (foldl (add_person contactsMap places) (gm0, []) persons).2.*1
  ∧ (∀ k, k ∈ (foldl (add_person contactsMap places) (gm0, []) persons).2.*1 ↔
          k ∈ persons_json.person_id <$> persons)
  ∧ (∀ k p, (k, p) ∈ (foldl (add_person contactsMap places) (gm0, []) persons).2 →
       id p = k ∧ fid p = Some "" ∧ mid p = Some "" ∧ pids p = Some []).
Proof.
  apply (foldl_invariant
           (λ before (st : gmap string Gender * list (string * Person)),
              NoDup st.2.*1
              ∧ (∀ k, k ∈ st.2.*1 ↔ k ∈ persons_json.person_id <$> before)
              ∧ (∀ k p, (k, p) ∈ st.2 →
                   id p = k ∧ fid p = Some "" ∧ mid p = Some "" ∧ pids p = Some []))).
  - split_and!; [constructor|done|]. intros k p H. by apply elem_of_nil in H.
  - intros before row st (Hnd & Hkeys & Hfresh) _.
    destruct (add_person_entry st row) as (person & -> & Hid & Hf & Hm & Hp).
    split_and!.
    + rewrite set_keys. case_decide as Hin; [done|].
      apply NoDup_app. split_and!; [done| |apply NoDup_singleton].
      intros x Hx ->%list_elem_of_singleton. done.
    + intros k. rewrite set_keys, fmap_app, elem_of_app. simpl.
      rewrite list_elem_of_singleton, <- Hkeys.
      case_decide as Hin.
      * split; [by left|]. intros [Hk| ->]; done.
      * rewrite elem_of_app, list_elem_of_singleton. done.
    + intros k p. rewrite set_elem. intros [[_ Hin]|[-> ->]]; [by apply Hfresh|done].
Qed.

End Created.

(** ** The loop over [families], key by key *)
Section Linked.

Implicit Types (m : list (string * Person)) (k : string) (p : Person).

Lemma guarded_update m c (f : Person → Person) :
  (if JsMap.has m c then JsMap.update m c f else m)
    = (λ kv : string * Person,
         (kv.1, if decide (kv.1 = c) then f kv.2 else kv.2)) <$> m.
Proof.
  unfold JsMap.has, JsMap.update. case_bool_decide as Hc.
  - apply list_fmap_ext. intros _ [k v] _. simpl. by case_decide.
  - rewrite <- (list_fmap_id m) at 1.
    apply list_fmap_ext. intros i [k v] Hi. simpl.
    destruct (decide (k = c)) as [->|Hne]; [|done]. exfalso. apply Hc.
    apply list_elem_of_fmap. exists (c, v). split; [done|].
    by apply list_elem_of_lookup_2 in Hi.
Qed.

Lemma set_parents_twice h w p :
  set_parents h w (set_parents h w p) = set_parents h w p.
Proof. unfold set_parents. simpl. by destruct (js_ref h), (js_ref w). Qed.

Lemma children_loop m (f : Person → Person) cs :
  (∀ p, f (f p) = f p) →
  foldl (λ m' c, if JsMap.has m' c then JsMap.update m' c f else m') m cs
    = (λ kv : string * Person,
         (kv.1, if decide (kv.1 ∈ cs) then f kv.2 else kv.2)) <$> m.
Proof.
  intros Hf. revert m. induction cs as [|c cs IH]; intros m.
  - simpl. rewrite <- (list_fmap_id m) at 1.
    apply list_fmap_ext. intros _ [k v] _. simpl.
    destruct (decide (k ∈ [])) as [Hin|_]; [|done]. by apply elem_of_nil in Hin.
  - simpl. rewrite IH, guarded_update, <- list_fmap_compose.
    apply list_fmap_ext. intros _ [k v] _. simpl. f_equal.
    destruct (decide (k = c)) as [->|Hne].
    + rewrite (decide_True (P := c ∈ c :: cs)) by left.
      case_decide; [apply Hf|done].
    + destruct (decide (k ∈ cs)) as [Hin|Hout].
      * rewrite decide_True; [done|by right].
      * rewrite decide_False; [done|]. by intros [->|?]%elem_of_cons.
Qed.

Lemma link_family_entries m family :
  link_family m family
    = (λ kv : string * Person,
         (kv.1, link_family_at m.*1 family kv.1 kv.2)) <$> m.
Proof.
  unfold link_family, link_family_at. cbv zeta.
  set (h := families_json.husband_id family).
  set (w := families_json.wife_id family).
  assert (Hlinked :
    match js_ref h, js_ref w with
    | Some h', Some w' =>
        if JsMap.has m h' && JsMap.has m w'
        then JsMap.update (JsMap.update m h' (add_pid w')) w' (add_pid h')
        else m
    | _, _ => m
    end
    = (λ kv : string * Person,
         (kv.1,
          match js_ref h, js_ref w with
          | Some h', Some w' =>
              if bool_decide (h' ∈ m.*1) && bool_decide (w' ∈ m.*1)
              then
                let person' := if decide (kv.1 = h') then add_pid w' kv.2 else kv.2 in
                if decide (kv.1 = w') then add_pid h' person' else person'
              else kv.2
          | _, _ => kv.2
          end)) <$> m).
  { assert (Hid : m = (λ kv : string * Person, (kv.1, kv.2)) <$> m).
    { rewrite <- (list_fmap_id m) at 1. apply list_fmap_ext. by intros _ [??] _. }
    destruct (js_ref h) as [h'|]; [|exact Hid].
    destruct (js_ref w) as [w'|]; [|exact Hid].
    unfold JsMap.has.
    destruct (bool_decide (h' ∈ m.*1) && bool_decide (w' ∈ m.*1)); [|exact Hid].
    unfold JsMap.update. rewrite <- list_fmap_compose.
    apply list_fmap_ext. intros _ [k v] _. simpl.
    destruct (decide (k = h')) as [->|Hh]; simpl; by case_decide. }
  rewrite Hlinked.
  destruct (families_json.children family) as [cs|]; [|done].
  rewrite children_loop by apply set_parents_twice.
  rewrite <- list_fmap_compose. apply list_fmap_ext. intros _ [k v] _. done.
Qed.

Lemma link_family_keys m family : (link_family m family).*1 = m.*1.
Proof.
  rewrite link_family_entries, <- list_fmap_compose.
  apply list_fmap_ext. by intros _ [??] _.
Qed.

Lemma link_families_entries families m :
  foldl link_family m families
    = (λ kv : string * Person,
         (kv.1, foldl (λ p family, link_family_at m.*1 family kv.1 p) kv.2 families))
        <$> m.
Proof.
  revert m. induction families as [|family families IH]; intros m.
  - simpl. rewrite <- (list_fmap_id m) at 1. apply list_fmap_ext. by intros _ [??] _.
  - simpl. rewrite IH, link_family_keys, link_family_entries, <- list_fmap_compose.
    apply list_fmap_ext. by intros _ [??] _.
Qed.

End Linked.

Section AtOneKey.

Variable keys : list string.
Implicit Types (k x : string) (p : Person) (family : families_json.row).

Lemma add_pid_keeps x p :
  id (add_pid x p) = id p ∧ name (add_pid x p) = name p
  ∧ fid (add_pid x p) = fid p ∧ mid (add_pid x p) = mid p.
Proof. unfold add_pid. destruct (pids p); [case_decide|]; done. Qed.

Lemma add_pid_pids x p ps :
  pids p = Some ps → NoDup ps →
  ∃ ps', pids (add_pid x p) = Some ps' ∧ NoDup ps' ∧ ∀ y, y ∈ ps' ↔ y ∈ ps ∨ y = x.
Proof.
  intros Hp Hnd. unfold add_pid. rewrite Hp. case_decide as Hx.
  - exists ps. split_and!; [done..|]. intros y. split; [by left|]. by intros [?| ->].
  - exists (ps ++ [x]). simpl. split_and!; [done| |].
    + apply NoDup_app. split_and!; [done| |apply NoDup_singleton].
      by intros y Hy ->%list_elem_of_singleton.
    + intros y. by rewrite elem_of_app, list_elem_of_singleton.
Qed.

Lemma link_family_at_keeps family k p :
  id (link_family_at keys family k p) = id p
  ∧ name (link_family_at keys family k p) = name p.
Proof.
  unfold link_family_at. cbv zeta.
  set (linked := match js_ref (families_json.husband_id family) with
                 | Some h => _ | None => _ end).
  assert (id linked = id p ∧ name linked = name p) as [Hi Hn].
  { unfold linked.
    destruct (js_ref (families_json.husband_id family)) as [h|]; [|done].
    destruct (js_ref (families_json.wife_id family)) as [w|]; [|done].
    destruct (_ && _); [|done].
    repeat case_decide;
      repeat match goal with
             | |- context [add_pid ?y ?q] =>
                 destruct (add_pid_keeps y q) as (-> & -> & _ & _)
             end; done. }
  destruct (families_json.children family) as [cs|]; [|done].
  case_decide; done.
Qed.

Lemma link_family_at_parents family k p :
  fid (link_family_at keys family k p)
    = (if decide (is_Some (js_ref (families_json.husband_id family))
                  ∧ k ∈ default [] (families_json.children family))
       then families_json.husband_id family else fid p)
  ∧ mid (link_family_at keys family k p)
    = (if decide (is_Some (js_ref (families_json.wife_id family))
                  ∧ k ∈ default [] (families_json.children family))
       then families_json.wife_id family else mid p).
Proof.
  unfold link_family_at. cbv zeta.
  set (linked := match js_ref (families_json.husband_id family) with
                 | Some h => _ | None => _ end).
  assert (fid linked = fid p ∧ mid linked = mid p) as [Hf Hm].
  { unfold linked.
    destruct (js_ref (families_json.husband_id family)) as [h|]; [|done].
    destruct (js_ref (families_json.wife_id family)) as [w|]; [|done].
    destruct (_ && _); [|done].
    repeat case_decide;
      repeat match goal with
             | |- context [add_pid ?y ?q] =>
                 destruct (add_pid_keeps y q) as (_ & _ & -> & ->)
             end; done. }
  destruct (families_json.children family) as [cs|]; simpl.
  - destruct (decide (k ∈ cs)) as [Hin|Hout].
    + unfold set_parents. simpl.
      destruct (js_ref (families_json.husband_id family)) as [h|] eqn:Hh,
               (js_ref (families_json.wife_id family)) as [w|] eqn:Hw;
        repeat case_decide; try done;
        repeat match goal with
               | H : ¬ (_ ∧ _) |- _ => exfalso; apply H; split; [by eexists|done]
               | H : is_Some None ∧ _ |- _ => destruct H as [[? [=]] _]
               end.
    + rewrite !decide_False by (by intros [_ ?]). done.
  - rewrite !decide_False by (intros [_ ?%elem_of_nil]; done). done.
Qed.

Lemma link_family_at_pids family k p ps :
  pids p = Some ps → NoDup ps →
  ∃ ps', pids (link_family_at keys family k p) = Some ps' ∧ NoDup ps'
    ∧ ∀ x, x ∈ ps' ↔
        x ∈ ps
        ∨ (k ∈ keys ∧ x ∈ keys
           ∧ ((js_ref (families_json.husband_id family) = Some k
               ∧ js_ref (families_json.wife_id family) = Some x)
              ∨ (js_ref (families_json.husband_id family) = Some x
                 ∧ js_ref (families_json.wife_id family) = Some k))).
Proof.
  intros Hp Hnd. unfold link_family_at. cbv zeta.
  set (linked := match js_ref (families_json.husband_id family) with
                 | Some h => _ | None => _ end).
  assert (pids (match families_json.children family with
                | Some cs =>
                    if decide (k ∈ cs)
                    then set_parents (families_json.husband_id family)
                           (families_json.wife_id family) linked
                    else linked
                | None => linked
                end) = pids linked) as ->.
  { destruct (families_json.children family); [case_decide|]; done. }
  unfold linked. clear linked.
  destruct (js_ref (families_json.husband_id family)) as [h|].
  2:{ exists ps. split_and!; [done..|]. intros x. split; [by left|].
      intros [?|(_ & _ & [[[=] _]|[[=] _]])]. done. }
  destruct (js_ref (families_json.wife_id family)) as [w|].
  2:{ exists ps. split_and!; [done..|]. intros x. split; [by left|].
      intros [?|(_ & _ & [[_ [=]]|[_ [=]]])]. done. }
  destruct (bool_decide (h ∈ keys)) eqn:Hh; simpl.
  2:{ apply bool_decide_eq_false in Hh.
      exists ps. split_and!; [done..|]. intros x. split; [by left|].
      intros [?|(Hk & Hx & [[[= ->] [= ->]]|[[= ->] [= ->]]])]; done. }
  destruct (bool_decide (w ∈ keys)) eqn:Hw; simpl.
  2:{ apply bool_decide_eq_false in Hw.
      exists ps. split_and!; [done..|]. intros x. split; [by left|].
      intros [?|(Hk & Hx & [[[= ->] [= ->]]|[[= ->] [= ->]]])]; done. }
  apply bool_decide_eq_true in Hh, Hw.
  destruct (decide (k = h)) as [->|Hkh].
  - destruct (add_pid_pids w p ps Hp Hnd) as (ps1 & Hp1 & Hnd1 & Hin1).
    destruct (decide (h = w)) as [->|Hhw].
    + destruct (add_pid_pids w (add_pid w p) ps1 Hp1 Hnd1) as (ps2 & Hp2 & Hnd2 & Hin2).
      exists ps2. split_and!; [done..|]. intros x. rewrite Hin2, Hin1. split.
      * intros [[?| ->]| ->]; [by left|right..]; split_and!; try done; by left.
      * intros [?|(_ & _ & [[_ [= ->]]|[[= ->] _]])]; [by left; left|by right..].
    + exists ps1. split_and!; [done..|]. intros x. rewrite Hin1. split.
      * intros [?| ->]; [by left|right]. split_and!; try done. by left.
      * intros [?|(_ & _ & [[_ [= ->]]|[_ [= ->]]])]; [by left|by right|done].
  - destruct (decide (k = w)) as [->|Hkw].
    + destruct (add_pid_pids h p ps Hp Hnd) as (ps1 & Hp1 & Hnd1 & Hin1).
      exists ps1. split_and!; [done..|]. intros x. rewrite Hin1. split.
      * intros [?| ->]; [by left|right]. split_and!; try done. by right.
      * intros [?|(_ & _ & [[[= ->] _]|[[= ->] _]])]; [by left|done|by right].
    + exists ps. split_and!; [done..|]. intros x. split; [by left|].
      intros [?|(_ & _ & [[[= ->] _]|[_ [= ->]]])]; done.
Qed.

End AtOneKey.

Lemma find_cons_match {A B} (P : A → Prop) `{∀ x, Decision (P x)}
    (f : A → B) (d : B) (x : A) (l : list A) :
  match list_find P (x :: l) with Some (_, y) => f y | None => d end
    = if decide (P x) then f x
      else match list_find P l with Some (_, y) => f y | None => d end.
Proof.
  simpl. destruct (decide (P x)); [done|].
  by destruct (list_find P l) as [[??]|].
Qed.

Section AllFamilies.

Variable keys : list string.
Implicit Types (k x : string) (p : Person) (families : list families_json.row).

Lemma link_all_keeps families k p :
  id (foldl (λ q family, link_family_at keys family k q) p families) = id p
  ∧ name (foldl (λ q family, link_family_at keys family k q) p families) = name p.
Proof.
  revert p. induction families as [|family families IH]; intros p; [done|].
  simpl. destruct (IH (link_family_at keys family k p)) as [-> ->].
  apply link_family_at_keeps.
Qed.

Lemma link_all_parents families k p :
  fid (foldl (λ q family, link_family_at keys family k q) p families)
    = match list_find (λ family,
                is_Some (js_ref (families_json.husband_id family))
                ∧ k ∈ default [] (families_json.children family)) (reverse families) with
      | Some (_, family) => families_json.husband_id family
      | None => fid p
      end
  ∧ mid (foldl (λ q family, link_family_at keys family k q) p families)
    = match list_find (λ family,
                is_Some (js_ref (families_json.wife_id family))
                ∧ k ∈ default [] (families_json.children family)) (reverse families) with
      | Some (_, family) => families_json.wife_id family
      | None => mid p
      end.
Proof.
  induction families as [|family families [IHf IHm]] using rev_ind; [done|].
  rewrite foldl_app, reverse_snoc, !find_cons_match. cbn [foldl].
  destruct (link_family_at_parents keys family k
              (foldl (λ q family, link_family_at keys family k q) p families))
    as [-> ->].
  by rewrite IHf, IHm.
Qed.

Lemma link_all_pids families k p ps :
  pids p = Some ps → NoDup ps →
  ∃ ps', pids (foldl (λ q family, link_family_at keys family k q) p families) = Some ps'
    ∧ NoDup ps'
    ∧ ∀ x, x ∈ ps' ↔
        x ∈ ps
        ∨ (k ∈ keys ∧ x ∈ keys
           ∧ ∃ family, family ∈ families
               ∧ ((js_ref (families_json.husband_id family) = Some k
                   ∧ js_ref (families_json.wife_id family) = Some x)
                  ∨ (js_ref (families_json.husband_id family) = Some x
                     ∧ js_ref (families_json.wife_id family) = Some k))).
Proof.
  revert p ps. induction families as [|family families IH]; intros p ps Hp Hnd.
  - exists ps. split_and!; [done..|]. intros x. split; [by left|].
    intros [?|(_ & _ & family & []%elem_of_nil & _)]. done.
  - simpl.
    destruct (link_family_at_pids keys family k p ps Hp Hnd) as (ps1 & Hp1 & Hnd1 & Hin1).
    destruct (IH _ ps1 Hp1 Hnd1) as (ps2 & Hp2 & Hnd2 & Hin2).
    exists ps2. split_and!; [done..|]. intros x. rewrite Hin2, Hin1. split.
    + intros [[?|(Hk & Hx & Hc)]|(Hk & Hx & fam & Hfam & Hc)]; [by left|right..].
      * split_and!; [done..|]. exists family. split; [left|done].
      * split_and!; [done..|]. exists fam. split; [by right|done].
    + intros [?|(Hk & Hx & fam & [->|Hfam]%elem_of_cons & Hc)]; [by left; left|..].
      * left. right. done.
      * right. split_and!; [done..|]. by exists fam.
Qed.

End AllFamilies.

Lemma linked_ids (m : list (string * Person)) (families : list families_json.row) :
  (∀ k p, (k, p) ∈ m → id p = k) →
  id <$> JsMap.values (foldl link_family m families) = m.*1.
Proof.
  intros Hid. unfold JsMap.values.
  rewrite link_families_entries, <- !list_fmap_compose.
  apply list_fmap_ext. intros i [k q] Hi. simpl.
  destruct (link_all_keeps m.*1 families k q) as [-> _].
  apply Hid. by apply list_elem_of_lookup_2 in Hi.
Qed.

Section Loaded.

Variables (persons : list persons_json.row) (families : list families_json.row)
          (places : gmap string (option string)) (contacts : list contacts_json.row)
          (genderMap : gmap string Gender).

Lemma add_person_name contactsMap state row k p :
  (k, p) ∈ (add_person contactsMap places state row).2 →
  (k ≠ persons_json.person_id row ∧ (k, p) ∈ state.2)
  ∨ (k = persons_json.person_id row ∧ (name p = "" → k = "")).
Proof.
  unfold add_person. cbv zeta. simpl. rewrite set_elem.
  intros [?|[-> ->]]; [by left|right]. split; [done|]. simpl.
  case_decide as He; [done|]. intros Hn. by destruct He.
Qed.

Lemma created_names contactsMap gm0 k p :
  (k, p) ∈ (foldl (add_person contactsMap places) (gm0, []) persons).2 →
  name p = "" → k = "".
Proof.
  revert k p.
  apply (foldl_invariant
           (λ _ (st : gmap string Gender * list (string * Person)),
              ∀ k p, (k, p) ∈ st.2 → name p = "" → k = "")).
  - intros k p H. by apply elem_of_nil in H.
  - intros _ row st IH _ k p Hin.
    apply add_person_name in Hin as [[_ Hin]|[_ Hn]]; [by apply IH|done].
Qed.

Lemma created_order contactsMap gm0 :
  (foldl (add_person contactsMap places) (gm0, []) persons).2.*1
    = reverse (remove_dups (reverse (persons_json.person_id <$> persons))).
Proof.
  apply (foldl_invariant
           (λ before (st : gmap string Gender * list (string * Person)),
              st.2.*1 = reverse (remove_dups (reverse (persons_json.person_id <$> before))))).
  - done.
  - intros before row st IH _.
    destruct (add_person_entry contactsMap places st row) as (person & -> & _).
    rewrite set_keys, fmap_app, reverse_app. simpl.
    assert (persons_json.person_id row ∈ st.2.*1 ↔
            persons_json.person_id row ∈ reverse (persons_json.person_id <$> before)) as Hiff.
    { rewrite IH, elem_of_reverse. apply elem_of_remove_dups. }
    destruct (decide_rel elem_of (persons_json.person_id row)
                (reverse (persons_json.person_id <$> before))) as [Hin|Hout].
    + rewrite decide_True by by apply Hiff. done.
    + rewrite decide_False by (by rewrite Hiff). by rewrite reverse_cons, IH.
Qed.

(** Every object of the returned array: the object the first loop
    stored under its id, taken through the second loop at that key. *)
Lemma loaded_object p :
  p ∈ (loadNewDatabase persons families places contacts genderMap).2 →
  ∃ p0,
    p = foldl (λ q family,
                 link_family_at
                   (id <$> (loadNewDatabase persons families places contacts genderMap).2)
                   family (id p0) q) p0 families
    ∧ id p0 ∈ persons_json.person_id <$> persons
    ∧ fid p0 = Some "" ∧ mid p0 = Some "" ∧ pids p0 = Some []
    ∧ (name p0 = "" → id p0 = "").
Proof.
  unfold loadNewDatabase. cbv zeta. simpl.
  set (contactsMap := foldl _ ∅ contacts).
  destruct (created_entries contactsMap places persons genderMap) as (Hnd & Hkeys & Hfresh).
  pose proof (created_names contactsMap genderMap) as Hnames.
  set (created := foldl (add_person contactsMap places) (genderMap, []) persons) in *.
  rewrite linked_ids by (intros k q Hin; by destruct (Hfresh k q Hin)). unfold JsMap.values. rewrite link_families_entries.
  rewrite <- list_fmap_compose, list_elem_of_fmap.
  intros ([k p0] & -> & Hin). simpl.
  destruct (Hfresh k p0 Hin) as (Hid & Hf & Hm & Hp).
  exists p0. rewrite Hid. split_and!; try done.
  - apply Hkeys. apply list_elem_of_fmap. by exists (k, p0).
  - intros Hn. by apply (Hnames k p0).
Qed.

Lemma loaded_id_list :
  id <$> (loadNewDatabase persons families places contacts genderMap).2
    = reverse (remove_dups (reverse (persons_json.person_id <$> persons))).
Proof.
  unfold loadNewDatabase. cbv zeta. simpl.
  set (contactsMap := foldl _ ∅ contacts).
  rewrite <- (created_order contactsMap genderMap).
  destruct (created_entries contactsMap places persons genderMap) as (_ & _ & Hfresh).
  set (created := foldl (add_person contactsMap places) (genderMap, []) persons) in *.
  apply linked_ids. intros k q Hin. by destruct (Hfresh k q Hin).
Qed.

Lemma loaded_parent_links p :
  p ∈ (loadNewDatabase persons families places contacts genderMap).2 →
  fid p = match list_find (λ family,
                  is_Some (js_ref (families_json.husband_id family))
                  ∧ id p ∈ default [] (families_json.children family))
                (reverse families) with
          | Some (_, family) => families_json.husband_id family
          | None => Some ""
          end
  ∧ mid p = match list_find (λ family,
                    is_Some (js_ref (families_json.wife_id family))
                    ∧ id p ∈ default [] (families_json.children family))
                  (reverse families) with
            | Some (_, family) => families_json.wife_id family
            | None => Some ""
            end.
Proof.
  intros (p0 & -> & _ & Hf & Hm & _)%loaded_object.
  set (keys := id <$> _).
  destruct (link_all_keeps keys families (id p0) p0) as [-> _].
  destruct (link_all_parents keys families (id p0) p0) as [-> ->].
  by rewrite Hf, Hm.
Qed.

Lemma sex_cases {A} (sex : option string) (a b c : A) :
  match sex with
  | Some "M" => a
  | Some "F" => b
  | _ => c
  end = if decide (sex = Some "M") then a
        else if decide (sex = Some "F") then b else c.
Proof.
  destruct sex as [[|[b0 b1 b2 b3 b4 b5 b6 b7] [|c0 rest]]|];
    try (repeat case_decide; done).
  all: destruct b0, b1, b2, b3, b4, b5, b6, b7; repeat case_decide; done.
Qed.

Lemma created_genders contactsMap k :
  (foldl (add_person contactsMap places) (genderMap, []) persons).1 !! k
    = match list_find (λ row,
              persons_json.person_id row = k
              ∧ (persons_json.sex row = Some "M" ∨ persons_json.sex row = Some "F"))
            (reverse persons) with
      | Some (_, row) => Some (if decide (persons_json.sex row = Some "M") then M else F)
      | None => genderMap !! k
      end.
Proof.
  induction persons as [|row rows IH] using rev_ind; [done|].
  rewrite foldl_app, reverse_snoc.
  rewrite (find_cons_match _
             (λ row, Some (if decide (persons_json.sex row = Some "M") then M else F))).
  cbn [foldl]. unfold add_person at 1. cbv zeta. cbn [fst].
  rewrite sex_cases.
  destruct (decide (persons_json.sex row = Some "M")) as [HM|HM].
  - destruct (decide (persons_json.person_id row = k)) as [<-|Hk].
    + rewrite lookup_insert_eq, decide_True; [done|]. split; [done|by left].
    + rewrite lookup_insert_ne by done. rewrite decide_False by (by intros [? _]). done.
  - destruct (decide (persons_json.sex row = Some "F")) as [HF|HF].
    + destruct (decide (persons_json.person_id row = k)) as [<-|Hk].
      * rewrite lookup_insert_eq, decide_True; [done|]. split; [done|by right].
      * rewrite lookup_insert_ne by done. rewrite decide_False by (by intros [? _]). done.
    + rewrite decide_False by (by intros [_ [?|?]]). done.
Qed.

End Loaded.

(** X21. The array [loadNewDatabase] returns holds one object for each
    distinct [person_id] of [persons], in the order in which the ids
    first occur: its ids are pairwise distinct, they are the ids of
    [persons], and an object has an empty [name] only if its id is the
    empty string. *)
Theorem loaded_ids (persons : list persons_json.row) (families : list families_json.row)
    (places : gmap string (option string)) (contacts : list contacts_json.row)
    (genderMap : gmap string Gender) :
  id <$> (loadNewDatabase persons families places contacts genderMap).2
    = reverse (remove_dups (reverse (persons_json.person_id <$> persons)))
  ∧ NoDup (id <$> (loadNewDatabase persons families places contacts genderMap).2)
  ∧ (∀ k, k ∈ id <$> (loadNewDatabase persons families places contacts genderMap).2 ↔
          k ∈ persons_json.person_id <$> persons)
  ∧ (∀ p, p ∈ (loadNewDatabase persons families places contacts genderMap).2 →
          name p = "" → id p = "").
Proof.
  rewrite loaded_id_list. split_and!.
  - done.
  - rewrite reverse_Permutation. apply NoDup_remove_dups.
  - intros k. by rewrite elem_of_reverse, elem_of_remove_dups, elem_of_reverse.
  - intros p (p0 & -> & _ & _ & _ & _ & Hn)%loaded_object.
    set (keys := id <$> _).
    destruct (link_all_keeps keys families (id p0) p0) as [-> ->]. done.
Qed.

(** X22. The [pids] of a returned object is an array without
    duplicates, and it holds exactly the ids [x] of returned objects for
    which some family has the object's id and [x] as its [husband_id] and
    [wife_id], in either order. *)
Theorem loaded_spouses (persons : list persons_json.row) (families : list families_json.row)
    (places : gmap string (option string)) (contacts : list contacts_json.row)
    (genderMap : gmap string Gender) (p : Person) :
  p ∈ (loadNewDatabase persons families places contacts genderMap).2 →
  ∃ ps, pids p = Some ps ∧ NoDup ps
    ∧ ∀ x, x ∈ ps ↔
        x ∈ id <$> (loadNewDatabase persons families places contacts genderMap).2
        ∧ ∃ family, family ∈ families
            ∧ ((js_ref (families_json.husband_id family) = Some (id p)
                ∧ js_ref (families_json.wife_id family) = Some x)
               ∨ (js_ref (families_json.husband_id family) = Some x
                  ∧ js_ref (families_json.wife_id family) = Some (id p))).
Proof.
  intros Hin.
  assert (Hkey : id p ∈ id <$> (loadNewDatabase persons families places contacts genderMap).2).
  { apply list_elem_of_fmap. by exists p. }
  apply loaded_object in Hin as (p0 & Hp & _ & _ & _ & Hp0 & _).
  revert Hkey Hp. set (keys := id <$> _). intros Hkey ->.
  destruct (link_all_keeps keys families (id p0) p0) as [Hid _].
  rewrite Hid in *.
  destruct (link_all_pids keys families (id p0) p0 [] Hp0 (NoDup_nil_2 (A:=string)))
    as (ps & Hps & Hnd & Hiff).
  exists ps. split_and!; [done..|]. intros x. rewrite Hiff. split.
  - intros [[]%elem_of_nil|(_ & Hx & Hfam)]. done.
  - intros [Hx Hfam]. right. done.
Qed.

Lemma loaded_spouses_witness :
  mkPerson "c" "c" (Some "a") (Some "b") (Some ["d"]) "" "" ""
      [("Death", ""); ("Address", ""); ("email", ""); ("note", "")]
    ∈ (loadNewDatabase sample_persons sample_families ∅ [] ∅).2
  ∧ ∃ ps, Some ["d"] = Some ps ∧ NoDup ps
      ∧ ∀ x, x ∈ ps ↔
          x ∈ id <$> (loadNewDatabase sample_persons sample_families ∅ [] ∅).2
          ∧ ∃ family, family ∈ sample_families
              ∧ ((js_ref (families_json.husband_id family) = Some "c"
                  ∧ js_ref (families_json.wife_id family) = Some x)
                 ∨ (js_ref (families_json.husband_id family) = Some x
                    ∧ js_ref (families_json.wife_id family) = Some "c")).
Proof.
  assert (Hin : mkPerson "c" "c" (Some "a") (Some "b") (Some ["d"]) "" "" ""
                    [("Death", ""); ("Address", ""); ("email", ""); ("note", "")]
                  ∈ (loadNewDatabase sample_persons sample_families ∅ [] ∅).2).
  { vm_compute. do 2 right. left. }
  split; [exact Hin|].
  exact (loaded_spouses sample_persons sample_families ∅ [] ∅ _ Hin).
Defined.

(** X23. The [fid] of a returned object is the [husband_id] of the last
    family that has a truthy [husband_id] and lists the object's id among
    its [children], and the empty string when there is no such family;
    the [mid] is the [wife_id] of the last family with a truthy [wife_id]
    that lists the id, and the empty string when there is none. *)
Theorem loaded_parents (persons : list persons_json.row) (families : list families_json.row)
    (places : gmap string (option string)) (contacts : list contacts_json.row)
    (genderMap : gmap string Gender) (p : Person) :
  p ∈ (loadNewDatabase persons families places contacts genderMap).2 →
  fid p = match list_find (λ family,
                  is_Some (js_ref (families_json.husband_id family))
                  ∧ id p ∈ default [] (families_json.children family))
                (reverse families) with
          | Some (_, family) => families_json.husband_id family
          | None => Some ""
          end
  ∧ mid p = match list_find (λ family,
                    is_Some (js_ref (families_json.wife_id family))
                    ∧ id p ∈ default [] (families_json.children family))
                  (reverse families) with
            | Some (_, family) => families_json.wife_id family
            | None => Some ""
            end.
Proof. apply loaded_parent_links. Qed.

Lemma loaded_parents_witness :
  mkPerson "c" "c" (Some "a") (Some "b") (Some ["d"]) "" "" ""
      [("Death", ""); ("Address", ""); ("email", ""); ("note", "")]
    ∈ (loadNewDatabase sample_persons sample_families ∅ [] ∅).2
  ∧ Some "a" = match list_find (λ family,
                    is_Some (js_ref (families_json.husband_id family))
                    ∧ "c" ∈ default [] (families_json.children family))
                  (reverse sample_families) with
              | Some (_, family) => families_json.husband_id family
              | None => Some ""
              end
  ∧ Some "b" = match list_find (λ family,
                    is_Some (js_ref (families_json.wife_id family))
                    ∧ "c" ∈ default [] (families_json.children family))
                  (reverse sample_families) with
              | Some (_, family) => families_json.wife_id family
              | None => Some ""
              end.
Proof.
  assert (Hin : mkPerson "c" "c" (Some "a") (Some "b") (Some ["d"]) "" "" ""
                    [("Death", ""); ("Address", ""); ("email", ""); ("note", "")]
                  ∈ (loadNewDatabase sample_persons sample_families ∅ [] ∅).2).
  { vm_compute. do 2 right. left. }
  split; [exact Hin|].
  exact (loaded_parents sample_persons sample_families ∅ [] ∅ _ Hin).
Defined.

(** X24. Where no id is both the truthy [husband_id] of a family and the
    truthy [wife_id] of a family, the lookups built from the loader's
    array list no child twice: every array of [childrenMap] is without
    duplicates, and each child in the array stored under a parent is a
    [person_id] of [persons] that some family lists among its [children]
    with that parent as its [husband_id] or [wife_id]. *)
Theorem loaded_children_lists (persons : list persons_json.row)
    (families : list families_json.row) (places : gmap string (option string))
    (contacts : list contacts_json.row) (genderMap : gmap string Gender)
    (parent : string) (l : list string) :
  Forall (λ h, h ∉ omap (λ family, js_ref (families_json.wife_id family)) families)
         (omap (λ family, js_ref (families_json.husband_id family)) families) →
  childrenMap (Build (loadNewDatabase persons families places contacts genderMap).2
                     (loadNewDatabase persons families places contacts genderMap).1)
    !! parent = Some l →
  NoDup l
  ∧ ∀ c, c ∈ l →
      c ∈ persons_json.person_id <$> persons
      ∧ ∃ family cs, family ∈ families
          ∧ families_json.children family = Some cs ∧ c ∈ cs
          ∧ (js_ref (families_json.husband_id family) = Some parent
             ∨ js_ref (families_json.wife_id family) = Some parent).
Proof.
  intros Hapart. rewrite Build_children.
  destruct (loaded_ids persons families places contacts genderMap) as (_ & Hnd & Hkeys & _).
  set (out := (loadNewDatabase persons families places contacts genderMap).2) in *.
  assert (Hfather : ∀ q x, q ∈ out → js_ref (fid q) = Some x →
            ∃ family, family ∈ families ∧ js_ref (families_json.husband_id family) = Some x
                      ∧ id q ∈ default [] (families_json.children family)).
  { intros q x Hq Hx. destruct (loaded_parent_links _ _ _ _ _ q Hq) as [Hf _].
    rewrite Hf in Hx.
    destruct (list_find _ (reverse families)) as [[i family]|] eqn:Hfind; [|done].
    apply list_find_Some in Hfind as (Hi & [_ Hc] & _).
    exists family. split_and!; [|done..].
    apply elem_of_reverse. by apply list_elem_of_lookup_2 in Hi. }
  assert (Hmother : ∀ q x, q ∈ out → js_ref (mid q) = Some x →
            ∃ family, family ∈ families ∧ js_ref (families_json.wife_id family) = Some x
                      ∧ id q ∈ default [] (families_json.children family)).
  { intros q x Hq Hx. destruct (loaded_parent_links _ _ _ _ _ q Hq) as [_ Hm].
    rewrite Hm in Hx.
    destruct (list_find _ (reverse families)) as [[i family]|] eqn:Hfind; [|done].
    apply list_find_Some in Hfind as (Hi & [_ Hc] & _).
    exists family. split_and!; [|done..].
    apply elem_of_reverse. by apply list_elem_of_lookup_2 in Hi. }
  assert (Hall : NoDup (appended_children parent out)).
  { apply appended_children_NoDup; [done|].
    intros q Hq Hf Hm.
    destruct (Hfather q parent Hq Hf) as (fam1 & Hfam1 & Hh & _).
    destruct (Hmother q parent Hq Hm) as (fam2 & Hfam2 & Hw & _).
    rewrite Forall_forall in Hapart. apply (Hapart parent).
    - apply list_elem_of_omap. by exists fam1.
    - apply list_elem_of_omap. by exists fam2. }
  intros Hl.
  assert (Hperm : l ≡ₚ appended_children parent out).
  { destruct (appended_children parent out) as [|c0 cs]; [done|].
    injection Hl as <-. unfold js_sort. apply merge_sort_Permutation. }
  split; [by rewrite Hperm|].
  intros c. rewrite Hperm, appended_children_elem.
  intros (q & Hq & <- & Hpar). split.
  - apply Hkeys. apply list_elem_of_fmap. by exists q.
  - destruct Hpar as [Hf|Hm].
    + destruct (Hfather q parent Hq Hf) as (family & Hfam & Hh & Hc).
      destruct (families_json.children family) as [cs|] eqn:Hcs;
        [|by apply elem_of_nil in Hc].
      exists family, cs. split_and!; [done..|by left].
    + destruct (Hmother q parent Hq Hm) as (family & Hfam & Hw & Hc).
      destruct (families_json.children family) as [cs|] eqn:Hcs;
        [|by apply elem_of_nil in Hc].
      exists family, cs. split_and!; [done..|by right].
Qed.

Lemma loaded_children_lists_witness :
  Forall (λ h, h ∉ omap (λ family, js_ref (families_json.wife_id family)) sample_families)
         (omap (λ family, js_ref (families_json.husband_id family)) sample_families)
  ∧ childrenMap (Build (loadNewDatabase sample_persons sample_families ∅ [] ∅).2
                       (loadNewDatabase sample_persons sample_families ∅ [] ∅).1)
      !! "a" = Some ["c"]
  ∧ NoDup ["c"]
  ∧ ∀ c, c ∈ ["c"] →
      c ∈ persons_json.person_id <$> sample_persons
      ∧ ∃ family cs, family ∈ sample_families
          ∧ families_json.children family = Some cs ∧ c ∈ cs
          ∧ (js_ref (families_json.husband_id family) = Some "a"
             ∨ js_ref (families_json.wife_id family) = Some "a").
Proof.
  assert (Hapart :
    Forall (λ h, h ∉ omap (λ family, js_ref (families_json.wife_id family)) sample_families)
           (omap (λ family, js_ref (families_json.husband_id family)) sample_families)).
  { apply (bool_decide_unpack _). vm_compute. exact I. }
  assert (Hl : childrenMap (Build (loadNewDatabase sample_persons sample_families ∅ [] ∅).2
                                  (loadNewDatabase sample_persons sample_families ∅ [] ∅).1)
                 !! "a" = Some ["c"]).
  { vm_compute. reflexivity. }
  split; [exact Hapart|]. split; [exact Hl|].
  exact (loaded_children_lists sample_persons sample_families ∅ [] ∅ "a" ["c"] Hapart Hl).
Defined.

(** X25. The [genderMap] that [loadNewDatabase] leaves holds under an id
    the [sex] of the last row of [persons] with that [person_id] whose
    [sex] is 'M' or 'F', and what it held before the call when there is
    no such row. *)
Theorem loaded_genders (persons : list persons_json.row) (families : list families_json.row)
    (places : gmap string (option string)) (contacts : list contacts_json.row)
    (genderMap : gmap string Gender) (k : string) :
  (loadNewDatabase persons families places contacts genderMap).1 !! k
    = match list_find (λ row,
              persons_json.person_id row = k
              ∧ (persons_json.sex row = Some "M" ∨ persons_json.sex row = Some "F"))
            (reverse persons) with
      | Some (_, row) => Some (if decide (persons_json.sex row = Some "M") then M else F)
      | None => genderMap !! k
      end.
Proof. unfold loadNewDatabase. cbv zeta. simpl. apply created_genders. Qed.
